(** * FMrec: the FM demodulation pipeline of [main.c]

    The signal-processing functions of [main.c] ([convert_value],
    [get_instant_freq], [get_freq_values], [deemphasize_filter],
    [dc_block_filter], [demodulate], [decimate], [convert_samples] and the
    body of the capture loop of [main]) are embedded as functions over an
    interface [CArith] of the C arithmetic they use.  Two interpretations of
    the interface are given: IEEE-754 binary32/binary64 arithmetic (what the
    compiled program computes) and exact real arithmetic (the mathematics
    the filters approximate).  [main] itself is embedded in [Driver] as a
    function of what the outside world answers to its calls.

    C arrays are lists indexed by [Z]; an access outside the array is
    undefined behaviour in C and is [None] here. *)

From Stdlib Require Import ZArith QArith Reals Lra Lia Bool SpecFloat.
From stdpp Require Import base option list strings.

Local Open Scope Z_scope.

(** ** Arrays and counted loops *)

Section Arrays.
Context {T : Type}.

(** [a[i]] as an rvalue. *)
Definition load (a : list T) (i : Z) : option T :=
  if decide (0 <= i) then a !! Z.to_nat i else None.

(** [a[i] = v]. *)
Definition store (a : list T) (i : Z) (v : T) : option (list T) :=
  if decide (0 <= i < Z.of_nat (length a))
  then Some (<[Z.to_nat i := v]> a) else None.

(** [malloc(sizeof(T) * n)]: [n] cells of unspecified content [junk]. *)
Definition malloc (junk : T) (n : Z) : list T := replicate (Z.to_nat n) junk.

(** [b] is [a] from cell [k] on, and as long. *)
Definition kept (k : Z) (a b : list T) : Prop :=
  length b = length a /\ forall i, k <= i -> load b i = load a i.
End Arrays.

Section Loops.
Context {S : Type}.

Fixpoint for_iter (n : nat) (i step : Z) (body : Z -> S -> option S) (s : S)
  : option S :=
  match n with
  | O => Some s
  | Datatypes.S n' => s' ← body i s; for_iter n' (i + step) step body s'
  end.

(** [for (i = lo; i < hi; i += step) body], for a positive [step]. *)
Definition for_loop (lo hi step : Z) (body : Z -> S -> option S) (s : S)
  : option S :=
  for_iter (Z.to_nat ((hi - lo + step - 1) / step)) lo step body s.
End Loops.

(** ** The arithmetic of the C program *)

Class CArith := {
  float : Type;
  double : Type;
  (** conversions *)
  f_of_u8 : Z -> float;
  d_of_int : Z -> double;
  d_of_f : float -> double;
  f_of_d : double -> float;
  (** literals, given by their decimal value *)
  f_lit : Q -> float;
  d_lit : Q -> double;
  (** [float] operators *)
  f_add : float -> float -> float;
  f_sub : float -> float -> float;
  f_mul : float -> float -> float;
  f_neg : float -> float;
  f_gt : float -> float -> bool;
  f_lt : float -> float -> bool;
  (** [double] operators *)
  d_add : double -> double -> double;
  d_sub : double -> double -> double;
  d_mul : double -> double -> double;
  d_div : double -> double -> double;
  d_neg : double -> double;
  d_gt : double -> double -> bool;
  d_lt : double -> double -> bool;
  (** [<math.h>] *)
  M_PI : double;
  atan2 : double -> double -> double;
  exp : double -> double;
  (** the cast [(int16_t)x]; [None] where C leaves it undefined *)
  i16_of_f : float -> option Z
}.

(** The conversion [(uint32_t)x] of a [double], which the call of
    [rtlsdr_set_center_freq] performs on its argument; [None] where C
    leaves it undefined. *)
Class CConv (A : CArith) := { u32_of_d : double -> option Z }.

(** ** The program *)

Module FMrec.
Section Program.
Context {A : CArith}.

Definition SAMPLE_RATE : Z := 960000.
Definition AUDIO_RATE : Z := 48000.
Definition DECIMATION_FACTOR : Z := SAMPLE_RATE ÷ AUDIO_RATE.
Definition BUFFER_SIZE : Z := 16 * 16384.
Definition TAU : double := d_lit (5 # 100000).

Definition convert_value (value : Z) : float :=
  f_sub (f_of_u8 value) (f_lit (1275 # 10)).

Definition get_instant_freq (i1 q1 i2 q2 : float) : float :=
  let phase1 := f_of_d (atan2 (d_of_f q1) (d_of_f i1)) in
  let phase2 := f_of_d (atan2 (d_of_f q2) (d_of_f i2)) in
  let instant_freq := f_sub phase2 phase1 in
  if d_gt (d_of_f instant_freq) M_PI then
    f_of_d (d_sub (d_of_f instant_freq) (d_mul (d_of_int 2) M_PI))
  else if d_lt (d_of_f instant_freq) (d_neg M_PI) then
    f_of_d (d_add (d_of_f instant_freq) (d_mul (d_of_int 2) M_PI))
  else instant_freq.

Definition get_freq_values (freq_samples i_samples q_samples : list float)
    (len : Z) : option (list float) :=
  for_loop 0 (len - 1) 1 (fun i freq_samples =>
    i1 ← load i_samples i;
    q1 ← load q_samples i;
    i2 ← load i_samples (i + 1);
    q2 ← load q_samples (i + 1);
    store freq_samples i (get_instant_freq i1 q1 i2 q2)) freq_samples.

Definition alpha : float :=
  f_of_d (d_sub (d_lit 1)
    (exp (d_neg (d_div (d_lit 1) (d_mul TAU (d_of_int SAMPLE_RATE)))))).

Definition deemphasize_filter (freq_samples : list float)
    (last_sample : float) (len : Z) : option (list float) :=
  let alpha := alpha in
  x0 ← load freq_samples 0;
  freq_samples ← store freq_samples 0
    (f_add (f_mul alpha x0) (f_mul (f_sub (f_lit 1) alpha) last_sample));
  for_loop 1 len 1 (fun i freq_samples =>
    xi ← load freq_samples i;
    xp ← load freq_samples (i - 1);
    store freq_samples i
      (f_add (f_mul alpha xi) (f_mul (f_sub (f_lit 1) alpha) xp)))
    freq_samples.

Definition R_pole : float := f_of_d (d_lit (99 # 100)).

Definition dc_block_filter (samples_buffer : list float) (len : Z)
    : option (list float) :=
  let R := R_pole in
  last ← load samples_buffer 0;
  '(_, _, samples_buffer) ←
    for_loop 1 len 1 (fun i '(last, tmp_res, samples_buffer) =>
      xi ← load samples_buffer i;
      xp ← load samples_buffer (i - 1);
      let tmp_res := f_add (f_sub xi last) (f_mul R xp) in
      let last := xi in
      samples_buffer ← store samples_buffer i tmp_res;
      Some (last, tmp_res, samples_buffer))
    (last, f_lit 0, samples_buffer);
  Some samples_buffer.

Definition demodulate (freq_samples : list float) (last_sample : float)
    (buffer : list Z) (len : Z) : option (list float * float) :=
  let i_samples := malloc (f_lit 0) (len ÷ 2) in
  let q_samples := malloc (f_lit 0) (len ÷ 2) in
  '(_, i_samples, q_samples) ←
    for_loop 0 len 2 (fun j '(i, i_samples, q_samples) =>
      bi ← load buffer j;
      i_samples ← store i_samples i (convert_value bi);
      bq ← load buffer (j + 1);
      q_samples ← store q_samples i (convert_value bq);
      Some (i + 1, i_samples, q_samples))
    (0, i_samples, q_samples);
  freq_samples ← get_freq_values freq_samples i_samples q_samples (len ÷ 2);
  freq_samples ← deemphasize_filter freq_samples last_sample (len ÷ 2);
  freq_samples ← dc_block_filter freq_samples (len ÷ 2);
  r ← load freq_samples (len ÷ 2 - 1);
  Some (freq_samples, r).

Definition decimate (decimated_samples freq_samples : list float) (len : Z)
    : option (list float * Z) :=
  '(_, decimated_samples) ←
    for_loop 0 (len ÷ DECIMATION_FACTOR) 1 (fun i '(j, decimated_samples) =>
      x ← load freq_samples j;
      decimated_samples ← store decimated_samples i x;
      Some (j + DECIMATION_FACTOR, decimated_samples))
    (0, decimated_samples);
  Some (decimated_samples, len ÷ DECIMATION_FACTOR).

Definition GAIN : float := f_lit 32767.

Definition convert_sample (x : float) : option Z :=
  let res := f_mul x GAIN in
  let res :=
    if f_gt res (f_lit 32767) then f_lit 32767
    else if f_lt res (f_neg (f_lit 32768)) then f_neg (f_lit 32768)
    else res in
  i16_of_f res.

Definition convert_samples (buffer : list Z) (samples : list float) (len : Z)
    : option (list Z) :=
  for_loop 0 len 1 (fun i buffer =>
    x ← load samples i;
    v ← convert_sample x;
    store buffer i v) buffer.

(** One turn of the capture loop of [main], after the read: the state is
    the two working arrays and [last_sample]; the result is the new state
    and the block handed to [fwrite]. *)
Record state := {
  freq_samples : list float;
  freq_samples_decimated : list float;
  last_sample : float
}.

Definition process_buffer (st : state) (buffer : list Z) (size : Z)
    : option (state * list Z) :=
  '(fs, last) ← demodulate (freq_samples st) (last_sample st) buffer size;
  '(dec, samples_to_write) ← decimate (freq_samples_decimated st) fs (size ÷ 2);
  let int_samples := malloc 0 samples_to_write in
  int_samples ← convert_samples int_samples dec samples_to_write;
  Some ({| freq_samples := fs; freq_samples_decimated := dec;
           last_sample := last |}, int_samples).
End Program.
End FMrec.

(** ** The driver

    [main] opens the radio and [audio.wav], writes a header, runs the
    capture loop and writes the header again with the sizes.  What the
    calls into librtlsdr and the C library answer is not the program's to
    decide: a [world] holds those answers, and a run of [main] is the list
    of the calls it makes, in order, with the way it ends.  The size of the
    buffer, [BUFFER_SIZE] in [main.c], is a parameter of [main_sized]. *)

Module Driver.
Import FMrec.

(** [int] has 32 bits and [long] 64 (LP64).  Signed overflow is undefined:
    [None]. *)
Definition INT_MAX : Z := 2147483647.
Definition INT_MIN : Z := - INT_MAX - 1.
Definition LONG_MAX : Z := 9223372036854775807.
Definition LONG_MIN : Z := - LONG_MAX - 1.

Definition int_of (z : Z) : option Z :=
  if decide (INT_MIN <= z <= INT_MAX) then Some z else None.
Definition long_of (z : Z) : option Z :=
  if decide (LONG_MIN <= z <= LONG_MAX) then Some z else None.

(** Conversions to [uint16_t], [uint32_t] and, from [unsigned long], to
    [long]. *)
Definition u16 (z : Z) : Z := z mod 2 ^ 16.
Definition u32 (z : Z) : Z := z mod 2 ^ 32.
Definition to_long (z : Z) : Z := (z + 2 ^ 63) mod 2 ^ 64 - 2 ^ 63.

Definition AUDIO_DURATION : Z := 5.
Definition SDR_INDEX : Z := 0.

Record WavHeader := {
  chunkId : string;
  chunkSize : Z;
  format : string;
  fmtChunkId : string;
  fmtChunkSize : Z;
  audioFormat : Z;
  numChannels : Z;
  sampleRate : Z;
  byteRate : Z;
  blockAlign : Z;
  bitsPerSample : Z;
  dataChunkId : string;
  dataSize : Z
}.

(** The header as [main] first writes it, sizes still to come. *)
Definition placeholder_header : WavHeader := {|
  chunkId := "RIFF";
  chunkSize := u32 0;
  format := "WAVE";
  fmtChunkId := "fmt ";
  fmtChunkSize := u32 16;
  audioFormat := u16 1;
  numChannels := u16 1;
  sampleRate := u32 AUDIO_RATE;
  bitsPerSample := u16 16;
  byteRate := u32 (AUDIO_RATE * 1 * 16 ÷ 8);
  blockAlign := u16 (1 * 16 ÷ 8);
  dataChunkId := "data";
  dataSize := u32 0
|}.

(** The two assignments before the header is written again. *)
Definition set_sizes (header : WavHeader) (chunk data : Z) : WavHeader := {|
  chunkId := chunkId header;
  chunkSize := u32 chunk;
  format := format header;
  fmtChunkId := fmtChunkId header;
  fmtChunkSize := fmtChunkSize header;
  audioFormat := audioFormat header;
  numChannels := numChannels header;
  sampleRate := sampleRate header;
  byteRate := byteRate header;
  blockAlign := blockAlign header;
  bitsPerSample := bitsPerSample header;
  dataChunkId := dataChunkId header;
  dataSize := u32 data
|}.

Definition newline : string := String (Ascii.ascii_of_nat 10) EmptyString.


Section Main.
Context {A : CArith} {C : CConv A}.

(** What one call of [rtlsdr_read_sync] does: the value it returns, the
    count it stores in [read_bytes] and the bytes it puts at the start of
    the buffer. *)
Record sdr_read := {
  result : Z;
  n_read : Z;
  data : list Z
}.

(** What [main] cannot know beforehand: the C library's reading of the
    arguments, the outcome of the calls that open the device and the file,
    the successive reads, and what its automatic arrays hold before their
    first assignment. *)
Record world := {
  atof : string -> double;
  atoi : string -> Z;
  rtlsdr_open_result : Z;
  fopen_succeeds : bool;
  reads : list sdr_read;
  buffer_before : Z -> Z;
  freq_samples_before : Z -> float;
  freq_samples_decimated_before : Z -> float
}.

(** The calls [main] makes, in order. *)
Inductive event :=
| fprintf_stderr (message : string)
| rtlsdr_open (index : Z)
| rtlsdr_set_center_freq (freq : Z)
| rtlsdr_set_sample_rate (rate : Z)
| rtlsdr_set_tuner_gain_mode (manual : Z)
| rtlsdr_reset_buffer
| fopen (path mode : string)
| fwrite_header (header : WavHeader)
| rtlsdr_read_sync (len : Z)
| fwrite_samples (int_samples : list Z)
| fseek_set (offset : Z)
| fclose
| rtlsdr_close.

(** How a run ends: [main] returns, [exit] is called, the run has no
    defined continuation, or it waits for a read the world does not
    provide. *)
Inductive outcome :=
| Returned (status : Z)
| Exited (status : Z)
| Undefined
| Blocked.

Definition run : Type := list event * outcome.

Definition emit (e : event) (r : run) : run := (e :: r.1, r.2).

(** An automatic array of [n] cells before its first assignment. *)
Definition automatic {T} (before : Z -> T) (n : Z) : list T :=
  map (fun k => before (Z.of_nat k)) (seq 0 (Z.to_nat n)).

(** The variables the capture loop works on. *)
Record locals := {
  buffer : list Z;
  arrays : state;
  read_bytes : Z;
  bytes_count : Z;
  total_audio_bytes : Z
}.

(** [while (bytes_count < total_bytes) { ... }], one turn per read the
    world provides, followed by [rest]. *)
Fixpoint capture (size total_bytes : Z) (reads : list sdr_read) (l : locals)
    (rest : locals -> run) : run :=
  if decide (bytes_count l < total_bytes) then
    match reads with
    | [] => ([], Blocked)
    | rd :: reads =>
        emit (rtlsdr_read_sync size)
          (let buffer :=
             take (Z.to_nat size) (data rd ++ drop (length (data rd)) (buffer l)) in
           let read_bytes := n_read rd in
           if decide (result rd < 0) then
             emit (fprintf_stderr
                     ("An error occurred while reading IQ samples." +:+ newline))
               ([], Exited 1)
           else
             match demodulate (freq_samples (arrays l)) (last_sample (arrays l))
                     buffer size with
             | None => ([], Undefined)
             | Some (freq_samples, last_sample) =>
             match decimate (freq_samples_decimated (arrays l)) freq_samples
                     (size ÷ 2) with
             | None => ([], Undefined)
             | Some (freq_samples_decimated, samples_to_write) =>
             match convert_samples (malloc 0 samples_to_write)
                     freq_samples_decimated samples_to_write with
             | None => ([], Undefined)
             | Some int_samples =>
                 emit (fwrite_samples int_samples)
                   (let total_audio_bytes :=
                      to_long (total_audio_bytes l + samples_to_write * 2) in
                    match int_of (bytes_count l + read_bytes) with
                    | None => ([], Undefined)
                    | Some bytes_count =>
                        capture size total_bytes reads
                          {| buffer := buffer;
                             arrays := {| freq_samples := freq_samples;
                                          freq_samples_decimated := freq_samples_decimated;
                                          last_sample := last_sample |};
                             read_bytes := read_bytes;
                             bytes_count := bytes_count;
                             total_audio_bytes := total_audio_bytes |}
                          rest
                    end)
             end end end)
    end
  else rest l.

(** [main], for a buffer of [size] bytes. *)
Definition main_sized (size : Z) (w : world) (argc : Z) (argv : list string) : run :=
  if decide (argc > 1) then
    match load argv 1 with
    | None => ([], Undefined)
    | Some arg1 =>
    let center_freq := f_of_d (atof w arg1) in
    match load argv 2 with
    | None => ([], Undefined)
    | Some arg2 =>
    let audio_duration := atoi w arg2 in
    emit (rtlsdr_open SDR_INDEX)
      ((if decide (rtlsdr_open_result w < 0)
        then emit (fprintf_stderr ("Failed to open SDR sdrice." +:+ newline))
        else fun r : run => r)
         match u32_of_d (d_mul (d_of_f center_freq) (d_lit 1000000)) with
         | None => ([], Undefined)
         | Some freq =>
         emit (rtlsdr_set_center_freq freq)
        (emit (rtlsdr_set_sample_rate SAMPLE_RATE)
        (emit (rtlsdr_set_tuner_gain_mode 0)
        (emit rtlsdr_reset_buffer
        (emit (fopen "audio.wav" "wb")
           (let header := placeholder_header in
            if fopen_succeeds w then
              emit (fwrite_header header)
                match int_of (SAMPLE_RATE * audio_duration) ≫= fun t => int_of (t * 2) with
                | None => ([], Undefined)
                | Some total_bytes =>
                    capture size total_bytes (reads w)
                      {| buffer := automatic (buffer_before w) size;
                         arrays :=
                           {| freq_samples :=
                                automatic (freq_samples_before w) (size ÷ 2);
                              freq_samples_decimated :=
                                automatic (freq_samples_decimated_before w)
                                  (size ÷ (2 * DECIMATION_FACTOR));
                              last_sample := f_lit 0 |};
                         read_bytes := 0;
                         bytes_count := 0;
                         total_audio_bytes := 0 |}
                      (fun l =>
                         emit (fseek_set 0)
                           match long_of (36 + total_audio_bytes l) with
                           | None => ([], Undefined)
                           | Some chunk =>
                               emit (fwrite_header
                                       (set_sizes header chunk (total_audio_bytes l)))
                              (emit fclose
                              (emit rtlsdr_close ([], Returned 0)))
                           end)
                end
            else ([], Undefined))))))
         end)
    end end
  else
    emit (fprintf_stderr
            ("Missing center frequency argument or audio duration" +:+ newline))
      ([], Exited 1).

Definition main : world -> Z -> list string -> run := main_sized BUFFER_SIZE.

(** The PCM samples and the headers a run writes to the file, in order. *)
Definition samples_written (events : list event) : list Z :=
  concat (omap (fun e => match e with fwrite_samples s => Some s | _ => None end) events).

Definition headers_written (events : list event) : list WavHeader :=
  omap (fun e => match e with fwrite_header h => Some h | _ => None end) events.

Definition reads_made (events : list event) : list Z :=
  omap (fun e => match e with rtlsdr_read_sync len => Some len | _ => None end) events.
End Main.
End Driver.

(** ** IEEE-754 interpretation

    [float] is binary32 and [double] is binary64, both as [spec_float] and
    computed with the operations of [SpecFloat] (round to nearest, ties to
    even), every operation rounding once to the format of its C type. *)

Module IEEE.
Definition prec32 : Z := 24.
Definition emax32 : Z := 128.
Definition prec64 : Z := 53.
Definition emax64 : Z := 1024.

(** The value [m * 2^e] rounded to the format. *)
Definition round32 (m e : Z) : spec_float := binary_normalize prec32 emax32 m e false.
Definition round64 (m e : Z) : spec_float := binary_normalize prec64 emax64 m e false.

(** Change of format: exact towards binary64, rounded towards binary32. *)
Definition to32 (x : spec_float) : spec_float :=
  match x with
  | S754_finite s m e => binary_normalize prec32 emax32 (cond_Zopp s (Zpos m)) e s
  | _ => x
  end.
Definition to64 (x : spec_float) : spec_float :=
  match x with
  | S754_finite s m e => binary_normalize prec64 emax64 (cond_Zopp s (Zpos m)) e s
  | _ => x
  end.

(** The rational [q] rounded to the format: a decimal literal. *)
Definition of_Q (prec emax : Z) (q : Q) : spec_float :=
  match Qnum q with
  | Z0 => S754_zero false
  | Zpos n => SFdiv prec emax (S754_finite false n 0) (S754_finite false (Qden q) 0)
  | Zneg n => SFdiv prec emax (S754_finite true n 0) (S754_finite false (Qden q) 0)
  end.

(** The integral part of a finite number, towards zero. *)
Definition trunc (x : spec_float) : option Z :=
  match x with
  | S754_zero _ => Some 0
  | S754_finite s m e => Some (cond_Zopp s (Z.shiftl (Zpos m) e))
  | _ => None
  end.

(** [(int16_t)x]: defined when the integral part fits (C11 6.3.1.4). *)
Definition to_int16 (x : spec_float) : option Z :=
  z ← trunc x;
  if decide (-32768 <= z <= 32767) then Some z else None.

(** 0x1.921fb54442d18p+1 *)
Definition pi64 : spec_float := S754_finite false 7074237752028440 (-51).

(** The two functions of the C library the program calls. *)
Record libm := {
  lm_atan2 : spec_float -> spec_float -> spec_float;
  lm_exp : spec_float -> spec_float
}.

Definition arith (lm : libm) : CArith := {|
  float := spec_float;
  double := spec_float;
  f_of_u8 z := round32 z 0;
  d_of_int z := round64 z 0;
  d_of_f := to64;
  f_of_d := to32;
  f_lit := of_Q prec32 emax32;
  d_lit := of_Q prec64 emax64;
  f_add := SFadd prec32 emax32;
  f_sub := SFsub prec32 emax32;
  f_mul := SFmul prec32 emax32;
  f_neg := SFopp;
  f_gt x y := SFltb y x;
  f_lt x y := SFltb x y;
  d_add := SFadd prec64 emax64;
  d_sub := SFsub prec64 emax64;
  d_mul := SFmul prec64 emax64;
  d_div := SFdiv prec64 emax64;
  d_neg := SFopp;
  d_gt x y := SFltb y x;
  d_lt x y := SFltb x y;
  M_PI := pi64;
  atan2 := lm_atan2 lm;
  exp := lm_exp lm;
  i16_of_f := to_int16
|}.

(** [(uint32_t)x]: defined when the integral part fits. *)
Definition to_uint32 (x : spec_float) : option Z :=
  z ← trunc x;
  if decide (0 <= z <= 4294967295) then Some z else None.

Definition conv (lm : libm) : CConv (arith lm) := Build_CConv (arith lm) to_uint32.
End IEEE.

(** ** A reference C library

    [atan2] and [exp] belong to the C library, not to the program.  For
    evaluating the program on concrete buffers they are computed here from
    their power series in fixed-point arithmetic with 192 fractional bits,
    far more than binary64 holds, and rounded once to binary64.  The
    program only calls them on finite arguments ([exp] at [-1/48], [atan2]
    at I/Q samples, which are never zero); NaN is returned otherwise. *)

Module RefLibm.
Import IEEE.

Definition Q_of_float (x : spec_float) : option Q :=
  match x with
  | S754_zero _ => Some 0%Q
  | S754_finite s m e =>
      let n := cond_Zopp s (Zpos m) in
      Some (match e with
            | Z0 => inject_Z n
            | Zpos p => inject_Z (n * Z.pow_pos 2 p)
            | Zneg p => (n # Pos.pow 2 p)%Q
            end)
  | _ => None
  end.

(** Fixed point: the integer [z] stands for [z / 2^192]. *)
Definition one : Z := Eval vm_compute in 2 ^ 192.
Definition fx (q : Q) : Z := Qnum q * one / Zpos (Qden q).
Definition fmul (a b : Z) : Z := Z.shiftr (a * b) 192.
Definition Q_of_fx (z : Z) : Q := z # Z.to_pos one.

(** [1 + x/1 (1 + x/2 (1 + ... (1 + x/n)))], for [|x| <= 1] *)
Fixpoint exp_horner (x : Z) (k : nat) (acc : Z) : Z :=
  match k with
  | O => acc
  | S k' => exp_horner x k' (one + fmul x acc / Z.of_nat k)
  end.

Definition exp_fx (x : Z) : Z := exp_horner x 40 one.

(** [1 - w (1/3 - w (1/5 - ...))], to be multiplied by [u], with [w = u^2] *)
Fixpoint atan_horner (w : Z) (k : nat) (acc : Z) : Z :=
  match k with
  | O => acc
  | S k' => atan_horner w k' (one / (2 * Z.of_nat k' + 1) - fmul w acc)
  end.

(** The series with [n] terms: for [|u| <= 1/2] with 100 terms, and for
    [|u| <= 1/3] with 64. *)
Definition atan_series (n : nat) (u : Z) : Z :=
  fmul u (atan_horner (fmul u u) n 0).
Definition atan_small : Z -> Z := atan_series 64.

Definition atan_half : Z := Eval vm_compute in atan_series 100 (fx (1 # 2)).
Definition atan_third : Z := Eval vm_compute in atan_series 100 (fx (1 # 3)).
(** [atan 1 = atan (1/2) + atan (1/3)] *)
Definition pi_fx : Z := Eval vm_compute in 4 * (atan_half + atan_third).

(** For [0 <= t <= 1], by [atan t = atan (1/2) + atan ((t - 1/2) / (1 + t/2))]. *)
Definition atan_unit (t : Q) : Z :=
  if Qle_bool t (1 # 4) then atan_small (fx t)
  else atan_half + atan_small (fx ((t - (1 # 2)) / (1 + t / 2))%Q).

Definition atan_pos (t : Q) : Z :=
  if Qle_bool t 1 then atan_unit t else pi_fx / 2 - atan_unit (/ t)%Q.

Definition atan_fx (t : Q) : Z :=
  if Qle_bool 0 t then atan_pos t else - atan_pos (- t)%Q.

Definition atan2_fx (y x : Q) : Z :=
  match Qcompare x 0 with
  | Gt => atan_fx (y / x)%Q
  | Lt => if Qle_bool 0 y then atan_fx (y / x)%Q + pi_fx
          else atan_fx (y / x)%Q - pi_fx
  | Eq => match Qcompare y 0 with
          | Gt => pi_fx / 2
          | Lt => - (pi_fx / 2)
          | Eq => 0
          end
  end.

Definition ref_atan2 (y x : spec_float) : spec_float :=
  match Q_of_float y, Q_of_float x with
  | Some qy, Some qx => of_Q prec64 emax64 (Q_of_fx (atan2_fx (Qred qy) (Qred qx)))
  | _, _ => S754_nan
  end.

Definition ref_exp (x : spec_float) : spec_float :=
  match Q_of_float x with
  | Some q => of_Q prec64 emax64 (Q_of_fx (exp_fx (fx q)))
  | None => S754_nan
  end.

Definition ref : libm := {| lm_atan2 := ref_atan2; lm_exp := ref_exp |}.
End RefLibm.

(** The compiled program: IEEE arithmetic with the reference library. *)
Definition machine : CArith := IEEE.arith RefLibm.ref.
Definition machine_conv : CConv machine := IEEE.conv RefLibm.ref.

(** ** Exact interpretation

    Both C types are the real numbers, no operation rounds, and [atan2] and
    [exp] are the mathematical functions. *)

Module Exact.
Local Open Scope R_scope.

Definition ltb (x y : R) : bool := if Rlt_dec x y then true else false.

Definition atan2_R (y x : R) : R :=
  if Rlt_dec 0 x then atan (y / x)
  else if Rlt_dec x 0 then
    if Rle_dec 0 y then atan (y / x) + PI else atan (y / x) - PI
  else if Rlt_dec 0 y then PI / 2
  else if Rlt_dec y 0 then - (PI / 2)
  else 0.

Definition to_int16 (x : R) : option Z :=
  let z := if Rle_dec 0 x then Zfloor x else (- Zfloor (- x))%Z in
  if decide (-32768 <= z <= 32767)%Z then Some z else None.

Definition arith : CArith := {|
  float := R;
  double := R;
  f_of_u8 := IZR;
  d_of_int := IZR;
  d_of_f x := x;
  f_of_d x := x;
  f_lit := Q2R;
  d_lit := Q2R;
  f_add := Rplus;
  f_sub := Rminus;
  f_mul := Rmult;
  f_neg := Ropp;
  f_gt x y := ltb y x;
  f_lt := ltb;
  d_add := Rplus;
  d_sub := Rminus;
  d_mul := Rmult;
  d_div := Rdiv;
  d_neg := Ropp;
  d_gt x y := ltb y x;
  d_lt := ltb;
  M_PI := PI;
  atan2 := atan2_R;
  exp := Rtrigo_def.exp;
  i16_of_f := to_int16
|}.
End Exact.

(** ** Rounding, as arithmetic on integers

    What [SpecFloat] computes by shifting a mantissa bit by bit is restated
    here on integers, to reason about it: [rne] is the division by a power
    of two rounded to nearest, ties to even; [round_aux_Z] is the mantissa
    and exponent [binary_round_aux] arrives at; [val m e] is the magnitude
    [m * 2^e] counted in units of [2^-1200], below every binary64 number. *)

Module Rounding.
Import IEEE.

Definition rne (m n : Z) : Z :=
  let q := m / 2 ^ n in
  match 2 * (m mod 2 ^ n) ?= 2 ^ n with
  | Lt => q
  | Gt => q + 1
  | Eq => if Z.even q then q else q + 1
  end.

Definition shr_info (k : Z) (rho : Z) (r s : bool) : Prop :=
  match r, s with
  | false, false => rho = 0
  | false, true => 0 < 2 * rho < 2 ^ k
  | true, false => 2 * rho = 2 ^ k
  | true, true => 2 * rho > 2 ^ k
  end.

Definition round_aux_Z (prec emax m e : Z) : Z * Z :=
  let e1 := fexp prec emax (Zdigits2 m + e) in
  let '(m1, e1') := if e <? e1 then (rne m (e1 - e), e1) else (m, e) in
  let e2 := fexp prec emax (Zdigits2 m1 + e1') in
  if e1' <? e2 then (m1 / 2 ^ (e2 - e1'), e2) else (m1, e1').

Definition of_round (prec emax : Z) (s : bool) (me : Z * Z) : spec_float :=
  match fst me with
  | Z0 => S754_zero s
  | Zpos p =>
      if snd me <=? emax - prec then S754_finite s p (snd me) else S754_infinity s
  | Zneg _ => S754_nan
  end.

Definition UNIT : Z := 1200.
Definition val (m e : Z) : Z := m * 2 ^ (e + UNIT).

Definition align_Z (prec emax m e : Z) : Z * Z :=
  let e' := fexp prec emax (Zdigits2 m + e) in
  if e' <? e then (m * 2 ^ (e - e'), e') else (m, e).

(** A zero, or a canonical finite number of magnitude at most [bound] units. *)
Definition small (prec emax : Z) (bound : Z) (x : spec_float) : Prop :=
  match x with
  | S754_zero _ => True
  | S754_finite _ m e => bounded prec emax m e = true /\ val (Zpos m) e <= bound
  | _ => False
  end.

(** The clamp of [convert_samples] followed by the cast. *)
Definition clamp_cast (res : spec_float) : option Z :=
  to_int16
    (if SFltb (S754_finite false 16776704 (-9)) res then S754_finite false 16776704 (-9)
     else if SFltb res (S754_finite true 8388608 (-8)) then S754_finite true 8388608 (-8)
     else res).

(** What the C library promises of [atan2]: a binary64 number in [-M_PI, M_PI]. *)
Definition atan2_result_ok (a : spec_float) : Prop :=
  valid_binary prec64 emax64 a = true /\ SFleb (SFabs a) pi64 = true.

(** [- M_PI < r && r <= M_PI], as the program would test it. *)
Definition in_pi_range (r : spec_float) : Prop :=
  SFltb (SFopp pi64) (to64 r) = true /\ SFleb (to64 r) pi64 = true.

(** [pi], [(float)pi], its predecessor and [2 pi], in units. *)
Definition Vpi : Z := val 7074237752028440 (-51).
Definition VP : Z := val 13176795 (-22).
Definition VPm : Z := val 13176794 (-22).
Definition V2P : Z := val 13176795 (-21).
Definition V2pi : Z := val 7074237752028440 (-50).

(** [2^k], in units. *)
Definition pow2u (k : Z) : Z := 2 ^ (k + UNIT).

(** The sign a number carries; [None] for NaN. *)
Definition sign_of (x : spec_float) : option bool :=
  match x with
  | S754_zero s | S754_infinity s | S754_finite s _ _ => Some s
  | S754_nan => None
  end.

(** The 16-bit values of one sign. *)
Definition signed_range (s : bool) (z : Z) : Prop :=
  if s then -32768 <= z <= 0 else 0 <= z <= 32767.

(** The same number, bit for bit. *)
Definition same_float (a b : spec_float) : bool :=
  match a, b with
  | S754_zero s, S754_zero s' | S754_infinity s, S754_infinity s' => Bool.eqb s s'
  | S754_nan, S754_nan => true
  | S754_finite s m e, S754_finite s' m' e' => Bool.eqb s s' && Pos.eqb m m' && Z.eqb e e'
  | _, _ => false
  end.

(** [convert_value v] is the binary32 number of value [v - 127.5], negative
    for [v < 128]. *)
Definition exact_byte (lm : libm) (v : Z) : bool :=
  match RefLibm.Q_of_float (@FMrec.convert_value (arith lm) v) with
  | Some q => Qeq_bool q (inject_Z v - (1275 # 10)) &&
              valid_binary prec32 emax32 (@FMrec.convert_value (arith lm) v) &&
              match @FMrec.convert_value (arith lm) v with
              | S754_finite s _ _ => Bool.eqb s (v <? 128)
              | _ => false
              end
  | None => false
  end.
End Rounding.

(** ** Concrete inputs *)

Module Inputs.
Import FMrec.

Definition zero32 : @float machine := S754_zero false.
Definition one32 : @float machine := f_lit 1.
Definition fifteen : @float machine := f_lit 15.

(** Two equal I/Q pairs, [(0.5, 0.5)] twice. *)
Definition two_pairs : list Z := [128; 128; 128; 128].

(** Two opposite I/Q pairs, [(0.5, 0.5)] then [(-0.5, -0.5)]. *)
Definition opposite_pairs : list Z := [128; 128; 127; 127].

(** 21 I/Q pairs: neither 42 nor 21 is a multiple of 20. *)
Definition buffer42 : list Z :=
  map (fun k => (37 * Z.of_nat k + 11) mod 256) (seq 0 42).

Definition fresh_state (n m : nat) : @state machine :=
  {| freq_samples := replicate n zero32;
     freq_samples_decimated := replicate m zero32;
     last_sample := zero32 |}.

(** 100 samples, sample [k] being the number [k]. *)
Definition ramp100 : list (@float machine) :=
  map (fun k => f_of_u8 (Z.of_nat k)) (seq 0 100).
End Inputs.

(** Worlds for [main]. *)
Module Worlds.
Import FMrec Driver Inputs.

(** A world where the frequency argument reads 100.5 and the duration
    [duration], with the given reads and outcomes of the two opens; the
    automatic arrays hold zeros. *)
Definition world_of (duration : Z) (rds : list (@sdr_read))
    (opened : bool) (open_result : Z) : @world machine := {|
  atof := fun _ => @d_lit machine (1005 # 10);
  atoi := fun _ => duration;
  rtlsdr_open_result := open_result;
  fopen_succeeds := opened;
  reads := rds;
  buffer_before := fun _ => 0;
  freq_samples_before := fun _ => zero32;
  freq_samples_decimated_before := fun _ => zero32
|}.

(** A read of the first 40 bytes of [buffer42] that reports [n] bytes,
    and one that fails. *)
Definition read40 (n : Z) : sdr_read :=
  {| result := 0; n_read := n; data := take 40 buffer42 |}.
Definition failed_read : sdr_read := {| result := -1; n_read := 0; data := [] |}.

(** The variables of the loop before its first turn, for a buffer of
    [size] bytes. *)
Definition locals_of (size : Z) : @locals machine := {|
  buffer := automatic (fun _ => 0) size;
  arrays := fresh_state (Z.to_nat (size ÷ 2)) (Z.to_nat (size ÷ 40));
  read_bytes := 0;
  bytes_count := 0;
  total_audio_bytes := 0
|}.
End Worlds.


(** * Properties *)

(** ** Arrays *)

Section ArrayFacts.
Context {T : Type}.
Implicit Types (a : list T) (i j : Z) (v : T).

Lemma load_in_range a i :
  0 <= i < Z.of_nat (length a) -> exists x, load a i = Some x.
Proof.
  intros H. unfold load. rewrite decide_True by lia.
  destruct (lookup_lt_is_Some_2 a (Z.to_nat i)) as [x Hx]; [lia | eauto].
Qed.

Lemma load_Some_range a i x :
  load a i = Some x -> 0 <= i < Z.of_nat (length a).
Proof.
  unfold load. destruct (decide (0 <= i)); [| discriminate].
  intros H. apply lookup_lt_Some in H. lia.
Qed.

Lemma store_in_range a i v :
  0 <= i < Z.of_nat (length a) -> exists a', store a i v = Some a'.
Proof. intros H. unfold store. rewrite decide_True by lia. eauto. Qed.

Lemma store_out_of_range a i v :
  ~ 0 <= i < Z.of_nat (length a) -> store a i v = None.
Proof. intros H. unfold store. now rewrite decide_False. Qed.

Lemma store_length a i v a' : store a i v = Some a' -> length a' = length a.
Proof.
  unfold store. destruct (decide _); [| discriminate].
  intros [= <-]. apply length_insert.
Qed.

Lemma load_store_eq a i v a' : store a i v = Some a' -> load a' i = Some v.
Proof.
  unfold store, load. destruct (decide _) as [Hi |]; [| discriminate].
  intros [= <-]. rewrite decide_True by lia.
  apply list_lookup_insert_eq. lia.
Qed.

Lemma load_store_ne a i v a' j :
  store a i v = Some a' -> j <> i -> load a' j = load a j.
Proof.
  unfold store, load. destruct (decide _) as [Hi |]; [| discriminate].
  intros [= <-] Hne. destruct (decide (0 <= j)); [| reflexivity].
  apply list_lookup_insert_ne. lia.
Qed.

Lemma load_malloc v n i :
  0 <= i < n -> load (malloc v n) i = Some v.
Proof.
  intros H. unfold load, malloc. rewrite decide_True by lia.
  apply lookup_replicate_2. lia.
Qed.

Lemma malloc_length v n : Z.of_nat (length (malloc v n)) = Z.max 0 n.
Proof. unfold malloc. rewrite length_replicate. lia. Qed.
End ArrayFacts.

(** ** Loops: reasoning with an invariant *)

Section LoopFacts.
Context {S : Type}.
Implicit Types (body : Z -> S -> option S) (P : Z -> S -> Prop).

Lemma for_iter_invariant P body step n : forall i s,
  P i s ->
  (forall k s, (exists j, (j < n)%nat /\ k = i + Z.of_nat j * step) -> P k s ->
     exists s', body k s = Some s' /\ P (k + step) s') ->
  exists s', for_iter n i step body s = Some s' /\ P (i + Z.of_nat n * step) s'.
Proof.
  induction n as [| n IH]; intros i s Hi Hstep; cbn [for_iter].
  - exists s. split; [reflexivity |].
    now replace (i + Z.of_nat 0 * step) with i by (simpl; lia).
  - destruct (Hstep i s) as (s1 & Hb & H1);
      [exists O; split; [lia | simpl; lia] | assumption |].
    rewrite Hb. simpl.
    destruct (IH (i + step) s1 H1) as (s2 & Hr & H2).
    + intros k s0 (j & Hj & ->) Hk. apply Hstep; [| assumption].
      exists (Datatypes.S j). split; lia.
    + exists s2. split; [assumption |].
      now replace (i + Z.of_nat (Datatypes.S n) * step)
        with (i + step + Z.of_nat n * step) by lia.
Qed.

(** [for (i = lo; i < hi; i++)] *)
Lemma for_loop_invariant P body lo hi s :
  lo <= hi -> P lo s ->
  (forall k s, lo <= k < hi -> P k s ->
     exists s', body k s = Some s' /\ P (k + 1) s') ->
  exists s', for_loop lo hi 1 body s = Some s' /\ P hi s'.
Proof.
  intros Hle H0 Hstep. unfold for_loop.
  replace ((hi - lo + 1 - 1) / 1) with (hi - lo) by (rewrite Z.div_1_r; lia).
  destruct (for_iter_invariant P body 1 (Z.to_nat (hi - lo)) lo s H0)
    as (s' & Hr & Hp).
  - intros k s0 (j & Hj & ->) Hk. apply Hstep; [lia | assumption].
  - exists s'. split; [assumption |].
    now replace hi with (lo + Z.of_nat (Z.to_nat (hi - lo)) * 1) by lia.
Qed.

(** [for (j = 0; j < 2 * n; j += 2)] *)
Lemma for_loop_pairs_invariant P body n s :
  0 <= n -> P 0 s ->
  (forall k s, 0 <= k < n -> P k s ->
     exists s', body (2 * k) s = Some s' /\ P (k + 1) s') ->
  exists s', for_loop 0 (2 * n) 2 body s = Some s' /\ P n s'.
Proof.
  intros Hn H0 Hstep. unfold for_loop.
  replace ((2 * n - 0 + 2 - 1) / 2) with n by (apply Z.div_unique with 1; lia).
  destruct (for_iter_invariant (fun j => P (j / 2)) body 2 (Z.to_nat n) 0 s)
    as (s' & Hr & Hp).
  - exact H0.
  - intros k s0 (j & Hj & ->) Hk. simpl.
    replace ((0 + Z.of_nat j * 2) / 2) with (Z.of_nat j) in Hk
      by (rewrite Z.add_0_l, Z.div_mul; lia).
    destruct (Hstep (Z.of_nat j) s0) as (s1 & Hb & H1); [lia | assumption |].
    exists s1. split.
    + now replace (0 + Z.of_nat j * 2) with (2 * Z.of_nat j) by lia.
    + now replace ((0 + Z.of_nat j * 2 + 2) / 2) with (Z.of_nat j + 1)
        by (apply Z.div_unique with 0; lia).
  - exists s'. split; [assumption |].
    now replace ((0 + Z.of_nat (Z.to_nat n) * 2) / 2) with n in Hp
      by (rewrite Z.add_0_l, Z.div_mul; lia).
Qed.

(** A loop whose last turn fails, fails. *)
Lemma for_iter_fails (Q : Z -> S -> Prop) body step n : forall i s,
  Q i s ->
  (forall k s, Q k s ->
     match body k s with Some s' => Q (k + step) s' | None => True end) ->
  (forall s, Q (i + Z.of_nat n * step) s -> body (i + Z.of_nat n * step) s = None) ->
  for_iter (Datatypes.S n) i step body s = None.
Proof.
  induction n as [| n IH]; intros i s Hi Hstep Hlast.
  - cbn [for_iter].
    replace (i + Z.of_nat 0 * step) with i in Hlast by (simpl; lia).
    now rewrite (Hlast s Hi).
  - change (for_iter (Datatypes.S (Datatypes.S n)) i step body s)
      with (body i s ≫= for_iter (Datatypes.S n) (i + step) step body).
    specialize (Hstep i s Hi) as Hb.
    destruct (body i s) as [s1 |]; [| reflexivity]. simpl.
    apply IH; [assumption | assumption |].
    intros s2 H2.
    replace (i + step + Z.of_nat n * step)
      with (i + Z.of_nat (Datatypes.S n) * step) in * by lia.
    apply Hlast. assumption.
Qed.

Lemma for_loop_empty body lo hi s : hi <= lo -> for_loop lo hi 1 body s = Some s.
Proof.
  intros H. unfold for_loop.
  replace (Z.to_nat ((hi - lo + 1 - 1) / 1)) with O by (rewrite Z.div_1_r; lia).
  reflexivity.
Qed.
End LoopFacts.

(** ** The stages, for any arithmetic *)

Section StageFacts.
Context {A : CArith}.
Import FMrec.

Lemma DECIMATION_FACTOR_eq : DECIMATION_FACTOR = 20.
Proof. reflexivity. Qed.

(** The loop of [get_freq_values] writes the cells [0 .. len - 2]. *)
Lemma get_freq_values_run (fs Is Qs : list float) (len : Z) :
  len <= Z.of_nat (length Is) -> len <= Z.of_nat (length Qs) ->
  len - 1 <= Z.of_nat (length fs) ->
  exists g, get_freq_values fs Is Qs len = Some g /\
    length g = length fs /\
    (forall i, 0 <= i < len - 1 ->
       exists i1 q1 i2 q2,
         load Is i = Some i1 /\ load Qs i = Some q1 /\
         load Is (i + 1) = Some i2 /\ load Qs (i + 1) = Some q2 /\
         load g i = Some (get_instant_freq i1 q1 i2 q2)) /\
    (forall i, len - 1 <= i -> load g i = load fs i).
Proof.
  intros HI HQ HF. unfold get_freq_values.
  destruct (Z_le_gt_dec (len - 1) 0) as [Hs | Hs].
  { rewrite for_loop_empty by lia. exists fs.
    split; [reflexivity |]. split; [reflexivity |].
    split; intros; [lia | reflexivity]. }
  set (P := fun (k : Z) (g : list float) =>
    length g = length fs /\
    (forall i, 0 <= i < k ->
       exists i1 q1 i2 q2,
         load Is i = Some i1 /\ load Qs i = Some q1 /\
         load Is (i + 1) = Some i2 /\ load Qs (i + 1) = Some q2 /\
         load g i = Some (get_instant_freq i1 q1 i2 q2)) /\
    (forall i, k <= i -> load g i = load fs i)).
  destruct (for_loop_invariant P
    (fun i freq_samples =>
       i1 ← load Is i; q1 ← load Qs i;
       i2 ← load Is (i + 1); q2 ← load Qs (i + 1);
       store freq_samples i (get_instant_freq i1 q1 i2 q2)) 0 (len - 1) fs)
    as (g & Hg & Hlen & Hw & Hu); [lia | | | ].
  - split; [reflexivity |]. split; intros; [lia | reflexivity].
  - intros k g Hk (Hlen & Hw & Hu).
    destruct (load_in_range Is k) as [i1 E1]; [lia |].
    destruct (load_in_range Qs k) as [q1 E2]; [lia |].
    destruct (load_in_range Is (k + 1)) as [i2 E3]; [lia |].
    destruct (load_in_range Qs (k + 1)) as [q2 E4]; [lia |].
    rewrite E1, E2, E3, E4. simpl.
    destruct (store_in_range g k (get_instant_freq i1 q1 i2 q2)) as [g' Hs'];
      [lia |].
    exists g'. split; [assumption |]. repeat split.
    + rewrite (store_length _ _ _ _ Hs'). assumption.
    + intros i Hi. destruct (Z.eq_dec i k) as [-> | Hne].
      * exists i1, q1, i2, q2. repeat split; try assumption.
        eapply load_store_eq; eassumption.
      * destruct (Hw i) as (a & b & c & d & ? & ? & ? & ? & ?); [lia |].
        exists a, b, c, d. repeat split; try assumption.
        rewrite (load_store_ne _ _ _ _ i Hs') by assumption. assumption.
    + intros i Hi. rewrite (load_store_ne _ _ _ _ i Hs') by lia. apply Hu. lia.
  - exists g. repeat split; assumption.
Qed.

(** The recurrence of [deemphasize_filter]. *)
Lemma deemphasize_filter_run (fs : list float) (last : float) (len : Z) :
  1 <= len <= Z.of_nat (length fs) ->
  exists d, deemphasize_filter fs last len = Some d /\
    length d = length fs /\
    (exists x0, load fs 0 = Some x0 /\
       load d 0 = Some (f_add (f_mul alpha x0) (f_mul (f_sub (f_lit 1) alpha) last))) /\
    (forall i, 1 <= i < len ->
       exists xi yp, load fs i = Some xi /\ load d (i - 1) = Some yp /\
         load d i = Some (f_add (f_mul alpha xi) (f_mul (f_sub (f_lit 1) alpha) yp))) /\
    (forall i, len <= i -> load d i = load fs i).
Proof.
  intros Hlen. unfold deemphasize_filter. cbv zeta.
  destruct (load_in_range fs 0) as [x0 E0]; [lia |].
  rewrite E0. simpl.
  set (y0 := f_add (f_mul alpha x0) (f_mul (f_sub (f_lit 1) alpha) last)).
  destruct (store_in_range fs 0 y0) as [d0 Hd0]; [lia |].
  rewrite Hd0. simpl.
  set (P := fun (k : Z) (d : list float) =>
    length d = length fs /\
    load d 0 = Some y0 /\
    (forall i, 1 <= i < k ->
       exists xi yp, load fs i = Some xi /\ load d (i - 1) = Some yp /\
         load d i = Some (f_add (f_mul alpha xi) (f_mul (f_sub (f_lit 1) alpha) yp))) /\
    (forall i, k <= i -> load d i = load fs i)).
  destruct (for_loop_invariant P
    (fun i freq_samples =>
       xi ← load freq_samples i; xp ← load freq_samples (i - 1);
       store freq_samples i
         (f_add (f_mul alpha xi) (f_mul (f_sub (f_lit 1) alpha) xp))) 1 len d0)
    as (d & Hd & Hl & H0 & Hw & Hu); [lia | | | ].
  - repeat split.
    + apply (store_length _ _ _ _ Hd0).
    + apply (load_store_eq _ _ _ _ Hd0).
    + intros; lia.
    + intros i Hi. apply (load_store_ne _ _ _ _ i Hd0). lia.
  - intros k d Hk (Hl & H0 & Hw & Hu).
    destruct (load_in_range d k) as [xi Ei]; [lia |].
    destruct (load_in_range d (k - 1)) as [yp Ep]; [lia |].
    rewrite Ei, Ep. simpl.
    set (y := f_add (f_mul alpha xi) (f_mul (f_sub (f_lit 1) alpha) yp)).
    destruct (store_in_range d k y) as [d' Hd']; [lia |].
    exists d'. split; [assumption |]. repeat split.
    + rewrite (store_length _ _ _ _ Hd'). assumption.
    + rewrite (load_store_ne _ _ _ _ 0 Hd') by lia. assumption.
    + intros i Hi. destruct (Z.eq_dec i k) as [-> | Hne].
      * exists xi, yp. repeat split.
        -- rewrite <- Hu by lia. assumption.
        -- rewrite (load_store_ne _ _ _ _ (k - 1) Hd') by lia. assumption.
        -- apply (load_store_eq _ _ _ _ Hd').
      * destruct (Hw i) as (a & b & ? & ? & ?); [lia |].
        exists a, b. repeat split; [assumption | |].
        -- rewrite (load_store_ne _ _ _ _ (i - 1) Hd') by lia. assumption.
        -- rewrite (load_store_ne _ _ _ _ i Hd') by lia. assumption.
    + intros i Hi. rewrite (load_store_ne _ _ _ _ i Hd') by lia. apply Hu. lia.
  - exists d. split; [assumption |]. split; [assumption |].
    split; [exists x0; split; [reflexivity | exact H0] |]. split; assumption.
Qed.

(** Run the loop in the goal under the invariant [P]. *)
Ltac run_loop P s' Hs' HP :=
  match goal with
  | |- context [for_loop ?lo ?hi 1 ?body ?s] =>
      destruct (for_loop_invariant P body lo hi s) as (s' & Hs' & HP)
  end.

(** The recurrence of [dc_block_filter]. *)
Lemma dc_block_filter_run (buf : list float) (len : Z) :
  1 <= len <= Z.of_nat (length buf) ->
  exists out, dc_block_filter buf len = Some out /\
    length out = length buf /\
    load out 0 = load buf 0 /\
    (forall i, 1 <= i < len ->
       exists xi xl yp, load buf i = Some xi /\ load buf (i - 1) = Some xl /\
         load out (i - 1) = Some yp /\
         load out i = Some (f_add (f_sub xi xl) (f_mul R_pole yp))) /\
    (forall i, len <= i -> load out i = load buf i).
Proof.
  intros Hlen. unfold dc_block_filter. cbv zeta.
  destruct (load_in_range buf 0) as [x0 E0]; [lia |].
  rewrite E0. simpl.
  set (P := fun (k : Z) (st : float * float * list float) =>
    let '(last, _, b) := st in
    length b = length buf /\
    load buf (k - 1) = Some last /\
    load b 0 = load buf 0 /\
    (forall i, 1 <= i < k ->
       exists xi xl yp, load buf i = Some xi /\ load buf (i - 1) = Some xl /\
         load b (i - 1) = Some yp /\
         load b i = Some (f_add (f_sub xi xl) (f_mul R_pole yp))) /\
    (forall i, k <= i -> load b i = load buf i)).
  run_loop P st Hst HP; [lia | | | ].
  - split; [reflexivity |]. split; [assumption |]. split; [reflexivity |].
    split; intros; [lia | reflexivity].
  - intros k [[last tmp] b] Hk (Hl & Hlast & H0 & Hw & Hu).
    destruct (load_in_range b k) as [xi Ei]; [lia |].
    destruct (load_in_range b (k - 1)) as [yp Ep]; [lia |].
    rewrite Ei, Ep. simpl.
    set (y := f_add (f_sub xi last) (f_mul R_pole yp)).
    destruct (store_in_range b k y) as [b' Hb']; [lia |].
    rewrite Hb'. simpl. eexists. split; [reflexivity |].
    assert (Exi : load buf k = Some xi) by (rewrite <- Hu by lia; assumption).
    split; [| split; [| split; [| split]]].
    + rewrite (store_length _ _ _ _ Hb'). assumption.
    + now replace (k + 1 - 1) with k by lia.
    + rewrite (load_store_ne _ _ _ _ 0 Hb') by lia. assumption.
    + intros i Hi. destruct (Z.eq_dec i k) as [-> | Hne].
      * exists xi, last, yp. split; [assumption |]. split; [assumption |]. split.
        -- rewrite (load_store_ne _ _ _ _ (k - 1) Hb') by lia. assumption.
        -- apply (load_store_eq _ _ _ _ Hb').
      * destruct (Hw i) as (a & c & e & ? & ? & ? & ?); [lia |].
        exists a, c, e. split; [assumption |]. split; [assumption |]. split.
        -- rewrite (load_store_ne _ _ _ _ (i - 1) Hb') by lia. assumption.
        -- rewrite (load_store_ne _ _ _ _ i Hb') by lia. assumption.
    + intros i Hi. rewrite (load_store_ne _ _ _ _ i Hb') by lia. apply Hu. lia.
  - destruct st as [[last tmp] out]. destruct HP as (Hl & _ & H0 & Hw & Hu).
    rewrite Hst. simpl. exists out.
    split; [reflexivity |]. split; [assumption |]. split; [congruence |].
    split; assumption.
Qed.

(** The loop of [decimate]. *)
Lemma decimate_run (dec fs : list float) (len : Z) :
  0 <= len <= Z.of_nat (length fs) ->
  len ÷ 20 <= Z.of_nat (length dec) ->
  exists dec', decimate dec fs len = Some (dec', len ÷ 20) /\
    length dec' = length dec /\
    (forall k, 0 <= k < len ÷ 20 ->
       exists x, load fs (k * 20) = Some x /\ load dec' k = Some x) /\
    (forall k, len ÷ 20 <= k -> load dec' k = load dec k).
Proof.
  intros Hlen Hdec. unfold decimate.
  change DECIMATION_FACTOR with 20.
  assert (Hq : 0 <= len ÷ 20 /\ 20 * (len ÷ 20) <= len).
  { split; [apply Z.quot_pos; lia | apply Z.mul_quot_le; lia]. }
  set (P := fun (k : Z) (st : Z * list float) =>
    let '(j, d) := st in
    j = k * 20 /\ length d = length dec /\
    (forall m, 0 <= m < k ->
       exists x, load fs (m * 20) = Some x /\ load d m = Some x) /\
    (forall m, k <= m -> load d m = load dec m)).
  run_loop P st Hst HP; [lia | | | ].
  - split; [reflexivity |]. split; [reflexivity |].
    split; intros; [lia | reflexivity].
  - intros k [j d] Hk (-> & Hl & Hw & Hu).
    destruct (load_in_range fs (k * 20)) as [x Ex]; [lia |].
    rewrite Ex. simpl.
    destruct (store_in_range d k x) as [d' Hd']; [lia |].
    rewrite Hd'. simpl. eexists. split; [reflexivity |].
    split; [lia |]. split; [| split].
    + rewrite (store_length _ _ _ _ Hd'). assumption.
    + intros m Hm. destruct (Z.eq_dec m k) as [-> | Hne].
      * exists x. split; [assumption | apply (load_store_eq _ _ _ _ Hd')].
      * destruct (Hw m) as (y & ? & ?); [lia |].
        exists y. split; [assumption |].
        rewrite (load_store_ne _ _ _ _ m Hd') by lia. assumption.
    + intros m Hm. rewrite (load_store_ne _ _ _ _ m Hd') by lia. apply Hu. lia.
  - destruct st as [j dec']. destruct HP as (_ & Hl & Hw & Hu).
    rewrite Hst. simpl. exists dec'.
    split; [reflexivity |]. split; [assumption |]. split; assumption.
Qed.

(** [demodulate] on [n] I/Q pairs: the de-interleaved samples and the
    three stages it chains, each running to completion. *)
Lemma demodulate_run (fs : list float) (last : float) (buffer : list Z) (n : Z) :
  1 <= n -> 2 * n <= Z.of_nat (length buffer) -> n <= Z.of_nat (length fs) ->
  exists Is Qs g d out r,
    Z.of_nat (length Is) = n /\ Z.of_nat (length Qs) = n /\
    (forall m, 0 <= m < n ->
       exists bi bq, load buffer (2 * m) = Some bi /\
         load buffer (2 * m + 1) = Some bq /\
         load Is m = Some (convert_value bi) /\
         load Qs m = Some (convert_value bq)) /\
    get_freq_values fs Is Qs n = Some g /\
    deemphasize_filter g last n = Some d /\
    dc_block_filter d n = Some out /\
    load out (n - 1) = Some r /\
    demodulate fs last buffer (2 * n) = Some (out, r).
Proof.
  intros Hn Hbuf Hfs. unfold demodulate.
  replace (2 * n ÷ 2) with n by (rewrite Z.mul_comm, Z.quot_mul; lia).
  set (P := fun (k : Z) (st : Z * list float * list float) =>
    let '(i, Is, Qs) := st in
    i = k /\ Z.of_nat (length Is) = n /\ Z.of_nat (length Qs) = n /\
    (forall m, 0 <= m < k ->
       exists bi bq, load buffer (2 * m) = Some bi /\
         load buffer (2 * m + 1) = Some bq /\
         load Is m = Some (convert_value bi) /\
         load Qs m = Some (convert_value bq))).
  match goal with
  | |- context [for_loop 0 (2 * n) 2 ?body ?s] =>
      destruct (for_loop_pairs_invariant P body n s) as (st & Hst & HP)
  end; [lia | | | ].
  - split; [reflexivity |]. rewrite !malloc_length.
    split; [lia |]. split; [lia |]. intros; lia.
  - intros k [[i Is] Qs] Hk (-> & HlI & HlQ & Hw).
    destruct (load_in_range buffer (2 * k)) as [bi Ei]; [lia |].
    destruct (load_in_range buffer (2 * k + 1)) as [bq Eq]; [lia |].
    rewrite Ei. simpl.
    destruct (store_in_range Is k (convert_value bi)) as [Is' HI]; [lia |].
    rewrite HI. simpl. rewrite Eq. simpl.
    destruct (store_in_range Qs k (convert_value bq)) as [Qs' HQ]; [lia |].
    rewrite HQ. simpl. eexists. split; [reflexivity |].
    split; [reflexivity |].
    rewrite (store_length _ _ _ _ HI), (store_length _ _ _ _ HQ).
    split; [assumption |]. split; [assumption |].
    intros m Hm. destruct (Z.eq_dec m k) as [-> | Hne].
    + exists bi, bq. split; [assumption |]. split; [assumption |].
      split; [apply (load_store_eq _ _ _ _ HI) | apply (load_store_eq _ _ _ _ HQ)].
    + destruct (Hw m) as (a & b & ? & ? & ? & ?); [lia |].
      exists a, b. split; [assumption |]. split; [assumption |].
      rewrite (load_store_ne _ _ _ _ m HI), (load_store_ne _ _ _ _ m HQ) by lia.
      split; assumption.
  - destruct st as [[i Is] Qs]. destruct HP as (_ & HlI & HlQ & Hw).
    rewrite Hst. simpl.
    destruct (get_freq_values_run fs Is Qs n) as (g & Hg & Hgl & _); [lia.. |].
    destruct (deemphasize_filter_run g last n) as (d & Hd & Hdl & _); [lia |].
    destruct (dc_block_filter_run d n) as (out & Ho & Hol & _); [lia |].
    destruct (load_in_range out (n - 1)) as [r Hr]; [lia |].
    exists Is, Qs, g, d, out, r.
    rewrite Hg. simpl. rewrite Hd. simpl. rewrite Ho. simpl. rewrite Hr. simpl.
    repeat (split; [assumption || reflexivity |]). reflexivity.
Qed.
End StageFacts.

(** ** The claims that hold for any arithmetic *)

Section StageClaims.
Context {A : CArith}.
Import FMrec.

(** C3. For a buffer of [2n] raw bytes ([n] I/Q pairs) the discriminator
    stage of [demodulate] writes exactly the [n - 1] cells [0 .. n - 2] of
    the frequency array and leaves the others as they were; cell [i] holds
    the difference of [atan2 (Q[i+1], I[i+1])] and [atan2 (Q[i], I[i])],
    less [2 * M_PI] when it is above [M_PI], plus [2 * M_PI] when it is
    below [- M_PI], and unchanged otherwise, where [I[i]] and [Q[i]] are
    bytes [2i] and [2i + 1] centred by [convert_value]. *)
Theorem discriminator_samples (fs : list float) (last : float)
    (buffer : list Z) (n : Z) :
  1 <= n -> Z.of_nat (length buffer) = 2 * n -> n <= Z.of_nat (length fs) ->
  exists Is Qs g,
    (forall m, 0 <= m < n ->
       exists bi bq, load buffer (2 * m) = Some bi /\
         load buffer (2 * m + 1) = Some bq /\
         load Is m = Some (convert_value bi) /\
         load Qs m = Some (convert_value bq)) /\
    get_freq_values fs Is Qs n = Some g /\
    (exists out r, demodulate fs last buffer (2 * n) = Some (out, r) /\
       (deemphasize_filter g last n ≫= fun d => dc_block_filter d n) = Some out) /\
    length g = length fs /\
    (forall i, 0 <= i < n - 1 ->
       exists i1 q1 i2 q2,
         load Is i = Some i1 /\ load Qs i = Some q1 /\
         load Is (i + 1) = Some i2 /\ load Qs (i + 1) = Some q2 /\
         let phase1 := f_of_d (atan2 (d_of_f q1) (d_of_f i1)) in
         let phase2 := f_of_d (atan2 (d_of_f q2) (d_of_f i2)) in
         let delta := f_sub phase2 phase1 in
         load g i = Some
           (if d_gt (d_of_f delta) M_PI
            then f_of_d (d_sub (d_of_f delta) (d_mul (d_of_int 2) M_PI))
            else if d_lt (d_of_f delta) (d_neg M_PI)
            then f_of_d (d_add (d_of_f delta) (d_mul (d_of_int 2) M_PI))
            else delta)) /\
    (forall i, n - 1 <= i -> load g i = load fs i).
Proof.
  intros Hn Hbuf Hfs.
  destruct (demodulate_run fs last buffer n)
    as (Is & Qs & g & d & out & r & HlI & HlQ & Hsplit & Hg & Hd & Ho & Hr & Hdem);
    [lia.. |].
  destruct (get_freq_values_run fs Is Qs n) as (g' & Hg' & Hgl & Hw & Hu); [lia.. |].
  assert (g' = g) as -> by congruence.
  exists Is, Qs, g. split; [assumption |]. split; [assumption |]. split.
  { exists out, r. split; [assumption |]. rewrite Hd. simpl. assumption. }
  split; [assumption |]. split; [| assumption].
  intros i Hi. destruct (Hw i Hi) as (i1 & q1 & i2 & q2 & ? & ? & ? & ? & Hgi).
  exists i1, q1, i2, q2. repeat (split; [assumption |]). exact Hgi.
Qed.

(** C4. On a non-empty sequence, with [1 <= len] samples to filter, the
    de-emphasis filter computes in place
    [out[0] = alpha * in[0] + (1 - alpha) * last_sample] and
    [out[i] = alpha * in[i] + (1 - alpha) * out[i-1]] for [1 <= i < len],
    the cells from [len] on being untouched, with
    [alpha = 1 - exp (- (1 / (tau * sample_rate)))], [tau = 0.00005] and
    [sample_rate = 960000], the capture rate. *)
Theorem deemphasize_filter_recurrence (fs : list float) (last : float) (len : Z) :
  1 <= len <= Z.of_nat (length fs) ->
  alpha = f_of_d (d_sub (d_lit 1)
    (exp (d_neg (d_div (d_lit 1) (d_mul (d_lit (5 # 100000)) (d_of_int 960000)))))) /\
  SAMPLE_RATE = 960000 /\
  exists out, deemphasize_filter fs last len = Some out /\
    length out = length fs /\
    (forall x0, load fs 0 = Some x0 ->
       load out 0 = Some (f_add (f_mul alpha x0) (f_mul (f_sub (f_lit 1) alpha) last))) /\
    (forall i xi yp, 1 <= i < len ->
       load fs i = Some xi -> load out (i - 1) = Some yp ->
       load out i = Some (f_add (f_mul alpha xi) (f_mul (f_sub (f_lit 1) alpha) yp))) /\
    (forall i, len <= i -> load out i = load fs i).
Proof.
  intros Hlen. split; [reflexivity |]. split; [reflexivity |].
  destruct (deemphasize_filter_run fs last len Hlen)
    as (d & Hd & Hl & (x0 & E0 & H0) & Hw & Hu).
  exists d. split; [assumption |]. split; [assumption |]. split; [| split].
  - intros x E. assert (x = x0) as -> by congruence. assumption.
  - intros i xi yp Hi Ei Ep.
    destruct (Hw i Hi) as (a & b & Ea & Eb & E). congruence.
  - assumption.
Qed.

(** C5. On a non-empty sequence, with [1 <= len] samples to filter, the
    DC-block filter leaves [out[0] = in[0]] and computes
    [out[i] = in[i] - in[i-1] + R * out[i-1]] for [1 <= i < len], where
    [in[i-1]] is the unfiltered previous input and [R = 0.99]; the result
    is a function of the buffer alone: the filter's [last] starts from the
    buffer's first sample at every call and nothing is carried from one
    buffer to the next. *)
Theorem dc_block_filter_recurrence (buf : list float) (len : Z) :
  1 <= len <= Z.of_nat (length buf) ->
  R_pole = f_of_d (d_lit (99 # 100)) /\
  exists out, dc_block_filter buf len = Some out /\
    length out = length buf /\
    load out 0 = load buf 0 /\
    (forall i xi last_in yp, 1 <= i < len ->
       load buf i = Some xi -> load buf (i - 1) = Some last_in ->
       load out (i - 1) = Some yp ->
       load out i = Some (f_add (f_sub xi last_in) (f_mul R_pole yp))) /\
    (forall i, len <= i -> load out i = load buf i).
Proof.
  intros Hlen. split; [reflexivity |].
  destruct (dc_block_filter_run buf len Hlen) as (out & Ho & Hl & H0 & Hw & Hu).
  exists out. split; [assumption |]. split; [assumption |].
  split; [assumption |]. split; [| assumption].
  intros i xi xl yp Hi Ei El Ep.
  destruct (Hw i Hi) as (a & b & c & Ea & Eb & Ec & E). congruence.
Qed.

(** C6. The decimation factor is [capture rate / audio rate = 20]; on an
    input of [len] samples the decimator writes exactly [floor (len / 20)]
    outputs, output [k] being input [20 * k], returns that count, and
    never reads the trailing [len mod 20] inputs. *)
Theorem decimate_every_20th (dec fs : list float) (len : Z) :
  0 <= len <= Z.of_nat (length fs) ->
  len / 20 <= Z.of_nat (length dec) ->
  DECIMATION_FACTOR = SAMPLE_RATE / AUDIO_RATE /\ DECIMATION_FACTOR = 20 /\
  exists dec', decimate dec fs len = Some (dec', len / 20) /\
    length dec' = length dec /\
    (forall k, 0 <= k < len / 20 -> load dec' k = load fs (k * 20)) /\
    (forall k, 0 <= k < len / 20 -> k * 20 < len - len mod 20) /\
    (forall k, len / 20 <= k -> load dec' k = load dec k).
Proof.
  intros Hlen Hdec. split; [reflexivity |]. split; [reflexivity |].
  assert (Hq : len ÷ 20 = len / 20) by (apply Z.quot_div_nonneg; lia).
  destruct (decimate_run dec fs len) as (dec' & Hd & Hl & Hw & Hu); [lia.. |].
  rewrite Hq in *.
  exists dec'. split; [assumption |]. split; [assumption |].
  split; [| split; [| assumption]].
  - intros k Hk. destruct (Hw k Hk) as (x & E1 & E2). congruence.
  - intros k Hk. pose proof (Z.div_mod len 20). lia.
Qed.
End StageClaims.

Section DriverClaims.
Context {A : CArith}.
Import FMrec.

Local Abbreviation ema x y :=
  (f_add (f_mul alpha x) (f_mul (f_sub (f_lit 1) alpha) y)).

(** C2. For a buffer of [2n] raw bytes, [get_freq_values] leaves every
    cell from [n - 1] on as it found it, while the two filters run over
    [n] cells and [demodulate] returns cell [n - 1]: the last de-emphasised
    sample is [alpha * stale + (1 - alpha) * prev], where [stale] is what
    the frequency array held at [n - 1] before the call (not a sample the
    discriminator produced) and [prev] the filter's previous output, and
    the returned carry is that sample passed through the DC block. *)
Theorem demodulate_carry_from_unwritten_cell (fs : list float) (last : float)
    (buffer : list Z) (n : Z) (stale : float) :
  1 <= n -> Z.of_nat (length buffer) = 2 * n -> n <= Z.of_nat (length fs) ->
  load fs (n - 1) = Some stale ->
  exists Is Qs g d out r prev,
    get_freq_values fs Is Qs n = Some g /\
    deemphasize_filter g last n = Some d /\
    dc_block_filter d n = Some out /\
    demodulate fs last buffer (2 * n) = Some (out, r) /\
    (forall i, n - 1 <= i -> load g i = load fs i) /\
    load g (n - 1) = Some stale /\
    (n = 1 /\ prev = last \/ 2 <= n /\ load d (n - 2) = Some prev) /\
    load d (n - 1) = Some (ema stale prev) /\
    load out (n - 1) = Some r /\
    (n = 1 /\ r = ema stale prev \/
     2 <= n /\ exists yp, load out (n - 2) = Some yp /\
       r = f_add (f_sub (ema stale prev) prev) (f_mul R_pole yp)).
Proof.
  intros Hn Hbuf Hfs Hstale.
  destruct (demodulate_run fs last buffer n)
    as (Is & Qs & g & d & out & r & HlI & HlQ & _ & Hg & Hd & Ho & Hr & Hdem);
    [lia.. |].
  destruct (get_freq_values_run fs Is Qs n) as (g' & Hg' & Hgl & _ & Hgu); [lia.. |].
  assert (g' = g) as -> by congruence.
  destruct (deemphasize_filter_run g last n)
    as (d' & Hd' & Hdl & (x0 & E0 & H0) & Hdw & _); [lia |].
  assert (d' = d) as -> by congruence.
  destruct (dc_block_filter_run d n) as (o' & Ho' & Hol & Ho0 & How & _); [lia |].
  assert (o' = out) as -> by congruence.
  assert (Hgs : load g (n - 1) = Some stale) by (rewrite Hgu by lia; assumption).
  destruct (Z.eq_dec n 1) as [-> | Hne].
  - change (1 - 1) with 0 in *.
    assert (x0 = stale) as -> by congruence.
    exists Is, Qs, g, d, out, r, last.
    repeat (split; [assumption |]).
    split; [left; split; reflexivity |]. split; [exact H0 |].
    split; [assumption |]. left. split; [reflexivity |].
    congruence.
  - destruct (Hdw (n - 1)) as (xi & prev & Exi & Eprev & Ed); [lia |].
    assert (xi = stale) as -> by congruence.
    replace (n - 1 - 1) with (n - 2) in * by lia.
    destruct (How (n - 1)) as (yi & yl & yp & Eyi & Eyl & Eyp & Eo); [lia |].
    replace (n - 1 - 1) with (n - 2) in * by lia.
    exists Is, Qs, g, d, out, r, prev.
    repeat (split; [assumption |]).
    split; [right; split; [lia | assumption] |]. split; [assumption |].
    split; [assumption |]. right. split; [lia |].
    exists yp. split; [assumption |]. congruence.
Qed.

(** C10, as the code has it. No length is checked anywhere: every buffer
    of [2n >= 2] bytes is demodulated and decimated, whatever [n mod 20]
    is; [floor (n / 20)] samples come out, taken at the multiples of 20,
    and the [n mod 20] trailing ones are dropped without notice.  The
    buffer of [main] itself holds 131072 pairs, 12 more than a multiple
    of 20. *)
Theorem lengths_are_not_checked (fs dec : list float) (last : float)
    (buffer : list Z) (n : Z) :
  1 <= n -> Z.of_nat (length buffer) = 2 * n -> n <= Z.of_nat (length fs) ->
  n / 20 <= Z.of_nat (length dec) ->
  (BUFFER_SIZE ÷ 2) mod DECIMATION_FACTOR = 12 /\
  exists out r dec',
    demodulate fs last buffer (2 * n) = Some (out, r) /\
    decimate dec out (2 * n ÷ 2) = Some (dec', n / 20) /\
    (forall k, 0 <= k < n / 20 -> load dec' k = load out (k * 20)) /\
    20 * (n / 20) = n - n mod 20.
Proof.
  intros Hn Hbuf Hfs Hdec. split; [reflexivity |].
  destruct (demodulate_run fs last buffer n)
    as (Is & Qs & g & d & out & r & HlI & HlQ & _ & Hg & Hd & Ho & Hr & Hdem);
    [lia.. |].
  destruct (get_freq_values_run fs Is Qs n) as (g' & Hg' & Hgl & _); [lia.. |].
  assert (g' = g) as -> by congruence.
  destruct (deemphasize_filter_run g last n) as (d' & Hd' & Hdl & _); [lia |].
  assert (d' = d) as -> by congruence.
  destruct (dc_block_filter_run d n) as (o' & Ho' & Hol & _); [lia |].
  assert (o' = out) as -> by congruence.
  assert (Hq : n ÷ 20 = n / 20) by (apply Z.quot_div_nonneg; lia).
  destruct (decimate_run dec out n) as (dec' & Hdc & _ & Hw & _);
    [lia | rewrite Hq; lia |].
  rewrite Hq in *.
  exists out, r, dec'. split; [assumption |].
  replace (2 * n ÷ 2) with n by (rewrite Z.mul_comm, Z.quot_mul; lia).
  split; [assumption |]. split.
  - intros k Hk. destruct (Hw k Hk) as (x & E1 & E2). congruence.
  - pose proof (Z.div_mod n 20). lia.
Qed.

(** An odd length is not rejected either: the de-interleaving loop of
    [demodulate] runs and, at its last turn if not before, leaves the
    buffer or the [len / 2] cells allocated for the I samples. *)
Lemma demodulate_odd_length_out_of_bounds (fs : list float) (last : float)
    (buffer : list Z) (k : Z) :
  0 <= k -> demodulate fs last buffer (2 * k + 1) = None.
Proof.
  intros Hk. unfold demodulate.
  replace ((2 * k + 1) ÷ 2) with k
    by (rewrite Z.quot_div_nonneg by lia; apply Z.div_unique with 1; lia).
  unfold for_loop.
  replace (Z.to_nat ((2 * k + 1 - 0 + 2 - 1) / 2)) with (Datatypes.S (Z.to_nat k)).
  2:{ replace ((2 * k + 1 - 0 + 2 - 1) / 2) with (k + 1)
        by (apply Z.div_unique with 0; lia). lia. }
  rewrite (for_iter_fails
    (fun j (st : Z * list float * list float) =>
       let '(i, Is, _) := st in j = 2 * i /\ 0 <= i /\ Z.of_nat (length Is) = k)).
  - reflexivity.
  - rewrite malloc_length. lia.
  - intros j [[i Is] Qs] (-> & Hi & Hl).
    destruct (load buffer (2 * i)) as [bi |]; [| exact I]. simpl.
    destruct (store Is i (convert_value bi)) as [Is' |] eqn:EI; [| exact I]. simpl.
    destruct (load buffer (2 * i + 1)) as [bq |]; [| exact I]. simpl.
    destruct (store Qs i (convert_value bq)) as [Qs' |]; [| exact I]. simpl.
    rewrite (store_length _ _ _ _ EI). lia.
  - intros [[i Is] Qs] (Hj & Hi & Hl).
    assert (i = k) as -> by lia.
    replace (0 + Z.of_nat (Z.to_nat k) * 2) with (2 * k) by lia.
    destruct (load buffer (2 * k)) as [bi |]; [| reflexivity]. simpl.
    rewrite store_out_of_range by lia. reflexivity.
Qed.
End DriverClaims.

(** ** The program run on concrete buffers *)

Section Runs.
Import FMrec Inputs.

(** C1. On the two equal pairs [(0.5, 0.5)], with the frequency array at 0
    and a carry of 1, the de-emphasis stage ends on
    [16092528 * 2^-24 = 0.95919] while [demodulate] returns
    [15928215 * 2^-24 = 0.94939], the last cell after the DC block: the
    returned carry is not the final output of the de-emphasis stage. *)
Theorem demodulate_returns_dc_blocked_cell :
  exists Is Qs g d out r,
    get_freq_values [zero32; zero32] Is Qs 2 = Some g /\
    deemphasize_filter g one32 2 = Some d /\
    dc_block_filter d 2 = Some out /\
    demodulate [zero32; zero32] one32 two_pairs 4 = Some (out, r) /\
    load d 1 = Some (S754_finite false 16092528 (-24)) /\
    r = S754_finite false 15928215 (-24) /\
    load d 1 <> Some r.
Proof.
  exists [convert_value 128; convert_value 128], [convert_value 128; convert_value 128].
  exists [zero32; zero32].
  exists [S754_finite false 16431306 (-24); S754_finite false 16092528 (-24)].
  exists [S754_finite false 16431306 (-24); S754_finite false 15928215 (-24)].
  exists (S754_finite false 15928215 (-24)).
  split; [vm_compute; reflexivity |]. split; [vm_compute; reflexivity |].
  split; [vm_compute; reflexivity |]. split; [vm_compute; reflexivity |].
  split; [vm_compute; reflexivity |]. split; [reflexivity |].
  vm_compute. discriminate.
Qed.

(** The returned carry depends on what the frequency array held at the
    cell the discriminator does not write: same buffer, same carry, two
    contents of cell 1, two results. *)
Example carry_depends_on_stale_cell :
  snd <$> demodulate [zero32; zero32] one32 two_pairs 4 =
    Some (S754_finite false 15928215 (-24)) /\
  snd <$> demodulate [zero32; fifteen] one32 two_pairs 4 =
    Some (S754_finite false 10558430 (-23)).
Proof. split; vm_compute; reflexivity. Qed.

(** C9. In binary32 the constant 15 is not a fixed point: with a carry of
    15, three samples equal to 15 come out as 14.999999, 14.999998 and
    14.999997, one unit in the last place lower at each step. *)
Lemma constant_15_drifts :
  fifteen = S754_finite false 15728640 (-20) /\
  @deemphasize_filter machine (replicate 3 fifteen) fifteen 3 =
    Some [S754_finite false 15728639 (-20); S754_finite false 15728638 (-20);
          S754_finite false 15728637 (-20)] /\
  @deemphasize_filter machine (replicate 3 fifteen) fifteen 3 <>
    Some (replicate 3 fifteen).
Proof.
  split; [vm_compute; reflexivity |].
  split; [vm_compute; reflexivity |]. vm_compute. discriminate.
Qed.

(** C10. A buffer of 42 bytes (21 pairs; neither number is a multiple of
    20) is not rejected: it goes through the whole pipeline, which emits one
    PCM sample and drops the last sample. *)
Lemma malformed_length_is_processed :
  42 mod DECIMATION_FACTOR <> 0 /\ (42 ÷ 2) mod DECIMATION_FACTOR <> 0 /\
  snd <$> process_buffer (fresh_state 21 1) buffer42 42 = Some [-317].
Proof.
  split; [vm_compute; discriminate |]. split; [vm_compute; discriminate |].
  vm_compute. reflexivity.
Qed.
End Runs.

(** ** Exact arithmetic *)

Section ExactFacts.
Import FMrec.
Local Open Scope R_scope.

Lemma load_ext {T} (a b : list T) : (forall i, load a i = load b i) -> a = b.
Proof.
  intros H. apply list_eq. intros i. specialize (H (Z.of_nat i)).
  unfold load in H. rewrite !decide_True, !Nat2Z.id in H by lia. exact H.
Qed.

Lemma load_replicate {T} (v : T) (k : nat) (i : Z) :
  (0 <= i < Z.of_nat k)%Z -> load (replicate k v) i = Some v.
Proof.
  intros H. unfold load. rewrite decide_True by lia.
  apply lookup_replicate_2. lia.
Qed.

Lemma ema_fixed_point (v : @float Exact.arith) :
  @f_add Exact.arith (@f_mul Exact.arith (@alpha Exact.arith) v)
    (@f_mul Exact.arith (@f_sub Exact.arith (f_lit 1) (@alpha Exact.arith)) v) = v.
Proof. simpl. unfold Q2R. simpl. field. Qed.

(** C9, in exact arithmetic. A constant value [v] is a fixed point of the
    de-emphasis filter: on a sequence of [k] samples all equal to [v], with
    the carry [v], filtering any [1 <= len <= k] of them returns the same
    sequence, every output being [v]; so does applying the filter again. *)
Theorem constant_is_fixed_point_exact (v : R) (k : nat) (len : Z) :
  (1 <= len <= Z.of_nat k)%Z ->
  @deemphasize_filter Exact.arith (replicate k v) v len = Some (replicate k v).
Proof.
  intros Hlen.
  destruct (@deemphasize_filter_run Exact.arith (replicate k v) v len)
    as (d & Hd & Hl & (x0 & E0 & H0) & Hw & Hu);
    [rewrite length_replicate; lia |].
  rewrite Hd. f_equal. apply load_ext.
  assert (Hx0 : x0 = v).
  { rewrite load_replicate in E0 by lia. congruence. }
  subst x0. rewrite ema_fixed_point in H0.
  assert (Hall : forall n : nat, (Z.of_nat n < len)%Z -> load d (Z.of_nat n) = Some v).
  { induction n as [| n IH]; intros Hn.
    - exact H0.
    - destruct (Hw (Z.of_nat (Datatypes.S n))) as (xi & yp & Exi & Eyp & E); [lia |].
      rewrite load_replicate in Exi by lia.
      replace (Z.of_nat (Datatypes.S n) - 1)%Z with (Z.of_nat n) in Eyp by lia.
      rewrite IH in Eyp by lia.
      assert (xi = v) as -> by congruence. assert (yp = v) as -> by congruence.
      rewrite ema_fixed_point in E. exact E. }
  intros i. destruct (Z_lt_ge_dec i 0) as [Hneg | Hpos].
  { unfold load. rewrite !decide_False by lia. reflexivity. }
  destruct (Z_lt_ge_dec i len) as [Hlt | Hge].
  - rewrite load_replicate by lia.
    replace i with (Z.of_nat (Z.to_nat i)) by lia. apply Hall. lia.
  - apply Hu. lia.
Qed.
End ExactFacts.

(** ** The general statements at concrete inputs *)

Section Witnesses.
Import FMrec Inputs.

(** Closed side conditions, by evaluation. *)
Ltac evaluate := vm_compute; repeat split; first [reflexivity | discriminate].

Lemma discriminator_samples_witness :
  (1 <= 2 /\ Z.of_nat (length opposite_pairs) = 2 * 2 /\
   2 <= Z.of_nat (length [zero32; one32])) /\
  exists Is Qs g,
    @get_freq_values machine [zero32; one32] Is Qs 2 = Some g /\
    length g = 2%nat /\ load g 1 = Some one32.
Proof.
  split; [evaluate |].
  destruct (@discriminator_samples machine [zero32; one32] zero32 opposite_pairs 2)
    as (Is & Qs & g & _ & Hg & _ & Hl & _ & Hu); [evaluate.. |].
  exists Is, Qs, g. split; [exact Hg |]. split; [exact Hl |].
  exact (Hu 1 ltac:(lia)).
Defined.

Lemma deemphasize_filter_recurrence_witness :
  (1 <= 3 <= Z.of_nat (length (replicate 3 fifteen))) /\
  exists out,
    @deemphasize_filter machine (replicate 3 fifteen) one32 3 = Some out /\
    load out 0 =
      Some (f_add (f_mul alpha fifteen) (f_mul (f_sub (f_lit 1) alpha) one32)).
Proof.
  split; [evaluate |].
  destruct (@deemphasize_filter_recurrence machine (replicate 3 fifteen) one32 3)
    as (_ & _ & out & Ho & _ & H0 & _); [evaluate |].
  exists out. split; [exact Ho |]. apply H0. reflexivity.
Defined.

Lemma dc_block_filter_recurrence_witness :
  (1 <= 2 <= Z.of_nat (length [one32; fifteen])) /\
  exists out,
    @dc_block_filter machine [one32; fifteen] 2 = Some out /\
    load out 0 = Some one32 /\
    load out 1 = Some (f_add (f_sub fifteen one32) (f_mul R_pole one32)).
Proof.
  split; [evaluate |].
  destruct (@dc_block_filter_recurrence machine [one32; fifteen] 2)
    as (_ & out & Ho & _ & H0 & Hw & _); [evaluate |].
  exists out. split; [exact Ho |]. split; [exact H0 |].
  apply (Hw 1 fifteen one32 one32); [lia | reflexivity | reflexivity | exact H0].
Defined.

Lemma decimate_every_20th_witness :
  (0 <= 100 <= Z.of_nat (length ramp100)) /\
  (100 / 20 <= Z.of_nat (length (replicate 5 zero32))) /\
  exists dec',
    @decimate machine (replicate 5 zero32) ramp100 100 = Some (dec', 5) /\
    length dec' = 5%nat /\
    load dec' 0 = load ramp100 0 /\ load dec' 1 = load ramp100 20 /\
    load dec' 2 = load ramp100 40 /\ load dec' 3 = load ramp100 60 /\
    load dec' 4 = load ramp100 80.
Proof.
  split; [evaluate |]. split; [evaluate |].
  destruct (@decimate_every_20th machine (replicate 5 zero32) ramp100 100)
    as (_ & _ & dec' & Hd & Hl & Hw & _); [evaluate.. |].
  change (100 / 20) with 5 in *.
  exists dec'. split; [exact Hd |]. split; [exact Hl |].
  split; [exact (Hw 0 ltac:(lia)) |]. split; [exact (Hw 1 ltac:(lia)) |].
  split; [exact (Hw 2 ltac:(lia)) |]. split; [exact (Hw 3 ltac:(lia)) |].
  exact (Hw 4 ltac:(lia)).
Defined.

Lemma demodulate_carry_from_unwritten_cell_witness :
  (1 <= 2 /\ Z.of_nat (length two_pairs) = 2 * 2 /\
   2 <= Z.of_nat (length [zero32; fifteen]) /\
   load [zero32; fifteen] (2 - 1) = Some fifteen) /\
  exists g d out r prev,
    @deemphasize_filter machine g one32 2 = Some d /\
    dc_block_filter d 2 = Some out /\
    demodulate [zero32; fifteen] one32 two_pairs (2 * 2) = Some (out, r) /\
    load g 1 = Some fifteen /\
    load d 0 = Some prev /\
    load d 1 =
      Some (f_add (f_mul alpha fifteen) (f_mul (f_sub (f_lit 1) alpha) prev)).
Proof.
  split; [evaluate |].
  destruct (@demodulate_carry_from_unwritten_cell machine
              [zero32; fifteen] one32 two_pairs 2 fifteen)
    as (Is & Qs & g & d & out & r & prev & _ & Hd & Ho & Hdem & _ & Hg & Hp & Hd1 & _);
    [evaluate.. |].
  exists g, d, out, r, prev.
  split; [exact Hd |]. split; [exact Ho |]. split; [exact Hdem |].
  split; [exact Hg |]. split; [| exact Hd1].
  destruct Hp as [[Hn _] | [_ Hp]]; [discriminate Hn | exact Hp].
Defined.

Lemma lengths_are_not_checked_witness :
  (1 <= 21 /\ Z.of_nat (length buffer42) = 2 * 21 /\
   21 <= Z.of_nat (length (replicate 21 zero32)) /\
   21 / 20 <= Z.of_nat (length (replicate 1 zero32))) /\
  exists out r dec',
    @demodulate machine (replicate 21 zero32) zero32 buffer42 (2 * 21) = Some (out, r) /\
    decimate (replicate 1 zero32) out (2 * 21 ÷ 2) = Some (dec', 1) /\
    load dec' 0 = load out 0.
Proof.
  split; [evaluate |].
  destruct (@lengths_are_not_checked machine (replicate 21 zero32)
              (replicate 1 zero32) zero32 buffer42 21)
    as (_ & out & r & dec' & Hdem & Hdec & Hw & _); [evaluate.. |].
  change (21 / 20) with 1 in *.
  exists out, r, dec'. split; [exact Hdem |]. split; [exact Hdec |].
  exact (Hw 0 ltac:(lia)).
Defined.

Lemma constant_is_fixed_point_exact_witness :
  (1 <= 3 <= Z.of_nat 3) /\
  @deemphasize_filter Exact.arith (replicate 3 15%R) 15%R 3 = Some (replicate 3 15%R).
Proof.
  split; [lia |]. apply constant_is_fixed_point_exact. lia.
Defined.
End Witnesses.

(** ** IEEE arithmetic: how [SpecFloat] rounds *)

Section FloatFacts.
Import IEEE FMrec Rounding.

Lemma digits2_pos_size p : digits2_pos p = Pos.size p.
Proof. induction p; simpl; congruence. Qed.

Lemma Zdigits2_log2 z : 0 < z -> Zdigits2 z = Z.log2 z + 1.
Proof.
  destruct z as [| p | p]; try lia. intros _. simpl.
  rewrite digits2_pos_size. destruct p; simpl; lia.
Qed.

Lemma Zdigits2_bounds z : 0 < z -> 2 ^ (Zdigits2 z - 1) <= z < 2 ^ Zdigits2 z.
Proof.
  intros H. rewrite Zdigits2_log2 by assumption.
  replace (Z.log2 z + 1 - 1) with (Z.log2 z) by lia.
  pose proof (Z.log2_spec z H). replace (Z.log2 z + 1) with (Z.succ (Z.log2 z)) by lia.
  assumption.
Qed.

Lemma Zdigits2_pos z : 0 < z -> 0 < Zdigits2 z.
Proof. intros H. rewrite Zdigits2_log2 by assumption. pose proof (Z.log2_nonneg z). lia. Qed.

Lemma Zdigits2_unique z k : 0 < k -> 2 ^ (k - 1) <= z < 2 ^ k -> Zdigits2 z = k.
Proof.
  intros Hk H. assert (0 < z) by (pose proof (Z.pow_pos_nonneg 2 (k - 1)); lia).
  rewrite Zdigits2_log2 by assumption.
  rewrite (Z.log2_unique z (k - 1)); [lia | lia |].
  replace (Z.succ (k - 1)) with k by lia. assumption.
Qed.

Lemma Zdigits2_le z k : 0 < z -> 0 <= k -> z < 2 ^ k -> Zdigits2 z <= k.
Proof.
  intros Hz Hk H. destruct (Zdigits2_bounds z Hz) as [Hl _].
  destruct (Z_le_gt_dec (Zdigits2 z) k) as [| Hgt]; [assumption |].
  assert (2 ^ k <= 2 ^ (Zdigits2 z - 1)) by (apply Z.pow_le_mono_r; lia). lia.
Qed.

(** shr_1 *)
Lemma shr_1_m m r s : 0 <= m ->
  shr_1 (Build_shr_record m r s) = Build_shr_record (m / 2) (Z.odd m) (r || s).
Proof.
  intros Hm. destruct m as [| p | p]; try lia.
  - reflexivity.
  - destruct p as [p | p |]; unfold shr_1.
    + f_equal. rewrite Pos2Z.inj_xI. apply Z.div_unique with 1; lia.
    + f_equal. rewrite Pos2Z.inj_xO. apply Z.div_unique with 0; lia.
    + reflexivity.
Qed.

Lemma iter_pos_nat {A} (f : A -> A) p : forall x, SpecFloat.iter_pos f p x = Nat.iter (Pos.to_nat p) f x.
Proof.
  induction p as [p IH | p IH |]; intros x; cbn [SpecFloat.iter_pos].
  - rewrite !IH, Pos2Nat.inj_xI.
    replace (Datatypes.S (2 * Pos.to_nat p)) with (Pos.to_nat p + Datatypes.S (Pos.to_nat p))%nat by lia.
    rewrite Nat.iter_add, Nat.iter_succ_r. reflexivity.
  - rewrite !IH, Pos2Nat.inj_xO.
    replace (2 * Pos.to_nat p)%nat with (Pos.to_nat p + Pos.to_nat p)%nat by lia.
    rewrite Nat.iter_add. reflexivity.
  - reflexivity.
Qed.

Lemma shr_iter_invariant (m : Z) (k : nat) :
  0 <= m ->
  let mrs := Nat.iter k shr_1 (Build_shr_record m false false) in
  exists rho, 0 <= rho < 2 ^ Z.of_nat k /\ 0 <= shr_m mrs /\
    m = shr_m mrs * 2 ^ Z.of_nat k + rho /\
    shr_info (Z.of_nat k) rho (shr_r mrs) (shr_s mrs).
Proof.
  intros Hm. induction k as [| k IH].
  - exists 0. simpl. repeat split; lia.
  - destruct IH as (rho & Hrho & Hq & Heq & Hinfo).
    cbv zeta in *. rewrite Nat.iter_succ.
    destruct (Nat.iter k shr_1 _) as [q r s]. cbn [shr_m shr_r shr_s] in *.
    rewrite shr_1_m by assumption. cbn [shr_m shr_r shr_s].
    unfold shr_info in *. rewrite Nat2Z.inj_succ, Z.pow_succ_r by lia.
    set (P := 2 ^ Z.of_nat k) in *.
    assert (HP : 0 < P) by (apply Z.pow_pos_nonneg; lia).
    pose proof (Z.div_mod q 2 ltac:(lia)) as Hdm.
    rewrite Zmod_odd in Hdm.
    exists ((if Z.odd q then 1 else 0) * P + rho).
    assert (0 <= q / 2) by (apply Z.div_pos; lia).
    destruct (Z.odd q), r, s; cbn [orb]; repeat split; nia.
Qed.

Lemma shr_iter_rne (m : Z) (k : nat) :
  0 <= m ->
  let mrs := Nat.iter k shr_1 (Build_shr_record m false false) in
  shr_m mrs = m / 2 ^ Z.of_nat k /\
  round_nearest_even (shr_m mrs) (loc_of_shr_record mrs) = rne m (Z.of_nat k).
Proof.
  intros Hm mrs.
  destruct (shr_iter_invariant m k Hm) as (rho & Hrho & Hq & Heq & Hinfo).
  fold mrs in Hq, Heq, Hinfo.
  assert (HP : 0 < 2 ^ Z.of_nat k) by (apply Z.pow_pos_nonneg; lia).
  assert (Hdiv : m / 2 ^ Z.of_nat k = shr_m mrs).
  { symmetry. apply Z.div_unique with rho; lia. }
  assert (Hmod : m mod 2 ^ Z.of_nat k = rho).
  { symmetry. apply Z.mod_unique with (shr_m mrs); lia. }
  split; [congruence |].
  unfold rne. rewrite Hdiv, Hmod.
  destruct mrs as [q r s]. cbn [shr_m shr_r shr_s] in *.
  destruct r, s; unfold shr_info in Hinfo; cbn [loc_of_shr_record round_nearest_even].
  - assert (E : (2 * rho ?= 2 ^ Z.of_nat k) = Gt) by (apply Z.compare_gt_iff; lia).
    rewrite E. reflexivity.
  - assert (E : (2 * rho ?= 2 ^ Z.of_nat k) = Eq) by (apply Z.compare_eq_iff; lia).
    rewrite E. reflexivity.
  - assert (E : (2 * rho ?= 2 ^ Z.of_nat k) = Lt) by (apply Z.compare_lt_iff; lia).
    rewrite E. reflexivity.
  - assert (E : (2 * rho ?= 2 ^ Z.of_nat k) = Lt) by (apply Z.compare_lt_iff; lia).
    rewrite E. reflexivity.
Qed.

(** [shr] from an exact record, then rounding. *)
Lemma shr_exact_rne (m e n : Z) :
  0 <= m -> 0 < n ->
  let '(mrs, e') := shr (Build_shr_record m false false) e n in
  e' = e + n /\ shr_m mrs = m / 2 ^ n /\
  round_nearest_even (shr_m mrs) (loc_of_shr_record mrs) = rne m n.
Proof.
  intros Hm Hn. destruct n as [| p | p]; try lia.
  unfold shr. rewrite iter_pos_nat.
  destruct (shr_iter_rne m (Pos.to_nat p) Hm) as [H1 H2].
  rewrite positive_nat_Z in H1, H2. repeat split; assumption.
Qed.

Lemma shr_nonpos (mrs : shr_record) (e n : Z) : n <= 0 -> shr mrs e n = (mrs, e).
Proof. intros H. destruct n; try reflexivity. lia. Qed.

Lemma rne_nonneg m n : 0 <= m -> 0 <= rne m n.
Proof.
  intros Hm. unfold rne.
  assert (0 <= m / 2 ^ n).
  { destruct (Z_le_gt_dec 0 n).
    - apply Z.div_pos; [lia | apply Z.pow_pos_nonneg; lia].
    - rewrite Z.pow_neg_r by lia. rewrite Z.div_0_r. lia. }
  destruct (_ ?= _); [destruct (Z.even _) | |]; lia.
Qed.

Lemma binary_round_aux_Z prec emax s m e :
  0 <= m ->
  binary_round_aux prec emax s m e loc_Exact =
  of_round prec emax s (round_aux_Z prec emax m e).
Proof.
  intros Hm. unfold binary_round_aux, round_aux_Z, shr_fexp.
  cbn [shr_record_of_loc].
  set (e1 := fexp prec emax (Zdigits2 m + e)).
  assert (Hstep1 : exists mrs,
    shr (Build_shr_record m false false) e (e1 - e) =
      (mrs, snd (if e <? e1 then (rne m (e1 - e), e1) else (m, e))) /\
    round_nearest_even (shr_m mrs) (loc_of_shr_record mrs) =
      fst (if e <? e1 then (rne m (e1 - e), e1) else (m, e))).
  { destruct (Z.ltb_spec e e1) as [Hlt | Hge].
    - pose proof (shr_exact_rne m e (e1 - e) Hm ltac:(lia)) as H.
      destruct (shr _ e (e1 - e)) as [mrs e']. destruct H as (-> & _ & H).
      exists mrs. cbn [fst snd]. split; [f_equal; lia | exact H].
    - rewrite shr_nonpos by lia. eexists. split; reflexivity. }
  destruct Hstep1 as (mrs & -> & Hr). rewrite Hr.
  destruct (if e <? e1 then (rne m (e1 - e), e1) else (m, e)) as [m1 e1'] eqn:E1.
  cbn [fst snd].
  assert (Hm1 : 0 <= m1).
  { destruct (e <? e1); inversion E1; subst; [apply rne_nonneg |]; assumption. }
  set (e2 := fexp prec emax (Zdigits2 m1 + e1')).
  destruct (Z.ltb_spec e1' e2) as [Hlt | Hge].
  - pose proof (shr_exact_rne m1 e1' (e2 - e1') Hm1 ltac:(lia)) as H.
    destruct (shr _ e1' (e2 - e1')) as [mrs2 e'']. destruct H as (-> & H & _).
    rewrite H. unfold of_round. cbn [fst snd].
    replace (e1' + (e2 - e1')) with e2 by lia. reflexivity.
  - rewrite shr_nonpos by lia. reflexivity.
Qed.

Lemma pow2_pos k : 0 <= k -> 0 < 2 ^ k.
Proof. intros. apply Z.pow_pos_nonneg; lia. Qed.

Lemma pow2_le a b : 0 <= a <= b -> 2 ^ a <= 2 ^ b.
Proof. intros. apply Z.pow_le_mono_r; lia. Qed.

Lemma pow2_split a b : 0 <= a <= b -> 2 ^ b = 2 ^ a * 2 ^ (b - a).
Proof. intros. rewrite <- Z.pow_add_r by lia. f_equal. lia. Qed.

Lemma rne_bounds m n :
  0 <= m -> 0 < n ->
  m / 2 ^ n <= rne m n <= m / 2 ^ n + 1 /\
  (2 * (m mod 2 ^ n) < 2 ^ n -> rne m n = m / 2 ^ n).
Proof.
  intros Hm Hn. unfold rne.
  destruct (Z.compare_spec (2 * (m mod 2 ^ n)) (2 ^ n)); [destruct (Z.even _) | |];
    split; lia.
Qed.

Section RoundingCases.
Variables prec emax : Z.
Hypothesis Hprec : 0 < prec.

Let emin := SpecFloat.emin prec emax.
Let fexp := SpecFloat.fexp prec emax.

Lemma fexp_eq x : fexp x = Z.max (x - prec) emin.
Proof. reflexivity. Qed.

Lemma canonical_lt m e : 0 < m -> fexp (Zdigits2 m + e) <= e -> m < 2 ^ prec.
Proof.
  intros Hm H. rewrite fexp_eq in H.
  destruct (Zdigits2_bounds m Hm) as [_ Hu].
  pose proof (Zdigits2_pos m Hm).
  assert (2 ^ Zdigits2 m <= 2 ^ prec) by (apply pow2_le; lia). lia.
Qed.

Lemma round_aux_Z_exact m e :
  0 < m -> fexp (Zdigits2 m + e) <= e ->
  round_aux_Z prec emax m e = (m, e).
Proof.
  intros Hm H. unfold round_aux_Z. fold fexp.
  destruct (Z.ltb_spec e (fexp (Zdigits2 m + e))); [lia |].
  destruct (Z.ltb_spec e (fexp (Zdigits2 m + e))); [lia | reflexivity].
Qed.

Lemma round_aux_Z_round m e :
  0 < m -> e < fexp (Zdigits2 m + e) ->
  let e1 := fexp (Zdigits2 m + e) in
  let mr := rne m (e1 - e) in
  0 <= mr <= 2 ^ prec /\
  (mr < 2 ^ prec -> round_aux_Z prec emax m e = (mr, e1) /\
     (0 < mr -> fexp (Zdigits2 mr + e1) = e1)) /\
  (mr = 2 ^ prec -> round_aux_Z prec emax m e = (2 ^ (prec - 1), e1 + 1) /\
     fexp (prec + (e1 + 1)) = e1 + 1).
Proof.
  intros Hm Hlt e1 mr.
  assert (He1 : e1 = Z.max (Zdigits2 m + e - prec) emin) by reflexivity.
  set (n := e1 - e). assert (Hn : 0 < n) by (unfold n, e1; lia).
  destruct (Zdigits2_bounds m Hm) as [Hdl Hdu].
  pose proof (Zdigits2_pos m Hm) as Hdpos.
  set (d := Zdigits2 m) in *.
  pose proof (pow2_pos n ltac:(lia)) as Hpn.
  pose proof (pow2_pos prec ltac:(lia)) as Hpp.
  destruct (rne_bounds m n ltac:(lia) Hn) as [[Hrl Hru] _].
  change (rne m n) with mr in Hrl, Hru.
  assert (Hq : m / 2 ^ n < 2 ^ prec).
  { apply Z.div_lt_upper_bound; [lia |].
    rewrite <- Z.pow_add_r by lia.
    assert (2 ^ d <= 2 ^ (n + prec)) by (apply pow2_le; lia). lia. }
  assert (Hq0 : 0 <= m / 2 ^ n) by (apply Z.div_pos; lia).
  split; [lia |].
  unfold round_aux_Z. fold fexp. fold d. fold e1.
  destruct (Z.ltb_spec e e1) as [_ | ?]; [| lia].
  change (rne m (e1 - e)) with mr.
  split.
  - intros Hmr.
    assert (Hfe : fexp (Zdigits2 mr + e1) <= e1).
    { rewrite fexp_eq. destruct (Z.eq_dec mr 0) as [-> | Hne].
      - simpl. lia.
      - pose proof (Zdigits2_le mr prec ltac:(lia) ltac:(lia) Hmr). lia. }
    destruct (Z.ltb_spec e1 (fexp (Zdigits2 mr + e1))); [lia |].
    split; [reflexivity |]. intros Hpos.
    rewrite fexp_eq. rewrite fexp_eq in Hfe.
    destruct (Z.eq_dec e1 emin) as [Hem | Hem]; [lia |].
    assert (Hd : e1 = d + e - prec) by lia.
    assert (Hnd : n = d - prec) by lia.
    assert (2 ^ (prec - 1) <= m / 2 ^ n).
    { apply Z.div_le_lower_bound; [lia |].
      rewrite <- Z.pow_add_r by lia.
      replace (n + (prec - 1)) with (d - 1) by lia. lia. }
    destruct (Zdigits2_bounds mr Hpos) as [_ Hmu].
    pose proof (Zdigits2_pos mr Hpos).
    assert (prec <= Zdigits2 mr).
    { destruct (Z_le_gt_dec prec (Zdigits2 mr)); [assumption |].
      assert (2 ^ Zdigits2 mr <= 2 ^ (prec - 1)) by (apply pow2_le; lia). lia. }
    lia.
  - intros Hmr. rewrite Hmr.
    assert (Hdg : Zdigits2 (2 ^ prec) = prec + 1).
    { apply Zdigits2_unique; [lia |].
      replace (prec + 1 - 1) with prec by lia.
      rewrite Z.pow_add_r by lia. lia. }
    rewrite Hdg.
    assert (Hf : fexp (prec + 1 + e1) = e1 + 1) by (rewrite fexp_eq; lia).
    rewrite Hf.
    destruct (Z.ltb_spec e1 (e1 + 1)); [| lia].
    replace (e1 + 1 - e1) with 1 by lia.
    split.
    + f_equal. change (2 ^ 1) with 2.
      replace prec with (Z.succ (prec - 1)) at 1 by lia.
      rewrite Z.pow_succ_r by lia. rewrite Z.mul_comm, Z.div_mul; lia.
    + replace (prec + (e1 + 1)) with (prec + 1 + e1) by lia. exact Hf.
Qed.
End RoundingCases.

Lemma rne_le_same mz n mB :
  0 <= mz -> 0 < n -> 2 * mz < (2 * mB + 1) * 2 ^ n -> rne mz n <= mB.
Proof.
  intros Hm Hn H.
  pose proof (pow2_pos n ltac:(lia)) as Hp.
  destruct (rne_bounds mz n Hm Hn) as [[_ Hu] Hd].
  pose proof (Z.div_mod mz (2 ^ n) ltac:(lia)) as Hdm.
  pose proof (Z.mod_pos_bound mz (2 ^ n) Hp) as Hr.
  set (q := mz / 2 ^ n) in *. set (r := mz mod 2 ^ n) in *. set (P := 2 ^ n) in *.
  assert (q <= mB) by nia.
  destruct (Z.eq_dec q mB) as [-> | Hne]; [| lia].
  rewrite Hd; [lia | nia].
Qed.

Lemma rne_le_pow mz n dz :
  0 < mz < 2 ^ dz -> 0 < n -> 0 <= dz ->
  rne mz n * 2 ^ n <= Z.max (2 ^ dz) (2 ^ n).
Proof.
  intros Hm Hn Hd.
  pose proof (pow2_pos n ltac:(lia)) as Hp.
  destruct (rne_bounds mz n ltac:(lia) Hn) as [[_ Hu] _].
  pose proof (Z.div_mod mz (2 ^ n) ltac:(lia)) as Hdm.
  pose proof (Z.mod_pos_bound mz (2 ^ n) Hp) as Hr.
  assert (Hq0 : 0 <= mz / 2 ^ n) by (apply Z.div_pos; lia).
  destruct (Z_le_gt_dec n dz) as [Hle | Hgt].
  - rewrite (pow2_split n dz) in * by lia.
    pose proof (pow2_pos (dz - n) ltac:(lia)).
    set (q := mz / 2 ^ n) in *. set (r := mz mod 2 ^ n) in *.
    set (P := 2 ^ n) in *. set (D := 2 ^ (dz - n)) in *.
    assert (q < D) by nia. nia.
  - assert (2 ^ dz <= 2 ^ n) by (apply pow2_le; lia).
    assert (mz / 2 ^ n = 0) by (apply Z.div_small; lia).
    set (q := mz / 2 ^ n) in *. nia.
Qed.

Lemma Zdigits2_shift m k : 0 < m -> 0 <= k -> Zdigits2 (m * 2 ^ k) = Zdigits2 m + k.
Proof.
  intros Hm Hk. destruct (Zdigits2_bounds m Hm) as [Hl Hu].
  pose proof (Zdigits2_pos m Hm). pose proof (pow2_pos k Hk).
  apply Zdigits2_unique; [lia |]. split.
  - replace (Zdigits2 m + k - 1) with (Zdigits2 m - 1 + k) by lia.
    rewrite Z.pow_add_r by lia. nia.
  - rewrite Z.pow_add_r by lia. nia.
Qed.

Lemma pos_iter_xO m d : Zpos (Pos.iter xO m d) = Zpos m * 2 ^ Zpos d.
Proof.
  induction d as [| d IH] using Pos.peano_ind.
  - simpl. lia.
  - rewrite Pos.iter_succ, Pos2Z.inj_xO, IH, Pos2Z.inj_succ, Z.pow_succ_r by lia. lia.
Qed.

Lemma val_pos m e : 0 < m -> 0 <= e + UNIT -> 0 < val m e.
Proof. intros. unfold val. pose proof (pow2_pos (e + UNIT)). nia. Qed.

Lemma val_shift m e k : 0 <= k -> 0 <= e - k + UNIT -> val (m * 2 ^ k) (e - k) = val m e.
Proof.
  intros Hk He. unfold val. replace (e + UNIT) with (k + (e - k + UNIT)) by lia.
  rewrite (Z.pow_add_r 2 k (e - k + UNIT)) by lia. lia.
Qed.

Lemma val_le_exp m e e' : 0 <= e + UNIT -> e <= e' -> val m e' = val (m * 2 ^ (e' - e)) e.
Proof.
  intros. unfold val. replace (e' + UNIT) with ((e' - e) + (e + UNIT)) by lia.
  rewrite (Z.pow_add_r 2 (e' - e) (e + UNIT)) by lia. lia.
Qed.

Lemma binary_round_Z prec emax s m e :
  binary_round prec emax s m e =
  of_round prec emax s
    (round_aux_Z prec emax (fst (align_Z prec emax (Zpos m) e))
       (snd (align_Z prec emax (Zpos m) e))).
Proof.
  unfold binary_round, shl_align, align_Z. cbn [Zdigits2].
  set (e' := fexp prec emax (Z.pos (digits2_pos m) + e)).
  destruct (Z.ltb_spec e' e) as [Hlt | Hge].
  - destruct (e' - e) as [| d | d] eqn:E; try lia.
    cbn [fst snd]. rewrite binary_round_aux_Z by apply Pos2Z.is_nonneg.
    rewrite pos_iter_xO. replace (e - e') with (Z.pos d) by lia. reflexivity.
  - destruct (e' - e) as [| d | d] eqn:E; try lia;
      cbn [fst snd]; apply binary_round_aux_Z; apply Pos2Z.is_nonneg.
Qed.

Section Bounds.
Variables prec emax : Z.
Hypothesis Hprec : 0 < prec.
Hypothesis Hemin : - UNIT <= SpecFloat.emin prec emax.

Let emin := SpecFloat.emin prec emax.
Let fexp := SpecFloat.fexp prec emax.

Lemma fexp_ge x : emin <= fexp x.
Proof. unfold fexp, SpecFloat.fexp. fold emin. lia. Qed.

Lemma fexp_mono x y : x <= y -> fexp x <= fexp y.
Proof. unfold fexp, SpecFloat.fexp. lia. Qed.

Lemma align_Z_facts m e :
  0 < m -> - UNIT <= e ->
  0 < fst (align_Z prec emax m e) /\
  Zdigits2 (fst (align_Z prec emax m e)) + snd (align_Z prec emax m e) =
    Zdigits2 m + e /\
  snd (align_Z prec emax m e) <=
    fexp (Zdigits2 (fst (align_Z prec emax m e)) + snd (align_Z prec emax m e)) /\
  val (fst (align_Z prec emax m e)) (snd (align_Z prec emax m e)) = val m e /\
  - UNIT <= snd (align_Z prec emax m e).
Proof.
  intros Hm He. unfold align_Z. fold fexp.
  pose proof (fexp_ge (Zdigits2 m + e)) as Hge.
  destruct (Z.ltb_spec (fexp (Zdigits2 m + e)) e) as [Hlt | Hle]; cbn [fst snd].
  - set (e' := fexp (Zdigits2 m + e)) in *.
    pose proof (pow2_pos (e - e') ltac:(lia)).
    rewrite Zdigits2_shift by lia.
    replace (Zdigits2 m + (e - e') + e') with (Zdigits2 m + e) by lia.
    fold e'. split; [nia |]. split; [reflexivity |]. split; [lia |].
    split; [| unfold emin in *; lia].
    replace e' with (e - (e - e')) at 2 by lia.
    apply val_shift; unfold emin in *; lia.
  - repeat split; try lia.
Qed.

Lemma round_aux_Z_bound mz ez mB eB :
  0 < mz -> - UNIT <= ez -> ez <= fexp (Zdigits2 mz + ez) ->
  0 < mB -> fexp (Zdigits2 mB + eB) = eB ->
  2 * val mz ez < (2 * mB + 1) * 2 ^ (eB + UNIT) ->
  0 <= fst (round_aux_Z prec emax mz ez) /\
  (0 < fst (round_aux_Z prec emax mz ez) ->
     fexp (Zdigits2 (fst (round_aux_Z prec emax mz ez)) + snd (round_aux_Z prec emax mz ez))
       = snd (round_aux_Z prec emax mz ez)) /\
  snd (round_aux_Z prec emax mz ez) <= eB /\
  val (fst (round_aux_Z prec emax mz ez)) (snd (round_aux_Z prec emax mz ez))
    <= val mB eB.
Proof.
  intros Hmz Hez Hal HmB HcB Hlt.
  destruct (Zdigits2_bounds mz Hmz) as [Hzl Hzu].
  destruct (Zdigits2_bounds mB HmB) as [HBl HBu].
  pose proof (Zdigits2_pos mz Hmz) as Hdz.
  pose proof (Zdigits2_pos mB HmB) as HdB.
  set (dz := Zdigits2 mz) in *. set (dB := Zdigits2 mB) in *.
  assert (HeB : - UNIT <= eB) by (pose proof (fexp_ge (dB + eB)); unfold emin in *; lia).
  set (U := 2 ^ (ez + UNIT)).
  assert (HU : 0 < U) by (apply pow2_pos; lia).
  assert (HvB : 2 ^ (dB - 1 + eB + UNIT) <= val mB eB).
  { unfold val. replace (dB - 1 + eB + UNIT) with ((dB - 1) + (eB + UNIT)) by lia.
    rewrite (Z.pow_add_r 2 (dB - 1)) by lia. pose proof (pow2_pos (eB + UNIT) ltac:(lia)). nia. }
  assert (Hvz : 2 ^ (dz - 1 + ez + UNIT) <= val mz ez < 2 ^ (dz + ez + UNIT)).
  { unfold val. fold U.
    replace (dz - 1 + ez + UNIT) with ((dz - 1) + (ez + UNIT)) by lia.
    replace (dz + ez + UNIT) with (dz + (ez + UNIT)) by lia.
    rewrite (Z.pow_add_r 2 (dz - 1)), (Z.pow_add_r 2 dz) by lia. fold U. nia. }
  assert (HA : dz + ez <= dB + eB).
  { destruct (Z_le_gt_dec (dz + ez) (dB + eB)) as [| Hgt]; [assumption | exfalso].
    assert (2 ^ (dB + eB + UNIT) <= 2 ^ (dz - 1 + ez + UNIT)) by (apply pow2_le; lia).
    assert ((2 * mB + 1) * 2 ^ (eB + UNIT) <= 2 * 2 ^ (dB + eB + UNIT)).
    { replace (dB + eB + UNIT) with (dB + (eB + UNIT)) by lia.
      rewrite (Z.pow_add_r 2 dB) by lia. pose proof (pow2_pos (eB + UNIT) ltac:(lia)). nia. }
    lia. }
  set (e1 := fexp (dz + ez)) in *.
  assert (He1B : e1 <= eB) by (rewrite <- HcB; apply fexp_mono; assumption).
  assert (Hstrict : e1 < eB -> dz + ez < dB + eB).
  { intros H. destruct (Z_lt_ge_dec (dz + ez) (dB + eB)) as [| Hge]; [assumption |].
    pose proof (fexp_mono (dB + eB) (dz + ez) ltac:(lia)). fold e1 in H0. lia. }
  assert (Hlow : e1 < eB ->
            forall x, x <= Z.max (2 ^ (dz + ez + UNIT)) (2 ^ (e1 + UNIT)) -> x <= val mB eB).
  { intros H x Hx. specialize (Hstrict H).
    assert (2 ^ (dz + ez + UNIT) <= 2 ^ (dB - 1 + eB + UNIT)) by (apply pow2_le; lia).
    assert (2 ^ (e1 + UNIT) <= 2 ^ (dB - 1 + eB + UNIT)) by (apply pow2_le; lia).
    lia. }
  destruct (Z_le_gt_dec e1 ez) as [Hex | Hrd].
  - (* no rounding *)
    rewrite (round_aux_Z_exact prec emax mz ez Hmz) by (fold fexp; fold dz; fold e1; lia).
    cbn [fst snd]. fold dz. fold e1.
    split; [lia |]. split; [lia |]. split; [lia |].
    destruct (Z.eq_dec ez eB) as [-> | Hne].
    + unfold val in *. fold U in Hlt |- *.
      assert (mz <= mB) by (clear - Hlt HU; nia).
      apply Z.mul_le_mono_nonneg_r; lia.
    + apply Hlow; [lia |]. lia.
  - (* rounding by [e1 - ez] bits *)
    destruct (round_aux_Z_round prec emax Hprec mz ez Hmz) as (Hmr & Hsmall & Hcarry);
      [fold fexp; fold dz; fold e1; lia |].
    fold fexp in Hmr, Hsmall, Hcarry. fold dz in Hmr, Hsmall, Hcarry.
    fold e1 in Hmr, Hsmall, Hcarry.
    set (n := e1 - ez) in *. set (mr := rne mz n) in *.
    assert (Hn : 0 < n) by (unfold n; lia).
    pose proof (pow2_pos n ltac:(lia)) as HPn.
    assert (HE1 : 2 ^ (e1 + UNIT) = 2 ^ n * U).
    { unfold U. rewrite <- Z.pow_add_r by lia. f_equal. unfold n. lia. }
    destruct (Z.eq_dec e1 eB) as [Heq | Hne].
    + (* same binade as the bound *)
      assert (Hle : mr <= mB).
      { apply rne_le_same; [lia | lia |].
        unfold val in Hlt. fold U in Hlt. rewrite <- Heq, HE1 in Hlt. nia. }
      pose proof (canonical_lt prec emax Hprec mB eB HmB ltac:(fold fexp; fold dB; lia)) as HmBp.
      destruct (Hsmall ltac:(lia)) as [-> Hcan]. cbn [fst snd].
      split; [lia |]. split; [assumption |]. split; [lia |].
      unfold val. rewrite Heq. pose proof (pow2_pos (eB + UNIT) ltac:(lia)). nia.
    + (* a lower binade *)
      pose proof (rne_le_pow mz n dz ltac:(lia) Hn ltac:(lia)) as Hpw.
      fold mr in Hpw.
      assert (Hv : val mr e1 <= Z.max (2 ^ (dz + ez + UNIT)) (2 ^ (e1 + UNIT))).
      { unfold val. rewrite HE1.
        replace (dz + ez + UNIT) with (dz + (ez + UNIT)) by lia.
        rewrite (Z.pow_add_r 2 dz) by lia. fold U. nia. }
      destruct (Z_lt_ge_dec mr (2 ^ prec)) as [Hs | Hc].
      * destruct (Hsmall Hs) as [-> Hcan]. cbn [fst snd].
        split; [lia |]. split; [assumption |]. split; [lia |].
        apply Hlow; [lia | assumption].
      * destruct (Hcarry ltac:(lia)) as [-> Hcan]. cbn [fst snd].
        pose proof (pow2_pos (prec - 1) ltac:(lia)).
        split; [lia |]. split.
        { intros _. rewrite (Zdigits2_unique (2 ^ (prec - 1)) prec); [assumption | lia |].
          split; [lia |]. apply Z.pow_lt_mono_r; lia. }
        split; [lia |].
        apply Hlow; [lia |].
        assert (val (2 ^ (prec - 1)) (e1 + 1) = val mr e1).
        { unfold val. replace mr with (2 ^ prec) by lia.
          replace (e1 + 1 + UNIT) with (1 + (e1 + UNIT)) by lia.
          rewrite (Z.pow_add_r 2 1 (e1 + UNIT)) by lia.
          replace prec with ((prec - 1) + 1) at 2 by lia.
          rewrite (Z.pow_add_r 2 (prec - 1) 1) by lia. lia. }
        lia.
Qed.
End Bounds.

Section Formats.
Variables prec emax : Z.
Hypothesis Hprec : 0 < prec.
Hypothesis Hemin : - UNIT <= SpecFloat.emin prec emax.

Let emin := SpecFloat.emin prec emax.
Let fexp := SpecFloat.fexp prec emax.

Lemma bounded_canonical m e :
  bounded prec emax m e = true ->
  fexp (Zdigits2 (Zpos m) + e) = e /\ e <= emax - prec /\ - UNIT <= e /\
  Zpos m < 2 ^ prec.
Proof.
  unfold bounded, canonical_mantissa. intros H.
  apply andb_prop in H. destruct H as [H1 H2].
  apply Z.eqb_eq in H1. apply Z.leb_le in H2. fold fexp in H1. cbn [Zdigits2].
  split; [assumption |]. split; [assumption |]. split.
  - pose proof (fexp_ge prec emax (Z.pos (digits2_pos m) + e)) as Hg.
    fold fexp in Hg. lia.
  - apply (canonical_lt prec emax Hprec (Zpos m) e); [lia |].
    fold fexp. cbn [Zdigits2]. lia.
Qed.

Lemma canonical_bounded m e :
  fexp (Zdigits2 (Zpos m) + e) = e -> e <= emax - prec ->
  bounded prec emax m e = true.
Proof.
  intros H1 H2. unfold bounded, canonical_mantissa. fold fexp.
  cbn [Zdigits2] in H1. apply andb_true_intro. split.
  - apply Z.eqb_eq. assumption.
  - apply Z.leb_le. assumption.
Qed.

(** Rounding [m * 2^e] below a representable bound, or less than half a
    unit in the last place above it, stays at or below the bound. *)
Lemma binary_round_bound s m e mB eB :
  - UNIT <= e -> 0 < mB -> fexp (Zdigits2 mB + eB) = eB -> eB <= emax - prec ->
  2 * val (Zpos m) e < (2 * mB + 1) * 2 ^ (eB + UNIT) ->
  binary_round prec emax s m e = S754_zero s \/
  exists m' e', binary_round prec emax s m e = S754_finite s m' e' /\
    bounded prec emax m' e' = true /\ val (Zpos m') e' <= val mB eB.
Proof.
  intros He HmB HcB HeB Hlt. rewrite binary_round_Z.
  destruct (align_Z_facts prec emax Hemin (Zpos m) e ltac:(lia) He)
    as (Hmz & Hdz & Hal & Hval & Hez).
  set (mz := fst (align_Z prec emax (Z.pos m) e)) in *.
  set (ez := snd (align_Z prec emax (Z.pos m) e)) in *.
  destruct (round_aux_Z_bound prec emax Hprec Hemin mz ez mB eB)
    as (H0 & Hcan & Hexp & Hv); try assumption.
  { rewrite Hval. assumption. }
  unfold of_round.
  destruct (round_aux_Z prec emax mz ez) as [m' e']. cbn [fst snd] in *.
  destruct m' as [| p | p]; [left; reflexivity | right | lia].
  destruct (Z.leb_spec e' (emax - prec)); [| lia].
  exists p, e'. split; [reflexivity |]. split; [| assumption].
  apply canonical_bounded; [apply Hcan; lia | lia].
Qed.

(** A number that fits the format is only re-aligned. *)
Lemma binary_round_representable s m e :
  - UNIT <= e -> fexp (Zdigits2 (Zpos m) + e) <= e -> e <= emax - prec ->
  exists m' e', binary_round prec emax s m e = S754_finite s m' e' /\
    bounded prec emax m' e' = true /\ val (Zpos m') e' = val (Zpos m) e /\
    e' <= e /\ Zpos m' = Zpos m * 2 ^ (e - e').
Proof.
  intros He Hfit Hmax. rewrite binary_round_Z.
  destruct (align_Z_facts prec emax Hemin (Zpos m) e ltac:(lia) He)
    as (Hmz & Hdz & Hal & Hval & Hez).
  assert (Hmant : fst (align_Z prec emax (Z.pos m) e) =
                  Zpos m * 2 ^ (e - snd (align_Z prec emax (Z.pos m) e)) /\
                  snd (align_Z prec emax (Z.pos m) e) <= e /\
                  snd (align_Z prec emax (Z.pos m) e) = fexp (Zdigits2 (Zpos m) + e)).
  { unfold align_Z. fold fexp. destruct (Z.ltb_spec (fexp (Zdigits2 (Z.pos m) + e)) e);
      cbn [fst snd].
    - split; [reflexivity | split; [lia | reflexivity]].
    - rewrite Z.sub_diag. split; [simpl; lia | split; lia]. }
  destruct Hmant as (Hm1 & Hm2 & Hm3).
  set (mz := fst (align_Z prec emax (Z.pos m) e)) in *.
  set (ez := snd (align_Z prec emax (Z.pos m) e)) in *.
  assert (Hex : fexp (Zdigits2 mz + ez) = ez) by (rewrite Hdz; congruence).
  rewrite (round_aux_Z_exact prec emax mz ez Hmz) by (fold fexp; lia).
  unfold of_round. cbn [fst snd].
  destruct mz as [| p | p] eqn:E; try lia.
  destruct (Z.leb_spec ez (emax - prec)); [| lia].
  exists p, ez. split; [reflexivity |]. split.
  - apply canonical_bounded; [assumption | lia].
  - split; [assumption |]. split; assumption.
Qed.

(** On canonical numbers of one format, [SFcompare] compares values. *)
Lemma canonical_exp_lt m1 e1 m2 e2 :
  bounded prec emax m1 e1 = true -> bounded prec emax m2 e2 = true ->
  e1 < e2 -> val (Zpos m1) e1 < val (Zpos m2) e2.
Proof.
  intros H1 H2 Hlt.
  destruct (bounded_canonical m1 e1 H1) as (Hc1 & _ & Hu1 & _).
  destruct (bounded_canonical m2 e2 H2) as (Hc2 & _ & Hu2 & _).
  destruct (Zdigits2_bounds (Zpos m1) ltac:(lia)) as [_ Hb1].
  destruct (Zdigits2_bounds (Zpos m2) ltac:(lia)) as [Hb2 _].
  pose proof (Zdigits2_pos (Zpos m1) ltac:(lia)) as Hd1.
  pose proof (Zdigits2_pos (Zpos m2) ltac:(lia)) as Hd2.
  set (d1 := Zdigits2 (Zpos m1)) in *. set (d2 := Zdigits2 (Zpos m2)) in *.
  assert (Hd : d1 + e1 < d2 + e2).
  { destruct (Z_lt_ge_dec (d1 + e1) (d2 + e2)); [assumption |].
    pose proof (fexp_mono prec emax (d2 + e2) (d1 + e1) ltac:(lia)) as Hm.
    fold fexp in Hm. lia. }
  assert (val (Zpos m1) e1 < 2 ^ (d1 + (e1 + UNIT))).
  { unfold val. rewrite (Z.pow_add_r 2 d1) by lia.
    pose proof (pow2_pos (e1 + UNIT) ltac:(lia)). nia. }
  assert (2 ^ ((d2 - 1) + (e2 + UNIT)) <= val (Zpos m2) e2).
  { unfold val. rewrite (Z.pow_add_r 2 (d2 - 1)) by lia.
    pose proof (pow2_pos (e2 + UNIT) ltac:(lia)). nia. }
  assert (2 ^ (d1 + (e1 + UNIT)) <= 2 ^ ((d2 - 1) + (e2 + UNIT))) by (apply pow2_le; lia).
  lia.
Qed.

Lemma SFcompare_canonical m1 e1 m2 e2 :
  bounded prec emax m1 e1 = true -> bounded prec emax m2 e2 = true ->
  SFcompare (S754_finite false m1 e1) (S754_finite false m2 e2) =
    Some (val (Zpos m1) e1 ?= val (Zpos m2) e2) /\
  SFcompare (S754_finite true m1 e1) (S754_finite true m2 e2) =
    Some (val (Zpos m2) e2 ?= val (Zpos m1) e1).
Proof.
  intros H1 H2. cbn [SFcompare].
  destruct (Z.compare_spec e1 e2) as [Heq | Hlt | Hgt].
  - subst e2. destruct (bounded_canonical m1 e1 H1) as (_ & _ & Hu & _).
    unfold val. pose proof (pow2_pos (e1 + UNIT) ltac:(lia)) as HU.
    rewrite <- !Zmult_compare_compat_r by lia.
    rewrite Pos.compare_cont_spec.
    change (Z.pos m1 ?= Z.pos m2) with (m1 ?= m2)%positive.
    change (Z.pos m2 ?= Z.pos m1) with (m2 ?= m1)%positive.
    rewrite (Pos.compare_antisym m1 m2).
    destruct (m1 ?= m2)%positive; split; reflexivity.
  - pose proof (canonical_exp_lt m1 e1 m2 e2 H1 H2 Hlt) as Hv.
    rewrite (proj2 (Z.compare_lt_iff _ _) Hv).
    rewrite (proj2 (Z.compare_gt_iff _ _) Hv). split; reflexivity.
  - pose proof (canonical_exp_lt m2 e2 m1 e1 H2 H1 ltac:(lia)) as Hv.
    rewrite (proj2 (Z.compare_lt_iff _ _) Hv).
    rewrite (proj2 (Z.compare_gt_iff _ _) Hv). split; reflexivity.
Qed.
End Formats.

Lemma shl_align_fst m e ez :
  ez <= e -> Zpos (fst (shl_align m e ez)) = Zpos m * 2 ^ (e - ez).
Proof.
  intros H. unfold shl_align.
  destruct (ez - e) as [| d | d] eqn:E; cbn [fst].
  - replace (e - ez) with 0 by lia. simpl. lia.
  - lia.
  - rewrite pos_iter_xO. f_equal. f_equal. lia.
Qed.

Lemma val_align m e ez :
  - UNIT <= ez -> ez <= e -> val (m * 2 ^ (e - ez)) ez = val m e.
Proof.
  intros H1 H2. unfold val.
  replace (e + UNIT) with ((e - ez) + (ez + UNIT)) by lia.
  rewrite (Z.pow_add_r 2 (e - ez)) by lia. lia.
Qed.

Section Normalize.
Variables prec emax : Z.
Hypothesis Hprec : 0 < prec.
Hypothesis Hemin : - UNIT <= SpecFloat.emin prec emax.

Lemma binary_normalize_bound M e sz mB eB :
  - UNIT <= e -> 0 < mB -> fexp prec emax (Zdigits2 mB + eB) = eB ->
  eB <= emax - prec ->
  2 * val (Z.abs M) e < (2 * mB + 1) * 2 ^ (eB + UNIT) ->
  small prec emax (val mB eB) (binary_normalize prec emax M e sz).
Proof.
  intros He HmB HcB HeB Hlt. unfold binary_normalize.
  destruct M as [| p | p]; [exact I | |].
  - destruct (binary_round_bound prec emax Hprec Hemin false p e mB eB)
      as [-> | (m' & e' & -> & Hb & Hv)]; try assumption; [exact I | split; assumption].
  - destruct (binary_round_bound prec emax Hprec Hemin true p e mB eB)
      as [-> | (m' & e' & -> & Hb & Hv)]; try assumption; [exact I | split; assumption].
Qed.

Lemma binary_normalize_representable M e sz :
  M <> 0 -> Z.abs M < 2 ^ prec -> SpecFloat.emin prec emax <= e -> e <= emax - prec ->
  exists m' e', binary_normalize prec emax M e sz = S754_finite (M <? 0) m' e' /\
    bounded prec emax m' e' = true /\ val (Zpos m') e' = val (Z.abs M) e.
Proof.
  intros HM Hlt Hlo Hhi.
  assert (Hfit : forall p, Zpos p < 2 ^ prec ->
            fexp prec emax (Zdigits2 (Zpos p) + e) <= e).
  { intros p Hp. unfold fexp.
    pose proof (Zdigits2_le (Zpos p) prec ltac:(lia) ltac:(lia) Hp). lia. }
  unfold binary_normalize. destruct M as [| p | p]; [congruence | |].
  - destruct (binary_round_representable prec emax Hemin false p e)
      as (m' & e' & -> & Hb & Hv & _); [lia | apply Hfit; assumption | lia |].
    exists m', e'. repeat split; assumption.
  - destruct (binary_round_representable prec emax Hemin true p e)
      as (m' & e' & -> & Hb & Hv & _); [lia | apply Hfit; assumption | lia |].
    exists m', e'. repeat split; assumption.
Qed.
End Normalize.

Lemma SFsub_finite prec emax sx mx ex sy my ey :
  SFsub prec emax (S754_finite sx mx ex) (S754_finite sy my ey) =
  binary_normalize prec emax
    (cond_Zopp sx (Zpos mx * 2 ^ (ex - Z.min ex ey)) -
     cond_Zopp sy (Zpos my * 2 ^ (ey - Z.min ex ey))) (Z.min ex ey) false.
Proof.
  cbn [SFsub]. cbv zeta.
  rewrite !shl_align_fst by lia. reflexivity.
Qed.

Lemma SFadd_finite prec emax sx mx ex sy my ey :
  SFadd prec emax (S754_finite sx mx ex) (S754_finite sy my ey) =
  binary_normalize prec emax
    (cond_Zopp sx (Zpos mx * 2 ^ (ex - Z.min ex ey)) +
     cond_Zopp sy (Zpos my * 2 ^ (ey - Z.min ex ey))) (Z.min ex ey) false.
Proof.
  cbn [SFadd]. cbv zeta.
  rewrite !shl_align_fst by lia. reflexivity.
Qed.

(** The integer whose rounding a sum or difference is, in units. *)
Lemma aligned_sum_val sx mx ex sy my ey :
  - UNIT <= ex -> - UNIT <= ey ->
  let ez := Z.min ex ey in
  (cond_Zopp sx (Zpos mx * 2 ^ (ex - ez)) - cond_Zopp sy (Zpos my * 2 ^ (ey - ez))) *
    2 ^ (ez + UNIT) =
  cond_Zopp sx (val (Zpos mx) ex) - cond_Zopp sy (val (Zpos my) ey) /\
  (cond_Zopp sx (Zpos mx * 2 ^ (ex - ez)) + cond_Zopp sy (Zpos my * 2 ^ (ey - ez))) *
    2 ^ (ez + UNIT) =
  cond_Zopp sx (val (Zpos mx) ex) + cond_Zopp sy (val (Zpos my) ey).
Proof.
  intros Hx Hy ez.
  pose proof (val_align (Zpos mx) ex ez ltac:(unfold ez; lia) ltac:(unfold ez; lia)) as Vx.
  pose proof (val_align (Zpos my) ey ez ltac:(unfold ez; lia) ltac:(unfold ez; lia)) as Vy.
  unfold val in *. destruct sx, sy; cbn [cond_Zopp]; split; lia.
Qed.

Lemma val_abs M e : val (Z.abs M) e = Z.abs (M * 2 ^ (e + UNIT)).
Proof.
  unfold val. destruct (Z_le_gt_dec 0 (e + UNIT)).
  - pose proof (pow2_pos (e + UNIT) ltac:(lia)). rewrite Z.abs_mul. lia.
  - rewrite Z.pow_neg_r by lia. lia.
Qed.
End FloatFacts.

(** ** The quantizer *)

Section Quantizer.
Import IEEE FMrec Rounding.

Lemma binary_round_aux_mantissa prec emax s m e :
  0 < prec ->
  match binary_round_aux prec emax s (Zpos m) e loc_Exact with
  | S754_finite s' m' _ => s' = s /\ Zpos m' < 2 ^ prec
  | S754_zero s' | S754_infinity s' => s' = s
  | S754_nan => False
  end.
Proof.
  intros Hprec. rewrite binary_round_aux_Z by lia.
  assert (H : 0 <= fst (round_aux_Z prec emax (Zpos m) e) < 2 ^ prec).
  { destruct (Z_le_gt_dec (fexp prec emax (Zdigits2 (Zpos m) + e)) e) as [Hle | Hgt].
    - rewrite round_aux_Z_exact by lia. cbn [fst].
      pose proof (canonical_lt prec emax Hprec (Zpos m) e ltac:(lia) Hle). lia.
    - destruct (round_aux_Z_round prec emax Hprec (Zpos m) e ltac:(lia) ltac:(lia))
        as (Hmr & Hsmall & Hcarry).
      destruct (Z_lt_ge_dec (rne (Z.pos m) (fexp prec emax (Zdigits2 (Z.pos m) + e) - e))
                  (2 ^ prec)) as [Hs | Hc].
      + destruct (Hsmall Hs) as [-> _]. cbn [fst]. lia.
      + destruct (Hcarry ltac:(lia)) as [-> _]. cbn [fst].
        pose proof (pow2_pos (prec - 1) ltac:(lia)).
        split; [lia |]. apply Z.pow_lt_mono_r; lia. }
  unfold of_round. destruct (round_aux_Z prec emax (Zpos m) e) as [m' e']. cbn [fst snd] in *.
  destruct m' as [| p | p]; [reflexivity | | lia].
  destruct (e' <=? emax - prec); [split; [reflexivity | lia] | reflexivity].
Qed.


Lemma convert_sample_clamp_cast lm x :
  @convert_sample (arith lm) x = clamp_cast (SFmul prec32 emax32 x (S754_finite false 16776704 (-9))).
Proof.
  assert (H1 : @f_lit (arith lm) 32767 = S754_finite false 16776704 (-9))
    by (vm_compute; reflexivity).
  assert (H2 : @f_neg (arith lm) (f_lit 32768) = S754_finite true 8388608 (-8))
    by (vm_compute; reflexivity).
  unfold convert_sample, GAIN. rewrite H1, H2. reflexivity.
Qed.

Lemma trunc_small m e k c :
  e < 0 -> c <= 2 ^ (- e) -> 0 <= k -> Zpos m < k * c ->
  0 <= Z.shiftl (Zpos m) e < k.
Proof.
  intros He Hc Hk H.
  replace (Z.shiftl (Zpos m) e) with (Z.shiftr (Zpos m) (- e))
    by (rewrite <- Z.shiftl_opp_r; f_equal; lia).
  rewrite Z.shiftr_div_pow2 by lia.
  pose proof (pow2_pos (- e) ltac:(lia)).
  split; [apply Z.div_pos; lia | apply Z.div_lt_upper_bound; nia].
Qed.

Lemma pow2_ge_const e n c : e <= - n -> 0 <= n -> c = 2 ^ n -> c <= 2 ^ (- e).
Proof. intros He Hn ->. apply pow2_le. lia. Qed.


End Quantizer.

(** ** The discriminator's range *)

Section Unwrapping.
Import IEEE FMrec Rounding.

Lemma emin32_in_units : - UNIT <= SpecFloat.emin prec32 emax32.
Proof. vm_compute. discriminate. Qed.
Lemma emin64_in_units : - UNIT <= SpecFloat.emin prec64 emax64.
Proof. vm_compute. discriminate. Qed.
Lemma prec32_pos : 0 < prec32. Proof. reflexivity. Qed.
Lemma prec64_pos : 0 < prec64. Proof. reflexivity. Qed.

Lemma pi64_bounded : bounded prec64 emax64 7074237752028440 (-51) = true.
Proof. vm_compute. reflexivity. Qed.

Lemma twopi_eq lm : @d_mul (arith lm) (d_of_int 2) M_PI = S754_finite false 7074237752028440 (-50).
Proof. vm_compute. reflexivity. Qed.

Lemma small_weaken prec emax b b' x : b <= b' -> small prec emax b x -> small prec emax b' x.
Proof. intros Hb. destruct x; simpl; try tauto. intros [H1 H2]. split; [assumption | lia]. Qed.

(** binary32 facts *)
Lemma bounded32_facts m e :
  bounded prec32 emax32 m e = true ->
  -149 <= e <= 104 /\ Zpos m < 16777216 /\
  (-149 < e -> 8388608 <= Zpos m).
Proof.
  intros H. destruct (bounded_canonical prec32 emax32 prec32_pos emin32_in_units m e H)
    as (Hc & Hmax & _ & Hlt).
  change (2 ^ prec32) with 16777216 in Hlt.
  unfold fexp, emin, prec32, emax32 in Hc. change (emax32 - prec32) with 104 in Hmax.
  split; [lia |]. split; [assumption |]. intros He.
  assert (Hd : Zdigits2 (Zpos m) = 24) by lia.
  destruct (Zdigits2_bounds (Zpos m) ltac:(lia)) as [Hl _]. rewrite Hd in Hl.
  change (2 ^ (24 - 1)) with 8388608 in Hl. assumption.
Qed.

Lemma bounded64_facts m e :
  bounded prec64 emax64 m e = true ->
  -1074 <= e <= 971 /\ Zpos m < 9007199254740992 /\
  (-1074 < e -> 4503599627370496 <= Zpos m).
Proof.
  intros H. destruct (bounded_canonical prec64 emax64 prec64_pos emin64_in_units m e H)
    as (Hc & Hmax & _ & Hlt).
  change (2 ^ prec64) with 9007199254740992 in Hlt.
  unfold fexp, emin, prec64, emax64 in Hc. change (emax64 - prec64) with 971 in Hmax.
  split; [lia |]. split; [assumption |]. intros He.
  assert (Hd : Zdigits2 (Zpos m) = 53) by lia.
  destruct (Zdigits2_bounds (Zpos m) ltac:(lia)) as [Hl _]. rewrite Hd in Hl.
  change (2 ^ (53 - 1)) with 4503599627370496 in Hl. assumption.
Qed.

Lemma val_exp_le m e e0 c :
  0 <= m < c -> e <= e0 -> - UNIT <= e -> val m e < c * 2 ^ (e0 + UNIT).
Proof.
  intros Hm He Hu. unfold val.
  assert (2 ^ (e + UNIT) <= 2 ^ (e0 + UNIT)) by (apply pow2_le; lia).
  pose proof (pow2_pos (e + UNIT) ltac:(lia)). nia.
Qed.

Lemma val_exp_ge m e e0 c :
  c <= m -> 0 <= c -> e0 <= e -> - UNIT <= e0 -> c * 2 ^ (e0 + UNIT) <= val m e.
Proof.
  intros Hm Hc He Hu. unfold val.
  assert (2 ^ (e0 + UNIT) <= 2 ^ (e + UNIT)) by (apply pow2_le; lia).
  pose proof (pow2_pos (e0 + UNIT) ltac:(lia)). nia.
Qed.

(** No binary32 number lies strictly between [(float)pi]'s predecessor and
    [(float)pi], where [pi] is. *)
Lemma float_le_pi m e :
  bounded prec32 emax32 m e = true -> val (Zpos m) e <= Vpi -> val (Zpos m) e <= VPm.
Proof.
  intros Hb Hv. destruct (bounded32_facts m e Hb) as (He & Hm & Hn).
  unfold Vpi, VPm in *.
  destruct (Z_le_gt_dec e (-23)) as [H1 | H1].
  - pose proof (val_exp_le (Zpos m) e (-23) 16777216 ltac:(lia) H1 ltac:(unfold UNIT; lia)).
    unfold val, UNIT in *. lia.
  - destruct (Z.eq_dec e (-22)) as [-> | H2].
    + unfold val, UNIT in *. lia.
    + pose proof (val_exp_ge (Zpos m) e (-21) 8388608 ltac:(lia) ltac:(lia) ltac:(lia)
                    ltac:(unfold UNIT; lia)).
      unfold val, UNIT in *. lia.
Qed.

Lemma float_gt_pi m e :
  bounded prec32 emax32 m e = true -> Vpi < val (Zpos m) e -> VP <= val (Zpos m) e.
Proof.
  intros Hb Hv. destruct (bounded32_facts m e Hb) as (He & Hm & Hn).
  unfold Vpi, VP in *.
  destruct (Z_le_gt_dec e (-23)) as [H1 | H1].
  - pose proof (val_exp_le (Zpos m) e (-23) 16777216 ltac:(lia) H1 ltac:(unfold UNIT; lia)).
    unfold val, UNIT in *. lia.
  - destruct (Z.eq_dec e (-22)) as [-> | H2].
    + unfold val, UNIT in *. lia.
    + pose proof (val_exp_ge (Zpos m) e (-21) 8388608 ltac:(lia) ltac:(lia) ltac:(lia)
                    ltac:(unfold UNIT; lia)).
      unfold val, UNIT in *. lia.
Qed.

Lemma P_canonical : fexp prec32 emax32 (Zdigits2 13176795 + -22) = -22.
Proof. reflexivity. Qed.
Lemma Pm_canonical : fexp prec32 emax32 (Zdigits2 13176794 + -22) = -22.
Proof. reflexivity. Qed.
Lemma P2_canonical : fexp prec32 emax32 (Zdigits2 13176795 + -21) = -21.
Proof. reflexivity. Qed.

(** Narrowing the result of [atan2]. *)
Lemma to32_atan2_small a : atan2_result_ok a -> small prec32 emax32 VP (to32 a).
Proof.
  intros [Hv Hle]. destruct a as [s | s | | s m e]; try exact I.
  - destruct s; discriminate Hle.
  - discriminate Hle.
  - cbn [valid_binary] in Hv. cbn [SFabs] in Hle.
    destruct (bounded64_facts m e Hv) as (He & _ & _).
    assert (Hval : val (Zpos m) e <= Vpi).
    { unfold SFleb, pi64 in Hle.
      rewrite (proj1 (SFcompare_canonical prec64 emax64 prec64_pos emin64_in_units _ _ _ _ Hv pi64_bounded)) in Hle.
      fold Vpi in Hle. destruct (Z.compare_spec (val (Zpos m) e) Vpi); [lia | lia | discriminate Hle]. }
    unfold to32.
    apply (binary_normalize_bound prec32 emax32 prec32_pos emin32_in_units _ e s 13176795 (-22));
      [unfold UNIT; lia | lia | exact P_canonical | vm_compute; discriminate |].
    replace (Z.abs (cond_Zopp s (Zpos m))) with (Zpos m) by (destruct s; reflexivity).
    unfold Vpi, val, UNIT in *. lia.
Qed.

(** The difference of two phases. *)
Lemma phase_difference_small p1 p2 :
  small prec32 emax32 VP p1 -> small prec32 emax32 VP p2 ->
  small prec32 emax32 V2P (SFsub prec32 emax32 p2 p1).
Proof.
  intros H1 H2.
  assert (HPP : VP <= V2P) by (vm_compute; discriminate).
  destruct p1 as [s1 | s1 | | s1 m1 e1], p2 as [s2 | s2 | | s2 m2 e2];
    try contradiction; cbn [small] in H1, H2.
  - destruct s1, s2; exact I.
  - simpl. split; [tauto | lia].
  - simpl. split; [tauto | lia].
  - destruct H1 as [Hb1 Hv1], H2 as [Hb2 Hv2].
    destruct (bounded32_facts m1 e1 Hb1) as (He1 & _ & _).
    destruct (bounded32_facts m2 e2 Hb2) as (He2 & _ & _).
    rewrite SFsub_finite.
    apply (binary_normalize_bound prec32 emax32 prec32_pos emin32_in_units _ _ false 13176795 (-21));
      [unfold UNIT; lia | lia | exact P2_canonical | vm_compute; discriminate |].
    rewrite val_abs.
    rewrite (proj1 (aligned_sum_val s2 m2 e2 s1 m1 e1 ltac:(unfold UNIT; lia)
                      ltac:(unfold UNIT; lia))).
    assert (0 <= val (Zpos m1) e1) by (unfold val; pose proof (pow2_pos (e1 + UNIT) ltac:(unfold UNIT; lia)); nia).
    assert (0 <= val (Zpos m2) e2) by (unfold val; pose proof (pow2_pos (e2 + UNIT) ltac:(unfold UNIT; lia)); nia).
    assert (HV : 2 * (VP + VP) < (2 * 13176795 + 1) * 2 ^ (-21 + UNIT)) by (vm_compute; reflexivity).
    destruct s1, s2; cbn [cond_Zopp]; lia.
Qed.

(** Promotion of a binary32 number is exact. *)
Lemma to64_exact s m e :
  bounded prec32 emax32 m e = true ->
  exists m' e', to64 (S754_finite s m e) = S754_finite s m' e' /\
    bounded prec64 emax64 m' e' = true /\ val (Zpos m') e' = val (Zpos m) e.
Proof.
  intros Hb. destruct (bounded32_facts m e Hb) as (He & Hm & _).
  assert (Hfit : fexp prec64 emax64 (Zdigits2 (Zpos m) + e) <= e).
  { pose proof (Zdigits2_le (Zpos m) 24 ltac:(lia) ltac:(lia) Hm).
    unfold fexp, emin, prec64, emax64. lia. }
  destruct s.
  - change (to64 (S754_finite true m e)) with (binary_round prec64 emax64 true m e).
    destruct (binary_round_representable prec64 emax64 emin64_in_units true m e)
      as (m' & e' & -> & Hb' & Hv & _); [unfold UNIT; lia | assumption | change (emax64 - prec64) with 971; lia |].
    exists m', e'. repeat split; assumption.
  - change (to64 (S754_finite false m e)) with (binary_round prec64 emax64 false m e).
    destruct (binary_round_representable prec64 emax64 emin64_in_units false m e)
      as (m' & e' & -> & Hb' & Hv & _); [unfold UNIT; lia | assumption | change (emax64 - prec64) with 971; lia |].
    exists m', e'. repeat split; assumption.
Qed.

(** Below [(float)pi] in magnitude means inside [(-M_PI, M_PI]]. *)
Lemma small_in_pi_range r : small prec32 emax32 VPm r -> in_pi_range r.
Proof.
  intros H. destruct r as [s | s | | s m e]; try contradiction.
  - destruct s; split; reflexivity.
  - destruct H as [Hb Hv].
    destruct (to64_exact s m e Hb) as (m' & e' & HD & Hb' & Hv').
    unfold in_pi_range. rewrite HD. unfold SFltb, SFleb, pi64.
    assert (Hlt : val (Zpos m') e' < Vpi).
    { rewrite Hv'. assert (VPm < Vpi) by (vm_compute; reflexivity). lia. }
    destruct s.
    + cbn [SFopp negb].
      rewrite (proj2 (SFcompare_canonical prec64 emax64 prec64_pos emin64_in_units _ _ _ _ pi64_bounded Hb')).
      fold Vpi. rewrite (proj2 (Z.compare_lt_iff _ _) Hlt). split; reflexivity.
    + rewrite (proj1 (SFcompare_canonical prec64 emax64 prec64_pos emin64_in_units _ _ _ _ Hb' pi64_bounded)).
      fold Vpi. rewrite (proj2 (Z.compare_lt_iff _ _) Hlt). split; reflexivity.
Qed.

(** One correction by [2 pi] of a difference beyond [pi] in magnitude. *)
Lemma correction_small (s : bool) (m : positive) (e : Z) (x : spec_float) :
  bounded prec64 emax64 m e = true ->
  VP <= val (Zpos m) e <= V2P ->
  x = (if s then SFadd prec64 emax64 (S754_finite true m e)
                   (S754_finite false 7074237752028440 (-50))
       else SFsub prec64 emax64 (S754_finite false m e)
                   (S754_finite false 7074237752028440 (-50))) ->
  small prec32 emax32 VPm (to32 x).
Proof.
  intros Hb [Hlo Hhi] ->.
  destruct (bounded64_facts m e Hb) as (He & Hm & _).
  assert (He51 : -51 <= e).
  { destruct (Z_le_gt_dec (-51) e); [assumption | exfalso].
    pose proof (val_exp_le (Zpos m) e (-52) 9007199254740992 ltac:(lia) ltac:(lia)
                  ltac:(unfold UNIT; lia)).
    unfold VP, val, UNIT in *. lia. }
  set (ez := Z.min e (-50)).
  set (M := Zpos m * 2 ^ (e - ez) - 7074237752028440 * 2 ^ (-50 - ez)).
  assert (HMval : M * 2 ^ (ez + UNIT) = val (Zpos m) e - V2pi).
  { pose proof (aligned_sum_val false m e false 7074237752028440 (-50)
                  ltac:(unfold UNIT; lia) ltac:(unfold UNIT; lia)) as [HS _].
    cbn [cond_Zopp] in HS. exact HS. }
  assert (Hnorm :
    (if s then SFadd prec64 emax64 (S754_finite true m e)
                (S754_finite false 7074237752028440 (-50))
     else SFsub prec64 emax64 (S754_finite false m e)
                (S754_finite false 7074237752028440 (-50))) =
    binary_normalize prec64 emax64 (if s then - M else M) ez false).
  { destruct s.
    - rewrite SFadd_finite. fold ez. cbn [cond_Zopp]. f_equal. unfold M. lia.
    - rewrite SFsub_finite. fold ez. cbn [cond_Zopp]. reflexivity. }
  rewrite Hnorm. clear Hnorm.
  set (M' := if s then - M else M).
  assert (Habs : Z.abs M' = Z.abs M) by (unfold M'; destruct s; lia).
  assert (HU : 2 ^ (-51 + UNIT) <= 2 ^ (ez + UNIT)) by (apply pow2_le; unfold ez, UNIT; lia).
  pose proof (pow2_pos (ez + UNIT) ltac:(unfold ez, UNIT; lia)) as HUp.
  assert (Hbound : Z.abs (M * 2 ^ (ez + UNIT)) <= V2pi - VP).
  { rewrite HMval. assert (V2P - V2pi <= V2pi - VP) by (vm_compute; discriminate). lia. }
  destruct (Z.eq_dec M' 0) as [-> | Hnz]; [exact I |].
  destruct (binary_normalize_representable prec64 emax64 prec64_pos emin64_in_units M' ez false)
    as (m' & e' & -> & Hb' & Hv'); [assumption | | change (emin prec64 emax64) with (-1074); unfold ez; lia | change (emax64 - prec64) with 971; unfold ez; lia |].
  { rewrite Habs. rewrite Z.abs_mul in Hbound.
    assert (V2pi - VP < 2 ^ prec64 * 2 ^ (-51 + UNIT)) by (vm_compute; reflexivity).
    rewrite (Z.abs_eq (2 ^ (ez + UNIT))) in Hbound by lia.
    change (2 ^ prec64) with 9007199254740992 in *.
    destruct (Z_lt_ge_dec (Z.abs M) 9007199254740992); [assumption | exfalso].
    nia. }
  destruct (bounded64_facts m' e' Hb') as (He' & _ & _).
  unfold to32.
  apply (binary_normalize_bound prec32 emax32 prec32_pos emin32_in_units _ e' (M' <? 0) 13176794 (-22));
    [unfold UNIT; lia | lia | exact Pm_canonical | vm_compute; discriminate |].
  replace (Z.abs (cond_Zopp (M' <? 0) (Zpos m'))) with (Zpos m') by (destruct (M' <? 0); reflexivity).
  rewrite Hv', Habs, val_abs.
  assert (2 * (V2pi - VP) < (2 * 13176794 + 1) * 2 ^ (-22 + UNIT)) by (vm_compute; reflexivity).
  lia.
Qed.

Lemma get_instant_freq_unfold lm i1 q1 i2 q2 :
  @get_instant_freq (arith lm) i1 q1 i2 q2 =
  let d := SFsub prec32 emax32 (to32 (lm_atan2 lm (to64 q2) (to64 i2)))
             (to32 (lm_atan2 lm (to64 q1) (to64 i1))) in
  if SFltb pi64 (to64 d) then
    to32 (SFsub prec64 emax64 (to64 d) (S754_finite false 7074237752028440 (-50)))
  else if SFltb (to64 d) (S754_finite true 7074237752028440 (-51)) then
    to32 (SFadd prec64 emax64 (to64 d) (S754_finite false 7074237752028440 (-50)))
  else d.
Proof.
  unfold get_instant_freq. rewrite (twopi_eq lm). reflexivity.
Qed.

Lemma unwrap_small d :
  small prec32 emax32 V2P d ->
  small prec32 emax32 VPm
    (if SFltb pi64 (to64 d) then
       to32 (SFsub prec64 emax64 (to64 d) (S754_finite false 7074237752028440 (-50)))
     else if SFltb (to64 d) (S754_finite true 7074237752028440 (-51)) then
       to32 (SFadd prec64 emax64 (to64 d) (S754_finite false 7074237752028440 (-50)))
     else d).
Proof.
  intros H. destruct d as [s | s | | s m e]; try contradiction.
  - destruct s; exact I.
  - destruct H as [Hb Hv].
    destruct (to64_exact s m e Hb) as (m' & e' & HD & Hb' & Hv').
    rewrite HD. unfold SFltb, pi64.
    pose proof (SFcompare_canonical prec64 emax64 prec64_pos emin64_in_units _ _ _ _ pi64_bounded Hb')
      as [Hpos Hneg].
    pose proof (SFcompare_canonical prec64 emax64 prec64_pos emin64_in_units _ _ _ _ Hb' pi64_bounded)
      as [Hpos' Hneg'].
    fold Vpi in Hpos, Hneg, Hpos', Hneg'.
    destruct s.
    + (* negative: only the second test can fire *)
      rewrite Hneg'. cbn [SFcompare].
      destruct (Z.compare_spec Vpi (val (Zpos m') e')) as [Heq | Hlt | Hgt].
      * split; [assumption |]. apply float_le_pi; [assumption | lia].
      * apply (correction_small true m' e'); [assumption | | reflexivity].
        pose proof (float_gt_pi m e Hb ltac:(lia)). lia.
      * split; [assumption |]. apply float_le_pi; [assumption | lia].
    + (* positive: only the first test can fire *)
      rewrite Hpos.
      destruct (Z.compare_spec Vpi (val (Zpos m') e')) as [Heq | Hlt | Hgt].
      * cbn [SFcompare]. split; [assumption |]. apply float_le_pi; [assumption | lia].
      * apply (correction_small false m' e'); [assumption | | reflexivity].
        pose proof (float_gt_pi m e Hb ltac:(lia)). lia.
      * cbn [SFcompare]. split; [assumption |]. apply float_le_pi; [assumption | lia].
Qed.

(** C8. In IEEE arithmetic, for all I/Q samples at which [atan2] returns
    what the C standard promises, a binary64 number between [- M_PI] and
    [M_PI], the frequency sample [r] computed by [get_instant_freq]
    satisfies [- M_PI < r && r <= M_PI]: it lies in the half-open interval.
    (Its magnitude is in fact at most [13176794 * 2^-22 = 3.1415925], the
    largest binary32 number below pi.) *)
Theorem instant_freq_in_pi_range (lm : libm) (i1 q1 i2 q2 : spec_float) :
  atan2_result_ok (lm_atan2 lm (to64 q1) (to64 i1)) ->
  atan2_result_ok (lm_atan2 lm (to64 q2) (to64 i2)) ->
  in_pi_range (@get_instant_freq (arith lm) i1 q1 i2 q2) /\
  small prec32 emax32 (val 13176794 (-22)) (@get_instant_freq (arith lm) i1 q1 i2 q2).
Proof.
  intros H1 H2. rewrite get_instant_freq_unfold. cbv zeta.
  assert (H : forall r, small prec32 emax32 VPm r ->
            in_pi_range r /\ small prec32 emax32 (val 13176794 (-22)) r).
  { intros r Hr. split; [apply small_in_pi_range |]; exact Hr. }
  apply H, unwrap_small, phase_difference_small;
    apply to32_atan2_small; assumption.
Qed.

Lemma instant_freq_in_pi_range_witness :
  let i1 := @convert_value machine 128 in
  let i2 := @convert_value machine 127 in
  (atan2_result_ok (RefLibm.ref_atan2 (to64 i1) (to64 i1)) /\
   atan2_result_ok (RefLibm.ref_atan2 (to64 i2) (to64 i2))) /\
  in_pi_range (@get_instant_freq machine i1 i1 i2 i2).
Proof.
  intros i1 i2.
  assert (H1 : atan2_result_ok (RefLibm.ref_atan2 (to64 i1) (to64 i1)))
    by (split; vm_compute; reflexivity).
  assert (H2 : atan2_result_ok (RefLibm.ref_atan2 (to64 i2) (to64 i2)))
    by (split; vm_compute; reflexivity).
  split; [split; assumption |].
  exact (proj1 (instant_freq_in_pi_range RefLibm.ref i1 i1 i2 i2 H1 H2)).
Defined.

(** The same pair of opposite samples, evaluated: the phases differ by
    [-pi], the binary32 difference is below [- M_PI], and the corrected
    sample is 3.1415925, just below [pi]. *)
Example opposite_pairs_sample :
  @get_instant_freq machine (convert_value 128) (convert_value 128)
    (convert_value 127) (convert_value 127) = S754_finite false 13176794 (-22).
Proof. vm_compute. reflexivity. Qed.
End Unwrapping.

(** * Further properties *)

(** ** Loops that ran to completion *)

Section LoopRuns.
Context {S : Type}.
Implicit Types (body : Z -> S -> option S) (Q : Z -> S -> Prop).

(** A property every completed turn passes on holds when the loop is over. *)
Lemma for_iter_Some_invariant Q body step n : forall i s s',
  Q i s ->
  (forall k s s', Q k s -> body k s = Some s' -> Q (k + step) s') ->
  for_iter n i step body s = Some s' -> Q (i + Z.of_nat n * step) s'.
Proof.
  induction n as [| n IH]; intros i s s' Hi Hstep; cbn [for_iter].
  - intros [= <-]. now replace (i + Z.of_nat 0 * step) with i by (simpl; lia).
  - destruct (body i s) as [s1 |] eqn:Hb; [| discriminate]. simpl. intros Hr.
    replace (i + Z.of_nat (Datatypes.S n) * step)
      with (i + step + Z.of_nat n * step) by lia.
    apply (IH (i + step) s1 s'); eauto.
Qed.

(** The last turn of a loop that ran to completion ran to completion. *)
Lemma for_iter_last_turn Q body step n : forall i s s',
  Q i s ->
  (forall k s s', Q k s -> body k s = Some s' -> Q (k + step) s') ->
  for_iter (Datatypes.S n) i step body s = Some s' ->
  exists s1, Q (i + Z.of_nat n * step) s1 /\
    body (i + Z.of_nat n * step) s1 = Some s'.
Proof.
  induction n as [| n IH]; intros i s s' Hi Hstep.
  - cbn [for_iter]. destruct (body i s) as [s1 |] eqn:Hb; [| discriminate].
    simpl. intros [= <-]. exists s.
    replace (i + Z.of_nat 0 * step) with i by (simpl; lia). split; assumption.
  - change (for_iter (Datatypes.S (Datatypes.S n)) i step body s)
      with (body i s ≫= for_iter (Datatypes.S n) (i + step) step body).
    destruct (body i s) as [s1 |] eqn:Hb; [| discriminate]. simpl. intros Hr.
    replace (i + Z.of_nat (Datatypes.S n) * step)
      with (i + step + Z.of_nat n * step) by lia.
    apply (IH (i + step) s1 s'); eauto.
Qed.

Lemma for_loop_iterations lo hi :
  lo <= hi -> Z.to_nat ((hi - lo + 1 - 1) / 1) = Z.to_nat (hi - lo).
Proof. intros. rewrite Z.div_1_r. f_equal. lia. Qed.

(** [for (i = lo; i < hi; i++)], completed. *)
Lemma for_loop_Some_invariant Q body lo hi s s' :
  lo <= hi -> Q lo s ->
  (forall k s s', Q k s -> body k s = Some s' -> Q (k + 1) s') ->
  for_loop lo hi 1 body s = Some s' -> Q hi s'.
Proof.
  intros Hle H0 Hstep. unfold for_loop. rewrite for_loop_iterations by assumption.
  intros Hr. apply (for_iter_Some_invariant Q body 1 _ lo s s' H0 Hstep) in Hr.
  now replace hi with (lo + Z.of_nat (Z.to_nat (hi - lo)) * 1) by lia.
Qed.

Lemma for_loop_last_turn Q body lo hi s s' :
  lo < hi -> Q lo s ->
  (forall k s s', Q k s -> body k s = Some s' -> Q (k + 1) s') ->
  for_loop lo hi 1 body s = Some s' ->
  exists s1, Q (hi - 1) s1 /\ body (hi - 1) s1 = Some s'.
Proof.
  intros Hlt H0 Hstep. unfold for_loop. rewrite for_loop_iterations by lia.
  replace (Z.to_nat (hi - lo)) with (Datatypes.S (Z.to_nat (hi - lo - 1))) by lia.
  intros Hr. apply (for_iter_last_turn Q body 1 _ lo s s' H0 Hstep) in Hr.
  now replace (lo + Z.of_nat (Z.to_nat (hi - lo - 1)) * 1) with (hi - 1) in Hr by lia.
Qed.
End LoopRuns.

(** ** What the stages leave alone, and what they need *)

Section StageBounds.
Context {A : CArith}.
Import FMrec.

Lemma store_Some_range {T} (a a' : list T) i v :
  store a i v = Some a' -> 0 <= i < Z.of_nat (length a).
Proof. unfold store. destruct (decide _); [tauto | discriminate]. Qed.

Lemma kept_refl {T} k (a : list T) : kept k a a.
Proof. split; [reflexivity | intros; reflexivity]. Qed.

Lemma kept_store {T} k (a b b' : list T) v :
  kept k a b -> store b k v = Some b' -> kept (k + 1) a b'.
Proof.
  intros [Hl Hu] Hs. split.
  - rewrite (store_length _ _ _ _ Hs). assumption.
  - intros i Hi. rewrite (load_store_ne _ _ _ _ i Hs) by lia. apply Hu. lia.
Qed.

Lemma kept_weaken {T} k k' (a b : list T) : k <= k' -> kept k a b -> kept k' a b.
Proof. intros Hk [Hl Hu]. split; [assumption | intros; apply Hu; lia]. Qed.

Lemma kept_trans {T} k (a b c : list T) : kept k a b -> kept k b c -> kept k a c.
Proof.
  intros [Hl1 Hu1] [Hl2 Hu2]. split; [congruence |].
  intros i Hi. rewrite Hu2, Hu1 by assumption. reflexivity.
Qed.

Lemma get_freq_values_Some (fs Is Qs g : list float) (len : Z) :
  get_freq_values fs Is Qs len = Some g ->
  kept (Z.max 0 (len - 1)) fs g /\
  (2 <= len -> len <= Z.of_nat (length Is) /\ len <= Z.of_nat (length Qs) /\
     len - 1 <= Z.of_nat (length fs)).
Proof.
  unfold get_freq_values. intros H.
  destruct (Z_le_gt_dec (len - 1) 0) as [Hs | Hs].
  { rewrite for_loop_empty in H by lia. injection H as <-.
    split; [apply kept_refl | lia]. }
  set (body := fun (i : Z) (freq_samples : list float) =>
    i1 ← load Is i; q1 ← load Qs i; i2 ← load Is (i + 1); q2 ← load Qs (i + 1);
    store freq_samples i (get_instant_freq i1 q1 i2 q2)) in H.
  assert (Hstep : forall k s s', kept k fs s -> body k s = Some s' -> kept (k + 1) fs s').
  { intros k s s' Hk. unfold body.
    destruct (load Is k); [| discriminate]. simpl.
    destruct (load Qs k); [| discriminate]. simpl.
    destruct (load Is (k + 1)); [| discriminate]. simpl.
    destruct (load Qs (k + 1)); [| discriminate]. simpl.
    apply kept_store. assumption. }
  split.
  - replace (Z.max 0 (len - 1)) with (len - 1) by lia.
    apply (for_loop_Some_invariant (fun k => kept k fs) body 0 (len - 1) fs g);
      [lia | | assumption | assumption].
    apply (kept_weaken 0); [lia | apply kept_refl]. 
  - intros _.
    destruct (for_loop_last_turn (fun k => kept k fs) body 0 (len - 1) fs g)
      as (s1 & [Hl _] & Hb); [lia | apply kept_refl | assumption | assumption |].
    unfold body in Hb. replace (len - 1 - 1 + 1) with (len - 1) in Hb by lia.
    destruct (load Is (len - 1 - 1)); [| discriminate]. simpl in Hb.
    destruct (load Qs (len - 1 - 1)); [| discriminate]. simpl in Hb.
    destruct (load Is (len - 1)) eqn:EI; [| discriminate]. simpl in Hb.
    destruct (load Qs (len - 1)) eqn:EQ; [| discriminate]. simpl in Hb.
    apply load_Some_range in EI, EQ. apply store_Some_range in Hb. lia.
Qed.

Lemma deemphasize_filter_Some (fs d : list float) (last : float) (len : Z) :
  deemphasize_filter fs last len = Some d ->
  kept (Z.max 1 len) fs d /\ 1 <= Z.of_nat (length fs) /\ len <= Z.of_nat (length fs).
Proof.
  unfold deemphasize_filter. cbv zeta. intros H.
  destruct (load fs 0) as [x0 |] eqn:E0; [| discriminate]. simpl in H.
  destruct (store fs 0 _) as [d0 |] eqn:Ed0; [| discriminate]. simpl in H.
  pose proof (kept_store 0 fs fs d0 _ (kept_refl 0 fs) Ed0) as K0. simpl in K0.
  apply load_Some_range in E0.
  destruct (Z_le_gt_dec len 1) as [Hs | Hs].
  { rewrite for_loop_empty in H by lia. injection H as <-.
    replace (Z.max 1 len) with 1 by lia. split; [assumption | lia]. }
  match type of H with for_loop _ _ _ ?b _ = _ => set (body := b) in H end.
  assert (Hstep : forall k s s', kept k fs s -> body k s = Some s' -> kept (k + 1) fs s').
  { intros k s s' Hk. unfold body.
    destruct (load s k); [| discriminate]. simpl.
    destruct (load s (k - 1)); [| discriminate]. simpl.
    apply kept_store. assumption. }
  split; [| split; [lia |]].
  - replace (Z.max 1 len) with len by lia.
    apply (for_loop_Some_invariant (fun k => kept k fs) body 1 len d0 d);
      [lia | assumption | assumption | assumption].
  - destruct (for_loop_last_turn (fun k => kept k fs) body 1 len d0 d)
      as (s1 & [Hl _] & Hb); [lia | assumption | assumption | assumption |].
    unfold body in Hb.
    destruct (load s1 (len - 1)) eqn:E1; [| discriminate].
    apply load_Some_range in E1. lia.
Qed.

Lemma dc_block_filter_Some (buf out : list float) (len : Z) :
  dc_block_filter buf len = Some out ->
  kept (Z.max 1 len) buf out /\ load out 0 = load buf 0 /\
  1 <= Z.of_nat (length buf) /\ len <= Z.of_nat (length buf).
Proof.
  unfold dc_block_filter. cbv zeta. intros H.
  destruct (load buf 0) as [x0 |] eqn:E0; [| discriminate]. simpl in H.
  rewrite <- E0. pose proof (load_Some_range _ _ _ E0) as R0.
  match type of H with
  | context [for_loop 1 len 1 ?b ?s] => set (body := b) in H; set (s0 := s) in H
  end.
  destruct (for_loop 1 len 1 body s0) as [[[l t] o] |] eqn:EL; [| discriminate].
  simpl in H. injection H as ->.
  set (Q := fun (k : Z) (st : float * float * list float) =>
    kept k buf st.2 /\ load st.2 0 = load buf 0).
  assert (Hstep : forall k s s', 1 <= k -> Q k s -> body k s = Some s' -> Q (k + 1) s').
  { intros k [[l1 t1] b1] s' Hk1 [Hk H0]. unfold body. cbn [snd] in *.
    destruct (load b1 k); [| discriminate]. simpl.
    destruct (load b1 (k - 1)); [| discriminate]. simpl.
    destruct (store b1 k _) as [b2 |] eqn:Es; [| discriminate]. simpl.
    intros [= <-]. split; cbn [snd].
    - eapply kept_store; eassumption.
    - rewrite (load_store_ne _ _ _ _ 0 Es) by lia. assumption. }
  set (Q1 := fun k st => 1 <= k /\ Q k st).
  assert (Hstep1 : forall k s s', Q1 k s -> body k s = Some s' -> Q1 (k + 1) s').
  { intros k s s' [Hk HQ] Hb. split; [lia | eapply Hstep; eassumption]. }
  assert (H1 : Q1 1 s0).
  { split; [lia |]. split; cbn [snd]; [| reflexivity].
    apply (kept_weaken 0); [lia | apply kept_refl]. }
  destruct (Z_le_gt_dec len 1) as [Hs | Hs].
  { rewrite for_loop_empty in EL by lia. injection EL as <- <- <-.
    replace (Z.max 1 len) with 1 by lia.
    split; [apply (kept_weaken 0); [lia | apply kept_refl] |].
    split; [reflexivity | lia]. }
  pose proof (for_loop_Some_invariant Q1 body 1 len s0 _ ltac:(lia) H1 Hstep1 EL)
    as [_ [HK H0]]. cbn [snd] in *.
  replace (Z.max 1 len) with len by lia.
  split; [assumption |]. split; [assumption |]. split; [lia |].
  destruct (for_loop_last_turn Q1 body 1 len s0 _ ltac:(lia) H1 Hstep1 EL)
    as ([[l1 t1] b1] & [_ [[Hl _] _]] & Hb). cbn [snd] in *.
  unfold body in Hb.
  destruct (load b1 (len - 1)) eqn:E1; [| discriminate].
  apply load_Some_range in E1. lia.
Qed.

(** The de-interleaving loop of [demodulate], completed. *)
Lemma deinterleave_Some (buffer : list Z) (len n : Z) (I0 Q0 : list float) st :
  1 <= len -> Z.of_nat (length I0) = n ->
  for_loop 0 len 2 (fun j '(i, i_samples, q_samples) =>
      bi ← load buffer j;
      i_samples ← store i_samples i (convert_value bi);
      bq ← load buffer (j + 1);
      q_samples ← store q_samples i (convert_value bq);
      Some (i + 1, i_samples, q_samples)) (0, I0, Q0) = Some st ->
  (len + 1) / 2 <= n /\ 2 * ((len + 1) / 2) <= Z.of_nat (length buffer).
Proof.
  intros Hlen HI. unfold for_loop.
  replace ((len - 0 + 2 - 1) / 2) with ((len + 1) / 2) by (f_equal; lia).
  assert (Hq : 1 <= (len + 1) / 2) by (apply Z.div_le_lower_bound; lia).
  replace (Z.to_nat ((len + 1) / 2))
    with (Datatypes.S (Z.to_nat ((len + 1) / 2 - 1))) by lia.
  match goal with
  | |- for_iter _ _ _ ?b _ = _ -> _ => set (body := b)
  end.
  intros Hr.
  set (P := fun (j : Z) (st : Z * list float * list float) =>
    j = 2 * st.1.1 /\ Z.of_nat (length st.1.2) = n).
  assert (H0 : P 0 (0, I0, Q0)) by (split; cbn [fst snd]; lia).
  assert (Hstep : forall k s s', P k s -> body k s = Some s' -> P (k + 2) s').
  { intros k [[i Is] Qs] s' [-> Hl]. cbn [fst snd] in *. unfold body.
    destruct (load buffer (2 * i)); [| discriminate]. simpl.
    destruct (store Is i _) as [Is' |] eqn:Es; [| discriminate]. simpl.
    destruct (load buffer (2 * i + 1)); [| discriminate]. simpl.
    destruct (store Qs i _) as [Qs' |]; [| discriminate]. simpl.
    intros [= <-]. split; cbn [fst snd]; [lia |].
    rewrite (store_length _ _ _ _ Es). lia. }
  destruct (for_iter_last_turn P body 2 _ 0 _ _ H0 Hstep Hr)
    as ([[i1 I1] Q1] & [Hj Hl] & Hb).
  cbn [fst snd] in *. unfold body in Hb.
  replace (0 + Z.of_nat (Z.to_nat ((len + 1) / 2 - 1)) * 2) with (2 * i1) in Hb by lia.
  destruct (load buffer (2 * i1)); [| discriminate]. simpl in Hb.
  destruct (store I1 i1 _) as [Is' |] eqn:Es; [| discriminate]. simpl in Hb.
  destruct (load buffer (2 * i1 + 1)) eqn:Eb; [| discriminate].
  apply store_Some_range in Es. apply load_Some_range in Eb. lia.
Qed.

Lemma demodulate_Some (fs out : list float) (last r : float) (buffer : list Z) (len : Z) :
  demodulate fs last buffer len = Some (out, r) ->
  (exists n, len = 2 * n /\ 1 <= n /\ 2 * n <= Z.of_nat (length buffer) /\
     n <= Z.of_nat (length fs)) /\
  kept (len ÷ 2) fs out /\ load out (len ÷ 2 - 1) = Some r.
Proof.
  unfold demodulate. cbv zeta. intros H.
  match type of H with
  | context [for_loop 0 len 2 ?b ?s] =>
      destruct (for_loop 0 len 2 b s) as [[[i Is] Qs] |] eqn:E0; [| discriminate]
  end.
  simpl in H.
  destruct (get_freq_values fs Is Qs (len ÷ 2)) as [g |] eqn:Eg; [| discriminate].
  simpl in H.
  destruct (deemphasize_filter g last (len ÷ 2)) as [d |] eqn:Ed; [| discriminate].
  simpl in H.
  destruct (dc_block_filter d (len ÷ 2)) as [o |] eqn:Eo; [| discriminate].
  simpl in H.
  destruct (load o (len ÷ 2 - 1)) as [r' |] eqn:Er; [| discriminate].
  simpl in H. injection H as -> ->.
  destruct (get_freq_values_Some _ _ _ _ _ Eg) as [Kg _].
  destruct (deemphasize_filter_Some _ _ _ _ Ed) as (Kd & _ & _).
  destruct (dc_block_filter_Some _ _ _ Eo) as (Ko & _ & _ & _).
  pose proof (load_Some_range _ _ _ Er) as Rr.
  assert (Hlen : length out = length fs).
  { pose proof (proj1 Kg). pose proof (proj1 Kd). pose proof (proj1 Ko). congruence. }
  assert (Hn : 1 <= len ÷ 2) by lia.
  assert (Hpos : 2 <= len).
  { destruct (Z_lt_ge_dec len 2); [| lia].
    assert (len ÷ 2 <= 0); [| lia].
    destruct (Z_lt_ge_dec len 0).
    - apply Z.quot_le_upper_bound; lia.
    - rewrite Z.quot_small; lia. }
  rewrite Z.quot_div_nonneg in * by lia.
  assert (HI : Z.of_nat (length (malloc (f_lit 0) (len / 2))) = len / 2)
    by (rewrite malloc_length; lia).
  destruct (deinterleave_Some buffer len (len / 2) _ _ _ ltac:(lia) HI E0) as [He Hb].
  pose proof (Z.div_mod len 2 ltac:(lia)) as D1.
  pose proof (Z.mod_pos_bound len 2 ltac:(lia)) as M1.
  pose proof (Z.div_mod (len + 1) 2 ltac:(lia)) as D2.
  pose proof (Z.mod_pos_bound (len + 1) 2 ltac:(lia)) as M2.
  split; [| split; [| assumption]].
  - exists (len / 2). lia.
  - apply (kept_trans _ _ g); [eapply kept_weaken; [| exact Kg]; lia |].
    apply (kept_trans _ _ d); [eapply kept_weaken; [| exact Kd]; lia |].
    eapply kept_weaken; [| exact Ko]. lia.
Qed.
End StageBounds.

(** ** The stages at their limits *)

Section StageLimits.
Context {A : CArith}.
Import FMrec.

Local Abbreviation ema x y :=
  (f_add (f_mul alpha x) (f_mul (f_sub (f_lit 1) alpha) y)).

Lemma get_freq_values_ext (fs fs' Is Qs : list float) (len : Z) :
  length fs = length fs' ->
  (forall i, len - 1 <= i -> load fs i = load fs' i) ->
  get_freq_values fs Is Qs len = get_freq_values fs' Is Qs len.
Proof.
  intros Hl Hu.
  assert (Hrun : forall a b : list float, length a = length b ->
            (forall i, len - 1 <= i -> load a i = load b i) ->
            forall g, get_freq_values a Is Qs len = Some g ->
            get_freq_values b Is Qs len = Some g).
  { intros a b Hab Hagree g Hg.
    destruct (Z_le_gt_dec len 1) as [Hs | Hs].
    - unfold get_freq_values in *. rewrite for_loop_empty in * by lia.
      injection Hg as <-. f_equal. apply load_ext. intros i.
      destruct (Z_lt_ge_dec i 0) as [Hneg | Hpos]; [| symmetry; apply Hagree; lia].
      unfold load. rewrite !decide_False by lia. reflexivity.
    - destruct (get_freq_values_Some _ _ _ _ _ Hg) as [_ Hb].
      specialize (Hb ltac:(lia)).
      destruct (get_freq_values_run a Is Qs len) as (g1 & Hg1 & Hl1 & Hw1 & Hu1); [lia.. |].
      destruct (get_freq_values_run b Is Qs len) as (g2 & Hg2 & Hl2 & Hw2 & Hu2); [lia.. |].
      assert (g1 = g) as -> by congruence.
      rewrite Hg2. f_equal. apply load_ext. intros i.
      destruct (Z_lt_ge_dec i 0) as [Hneg | Hpos].
      { unfold load. rewrite !decide_False by lia. reflexivity. }
      destruct (Z_lt_ge_dec i (len - 1)) as [Hlt | Hge].
      + destruct (Hw1 i) as (i1 & q1 & i2 & q2 & E1 & E2 & E3 & E4 & E5); [lia |].
        destruct (Hw2 i) as (j1 & r1 & j2 & r2 & F1 & F2 & F3 & F4 & F5); [lia |].
        congruence.
      + rewrite Hu1, Hu2 by lia. symmetry. apply Hagree. lia. }
  destruct (get_freq_values fs Is Qs len) as [g |] eqn:E1.
  - symmetry. apply (Hrun fs fs'); assumption.
  - destruct (get_freq_values fs' Is Qs len) as [g' |] eqn:E2; [| reflexivity].
    apply (Hrun fs' fs) in E2; [congruence | congruence |].
    intros i Hi. symmetry. apply Hu. assumption.
Qed.

(** X1. [demodulate] stays inside its arrays exactly when [len] is even
    and at least 2, the raw buffer holds [len] bytes and the frequency
    array [len / 2] cells.  With [len <= 0], an odd [len] or a shorter
    array, some access falls outside an array: the call is undefined. *)
Theorem demodulate_defined_iff (fs : list float) (last : float)
    (buffer : list Z) (len : Z) :
  is_Some (demodulate fs last buffer len) <->
  exists n, 1 <= n /\ len = 2 * n /\ len <= Z.of_nat (length buffer) /\
    n <= Z.of_nat (length fs).
Proof.
  split.
  - intros [[out r] H].
    destruct (demodulate_Some _ _ _ _ _ _ H) as [(n & -> & Hn & Hb & Hf) _].
    exists n. repeat split; assumption.
  - intros (n & Hn & -> & Hb & Hf).
    destruct (demodulate_run fs last buffer n)
      as (Is & Qs & g & d & out & r & _ & _ & _ & _ & _ & _ & _ & Hdem); [lia.. |].
    rewrite Hdem. eexists. reflexivity.
Qed.

(** X2. Of the frequency array, a call of [demodulate] on [n] pairs
    changes the cells [0 .. n - 1] only: the length and every cell from
    [n] on are as before the call, and the value returned is the new
    cell [n - 1]. *)
Theorem demodulate_frame (fs out : list float) (last r : float)
    (buffer : list Z) (len : Z) :
  demodulate fs last buffer len = Some (out, r) ->
  length out = length fs /\
  (forall i, len ÷ 2 <= i -> load out i = load fs i) /\
  load out (len ÷ 2 - 1) = Some r.
Proof.
  intros H. destruct (demodulate_Some _ _ _ _ _ _ H) as (_ & [Hl Hu] & Hr).
  split; [assumption |]. split; assumption.
Qed.

(** X3. The result of [demodulate] on [n] pairs depends on the frequency
    array it is given only through the array's length and its cells from
    [n - 1] on: the cells [0 .. n - 2] are overwritten before they are
    read.  (Cell [n - 1] is read: it is the one the discriminator does
    not write.) *)
Theorem demodulate_ignores_old_samples (fs fs' : list float) (last : float)
    (buffer : list Z) (len : Z) :
  length fs = length fs' ->
  (forall i, len ÷ 2 - 1 <= i -> load fs i = load fs' i) ->
  demodulate fs last buffer len = demodulate fs' last buffer len.
Proof.
  intros Hl Hu. unfold demodulate. cbv zeta.
  match goal with
  | |- context [for_loop 0 len 2 ?b ?s] => destruct (for_loop 0 len 2 b s) as [[[i Is] Qs] |]
  end; [| reflexivity].
  simpl. rewrite (get_freq_values_ext fs fs' Is Qs (len ÷ 2) Hl Hu). reflexivity.
Qed.

(** The loop of [decimate], from what it needs only. *)
Lemma decimate_run_quot (dec fs : list float) (len : Z) :
  len ÷ 20 <= Z.of_nat (length dec) ->
  20 * (len ÷ 20 - 1) < Z.of_nat (length fs) ->
  exists dec', decimate dec fs len = Some (dec', len ÷ 20) /\ length dec' = length dec.
Proof.
  intros Hdec Hfs. unfold decimate. change DECIMATION_FACTOR with 20.
  set (q := len ÷ 20) in *.
  destruct (Z_le_gt_dec q 0) as [Hq | Hq].
  { rewrite for_loop_empty by lia. simpl. exists dec. split; reflexivity. }
  set (P := fun (k : Z) (st : Z * list float) =>
    st.1 = k * 20 /\ length st.2 = length dec).
  match goal with
  | |- context [for_loop 0 q 1 ?body ?s] =>
      destruct (for_loop_invariant P body 0 q s) as ([j d] & Hst & HP)
  end; [lia | split; reflexivity | |].
  - intros k [j d] Hk [Hj Hl]. cbn [fst snd] in *. subst j.
    destruct (load_in_range fs (k * 20)) as [x Ex]; [lia |].
    rewrite Ex. simpl.
    destruct (store_in_range d k x) as [d' Hd']; [lia |].
    rewrite Hd'. simpl. eexists. split; [reflexivity |].
    split; cbn [fst snd]; [lia |].
    rewrite (store_length _ _ _ _ Hd'). assumption.
  - rewrite Hst. simpl. exists d. split; [reflexivity | apply HP].
Qed.

(** X4. [decimate] is defined exactly when it has nothing to write
    ([len / 20 <= 0]) or the output array holds [len / 20] cells and the
    input array reaches index [20 * (len / 20 - 1)], the last one read.
    It does not need [len] input cells. *)
Theorem decimate_defined_iff (dec fs : list float) (len : Z) :
  is_Some (decimate dec fs len) <->
  len ÷ 20 <= 0 \/
  (len ÷ 20 <= Z.of_nat (length dec) /\ 20 * (len ÷ 20 - 1) < Z.of_nat (length fs)).
Proof.
  split.
  - intros [[dec' q] H]. unfold decimate in H. change DECIMATION_FACTOR with 20 in H.
    destruct (Z_le_gt_dec (len ÷ 20) 0) as [Hq | Hq]; [left; assumption | right].
    match type of H with
    | context [for_loop 0 _ 1 ?b ?s] =>
        set (body := b) in H;
        destruct (for_loop 0 (len ÷ 20) 1 body s) as [[j d] |] eqn:EL; [| discriminate]
    end.
    set (P := fun (k : Z) (st : Z * list float) =>
      st.1 = k * 20 /\ length st.2 = length dec).
    destruct (for_loop_last_turn P body 0 (len ÷ 20) (0, dec) (j, d))
      as ([j1 d1] & [Hj Hl] & Hb); [lia | split; reflexivity | | assumption |].
    { intros k [j0 d0] s' [Hj0 Hl0]. cbn [fst snd] in *. subst j0. unfold body.
      destruct (load fs (k * 20)); [| discriminate]. simpl.
      destruct (store d0 k _) as [d' |] eqn:Es; [| discriminate]. simpl.
      intros [= <-]. split; cbn [fst snd]; [lia |].
      rewrite (store_length _ _ _ _ Es). assumption. }
    cbn [fst snd] in *. subst j1. unfold body in Hb.
    destruct (load fs ((len ÷ 20 - 1) * 20)) eqn:Ef; [| discriminate]. simpl in Hb.
    destruct (store d1 (len ÷ 20 - 1) _) eqn:Es; [| discriminate].
    apply load_Some_range in Ef. apply store_Some_range in Es. lia.
  - intros [Hq | [Hd Hf]].
    + destruct (decimate_run_quot dec fs len) as (dec' & -> & _); [lia | lia |].
      eexists. reflexivity.
    + destruct (decimate_run_quot dec fs len) as (dec' & -> & _); [lia | lia |].
      eexists. reflexivity.
Qed.

(** X5. With at most one sample to process, [get_freq_values] and
    [dc_block_filter] change nothing, while [deemphasize_filter] still
    rewrites cell 0 from the carry, even for [len <= 0]; both filters read
    cell 0 whatever [len] is, so on an empty array they are undefined. *)
Theorem stages_on_short_input (fs Is Qs : list float) (last : float) (len : Z) :
  len <= 1 ->
  get_freq_values fs Is Qs len = Some fs /\
  dc_block_filter fs len = match fs with [] => None | _ => Some fs end /\
  deemphasize_filter fs last len =
    match fs with [] => None | x0 :: rest => Some (ema x0 last :: rest) end.
Proof.
  intros Hlen. split; [| split].
  - unfold get_freq_values. apply for_loop_empty. lia.
  - unfold dc_block_filter. cbv zeta. destruct fs as [| x0 rest]; [reflexivity |].
    change (load (x0 :: rest) 0) with (Some x0). simpl.
    rewrite for_loop_empty by lia. reflexivity.
  - unfold deemphasize_filter. cbv zeta. destruct fs as [| x0 rest]; [reflexivity |].
    change (load (x0 :: rest) 0) with (Some x0). simpl.
    change (store (x0 :: rest) 0 (ema x0 last)) with (Some (ema x0 last :: rest)).
    simpl. apply for_loop_empty. lia.
Qed.

(** [convert_samples], completed. *)
Lemma convert_samples_Some (buffer out : list Z) (samples : list float) (len : Z) :
  convert_samples buffer samples len = Some out ->
  length out = length buffer /\
  (forall i, 0 <= i < len ->
     exists x z, load samples i = Some x /\ convert_sample x = Some z /\
       load out i = Some z) /\
  (forall i, Z.max 0 len <= i -> load out i = load buffer i) /\
  (1 <= len -> len <= Z.of_nat (length buffer)).
Proof.
  unfold convert_samples. intros H.
  destruct (Z_le_gt_dec len 0) as [Hs | Hs].
  { rewrite for_loop_empty in H by lia. injection H as <-.
    split; [reflexivity |]. split; [intros; lia |]. split; [reflexivity | lia]. }
  match type of H with for_loop _ _ _ ?b _ = _ => set (body := b) in H end.
  set (P := fun (k : Z) (b : list Z) =>
    0 <= k /\ length b = length buffer /\
    (forall i, 0 <= i < k ->
       exists x z, load samples i = Some x /\ convert_sample x = Some z /\
         load b i = Some z) /\
    (forall i, k <= i -> load b i = load buffer i)).
  assert (H0 : P 0 buffer).
  { split; [lia |]. split; [reflexivity |]. split; [intros; lia | reflexivity]. }
  assert (Hstep : forall k s s', P k s -> body k s = Some s' -> P (k + 1) s').
  { intros k b b' (Hk & Hl & Hw & Hu). unfold body.
    destruct (load samples k) as [x |] eqn:Ex; [| discriminate]. simpl.
    destruct (convert_sample x) as [z |] eqn:Ez; [| discriminate]. simpl.
    intros Hs'. split; [lia |]. split; [| split].
    - rewrite (store_length _ _ _ _ Hs'). assumption.
    - intros i Hi. destruct (Z.eq_dec i k) as [-> | Hne].
      + exists x, z. split; [assumption |]. split; [assumption |].
        apply (load_store_eq _ _ _ _ Hs').
      + destruct (Hw i) as (x' & z' & ? & ? & ?); [lia |].
        exists x', z'. split; [assumption |]. split; [assumption |].
        rewrite (load_store_ne _ _ _ _ i Hs') by assumption. assumption.
    - intros i Hi. rewrite (load_store_ne _ _ _ _ i Hs') by lia. apply Hu. lia. }
  pose proof (for_loop_Some_invariant P body 0 len buffer out ltac:(lia) H0 Hstep H)
    as (_ & Hl & Hw & Hu).
  split; [assumption |]. split; [assumption |].
  split; [intros i Hi; apply Hu; lia |]. intros _.
  destruct (for_loop_last_turn P body 0 len buffer out ltac:(lia) H0 Hstep H)
    as (b1 & (_ & Hl1 & _) & Hb).
  unfold body in Hb.
  destruct (load samples (len - 1)); [| discriminate]. simpl in Hb.
  destruct (convert_sample _); [| discriminate]. simpl in Hb.
  apply store_Some_range in Hb. lia.
Qed.

Lemma convert_samples_run (buffer : list Z) (samples : list float) (len : Z) :
  len <= Z.of_nat (length buffer) ->
  (forall i, 0 <= i < len ->
     exists x z, load samples i = Some x /\ convert_sample x = Some z) ->
  exists out, convert_samples buffer samples len = Some out.
Proof.
  intros Hlen Hs. unfold convert_samples.
  destruct (Z_le_gt_dec len 0) as [Hz | Hz].
  { rewrite for_loop_empty by lia. eauto. }
  match goal with
  | |- context [for_loop 0 len 1 ?body ?s] =>
      destruct (for_loop_invariant (fun (_ : Z) (b : list Z) => length b = length buffer)
                  body 0 len s) as (out & Hout & _)
  end; [lia | reflexivity | | eauto].
  intros k b Hk Hl. destruct (Hs k Hk) as (x & z & Ex & Ez).
  rewrite Ex. simpl. rewrite Ez. simpl.
  destruct (store_in_range b k z) as [b' Hb']; [lia |].
  exists b'. split; [assumption |]. rewrite (store_length _ _ _ _ Hb'). assumption.
Qed.

(** X6. [convert_samples] quantizes the first [len] samples one by one
    into the first [len] cells of the output array and touches no other
    cell; it is undefined when a sample is missing, when the quantizer is
    undefined on a sample, or when the output array is shorter than
    [len]. *)
Theorem convert_samples_pointwise (buffer out : list Z) (samples : list float)
    (len : Z) :
  convert_samples buffer samples len = Some out <->
  length out = length buffer /\
  (1 <= len -> len <= Z.of_nat (length buffer)) /\
  (forall i, 0 <= i < len ->
     exists x z, load samples i = Some x /\ convert_sample x = Some z /\
       load out i = Some z) /\
  (forall i, Z.max 0 len <= i -> load out i = load buffer i).
Proof.
  split.
  - intros H. destruct (convert_samples_Some _ _ _ _ H) as (Hl & Hw & Hu & Hb).
    repeat split; assumption.
  - intros (Hl & Hb & Hw & Hu).
    destruct (convert_samples_run buffer samples len) as [out' Ho].
    { destruct (Z_le_gt_dec len 0); lia. }
    { intros i Hi. destruct (Hw i Hi) as (x & z & ? & ? & _). eauto. }
    rewrite Ho. f_equal.
    destruct (convert_samples_Some _ _ _ _ Ho) as (Hl' & Hw' & Hu' & _).
    apply load_ext. intros i.
    destruct (Z_lt_ge_dec i 0) as [Hneg | Hpos].
    { unfold load. rewrite !decide_False by lia. reflexivity. }
    destruct (Z_lt_ge_dec i len) as [Hlt | Hge].
    + destruct (Hw i) as (x & z & E1 & E2 & E3); [lia |].
      destruct (Hw' i) as (x' & z' & F1 & F2 & F3); [lia |]. congruence.
    + rewrite Hu, Hu' by lia. reflexivity.
Qed.
End StageLimits.

(** ** The quantizer, further *)

Section QuantizerRange.
Import IEEE FMrec Rounding.

Lemma clamp_cast_signed s m e :
  Zpos m < 2 ^ 24 ->
  exists z, clamp_cast (S754_finite s m e) = Some z /\ signed_range s z.
Proof.
  intros Hm. change (2 ^ 24) with 16777216 in Hm.
  unfold clamp_cast, SFltb, signed_range. cbn [SFcompare].
  destruct s.
  - destruct (Z.compare_spec e (-8)) as [-> | Hlt | Hgt].
    + rewrite Pos.compare_cont_spec.
      rewrite Pos2Z.inj_compare.
      destruct (Z.compare_spec (Z.pos m) 8388608) as [Heq | Hl | Hg];
        [injection Heq as -> | |]; cbn [Pos.switch_Eq CompOpp].
      * exists (-32768). split; [reflexivity | lia].
      * unfold to_int16, trunc; cbn [cond_Zopp mbind option_bind option_ret].
        destruct (trunc_small m (-8) 32768 256 ltac:(lia)
                    (pow2_ge_const (-8) 8 256 ltac:(lia) ltac:(lia) eq_refl)
                    ltac:(lia) ltac:(lia)) as [H1 H2].
        rewrite decide_True by lia. eexists. split; [reflexivity | lia].
      * exists (-32768). split; [reflexivity | lia].
    + cbn [CompOpp]. unfold to_int16, trunc; cbn [cond_Zopp mbind option_bind option_ret].
      destruct (trunc_small m e 32768 512 ltac:(lia)
                  (pow2_ge_const e 9 512 ltac:(lia) ltac:(lia) eq_refl)
                  ltac:(lia) ltac:(lia)) as [H1 H2].
      rewrite decide_True by lia. eexists. split; [reflexivity | lia].
    + exists (-32768). split; [reflexivity | lia].
  - destruct (Z.compare_spec (-9) e) as [<- | Hlt | Hgt].
    + rewrite Pos.compare_cont_spec.
      rewrite Pos2Z.inj_compare.
      destruct (Z.compare_spec 16776704 (Z.pos m)) as [Heq | Hl | Hg];
        [injection Heq as <- | |]; cbn [Pos.switch_Eq].
      * exists 32767. split; [reflexivity | lia].
      * exists 32767. split; [reflexivity | lia].
      * unfold to_int16, trunc; cbn [cond_Zopp mbind option_bind option_ret].
        destruct (trunc_small m (-9) 32768 512 ltac:(lia)
                    (pow2_ge_const (-9) 9 512 ltac:(lia) ltac:(lia) eq_refl)
                    ltac:(lia) ltac:(lia)) as [H1 H2].
        rewrite decide_True by lia. eexists. split; [reflexivity | lia].
    + exists 32767. split; [reflexivity | lia].
    + unfold to_int16, trunc; cbn [cond_Zopp mbind option_bind option_ret].
      destruct (trunc_small m e 32768 1024 ltac:(lia)
                  (pow2_ge_const e 10 1024 ltac:(lia) ltac:(lia) eq_refl)
                  ltac:(lia) ltac:(lia)) as [H1 H2].
      rewrite decide_True by lia. eexists. split; [reflexivity | lia].
Qed.

(** The quantizer on anything but NaN. *)
Lemma convert_sample_signed lm x s :
  sign_of x = Some s ->
  exists z, @convert_sample (arith lm) x = Some z /\ signed_range s z.
Proof.
  intros Hs. rewrite convert_sample_clamp_cast.
  destruct x as [s0 | s0 | | s0 m e]; try discriminate; injection Hs as ->.
  - exists 0. destruct s; (split; [reflexivity | cbn; lia]).
  - destruct s; [exists (-32768) | exists 32767]; (split; [reflexivity | cbn; lia]).
  - unfold SFmul.
    pose proof (binary_round_aux_mantissa prec32 emax32 (xorb s false)
                  (m * 16776704) (e + -9) ltac:(reflexivity)) as H.
    rewrite xorb_false_r in *.
    destruct (binary_round_aux prec32 emax32 s (Z.pos (m * 16776704)) (e + -9) loc_Exact)
      as [s' | s' | | s' m' e'].
    + subst s'. exists 0. destruct s; (split; [reflexivity | cbn; lia]).
    + subst s'. destruct s; [exists (-32768) | exists 32767]; (split; [reflexivity | cbn; lia]).
    + contradiction.
    + destruct H as [-> H]. apply clamp_cast_signed. exact H.
Qed.

Lemma convert_sample_nan lm : @convert_sample (arith lm) S754_nan = None.
Proof. reflexivity. Qed.

Lemma signed_range_int16 s z : signed_range s z -> -32768 <= z <= 32767.
Proof. destruct s; cbn; lia. Qed.

(** X7. The quantizer keeps the sign of the sample: a sample that
    compares below zero never gives a positive PCM value, and one that
    compares above zero never a negative one.  A value beyond the 16-bit
    range is clamped, not wrapped around. *)
Theorem convert_sample_keeps_sign (lm : libm) (x : spec_float) (z : Z) :
  @convert_sample (arith lm) x = Some z ->
  (SFltb x (S754_zero false) = true -> -32768 <= z <= 0) /\
  (SFltb (S754_zero false) x = true -> 0 <= z <= 32767).
Proof.
  intros Hz.
  destruct x as [s | s | | s m e].
  - split; discriminate.
  - destruct (convert_sample_signed lm (S754_infinity s) s eq_refl) as (z' & Hz' & Hr).
    assert (z' = z) as -> by congruence.
    destruct s; split; try discriminate; intros _; exact Hr.
  - discriminate Hz.
  - destruct (convert_sample_signed lm (S754_finite s m e) s eq_refl) as (z' & Hz' & Hr).
    assert (z' = z) as -> by congruence.
    destruct s; split; try discriminate; intros _; exact Hr.
Qed.
End QuantizerRange.

(** ** Rounding from below, and full scale *)

Section RoundingBelow.
Import IEEE FMrec Rounding.
Variables prec emax : Z.
Hypothesis Hprec : 0 < prec.
Hypothesis Hemin : - UNIT <= SpecFloat.emin prec emax.

Let emin := SpecFloat.emin prec emax.
Let fexp := SpecFloat.fexp prec emax.

(** Rounding [mz * 2^ez] at or above a representable number stays at or
    above it. *)
Lemma round_aux_Z_lower mz ez mB eB :
  0 < mz -> - UNIT <= ez ->
  0 < mB -> fexp (Zdigits2 mB + eB) = eB ->
  val mB eB <= val mz ez ->
  val mB eB <=
    val (fst (round_aux_Z prec emax mz ez)) (snd (round_aux_Z prec emax mz ez)).
Proof.
  intros Hmz Hez HmB HcB Hle.
  destruct (Zdigits2_bounds mz Hmz) as [Hzl Hzu].
  destruct (Zdigits2_bounds mB HmB) as [HBl HBu].
  pose proof (Zdigits2_pos mz Hmz) as Hdz.
  pose proof (Zdigits2_pos mB HmB) as HdB.
  set (dz := Zdigits2 mz) in *. set (dB := Zdigits2 mB) in *.
  assert (HeB : emin <= eB) by (rewrite <- HcB; apply fexp_ge).
  assert (HeBU : - UNIT <= eB) by (unfold emin in *; lia).
  set (U := 2 ^ (ez + UNIT)).
  assert (HU : 0 < U) by (apply pow2_pos; lia).
  pose proof (pow2_pos (eB + UNIT) ltac:(lia)) as HUB.
  assert (HvB : 2 ^ (dB - 1 + eB + UNIT) <= val mB eB < 2 ^ (dB + eB + UNIT)).
  { unfold val. replace (dB - 1 + eB + UNIT) with ((dB - 1) + (eB + UNIT)) by lia.
    replace (dB + eB + UNIT) with (dB + (eB + UNIT)) by lia.
    rewrite (Z.pow_add_r 2 (dB - 1)), (Z.pow_add_r 2 dB) by lia. nia. }
  assert (Hvz : 2 ^ (dz - 1 + ez + UNIT) <= val mz ez < 2 ^ (dz + ez + UNIT)).
  { unfold val. fold U.
    replace (dz - 1 + ez + UNIT) with ((dz - 1) + (ez + UNIT)) by lia.
    replace (dz + ez + UNIT) with (dz + (ez + UNIT)) by lia.
    rewrite (Z.pow_add_r 2 (dz - 1)), (Z.pow_add_r 2 dz) by lia. fold U. nia. }
  assert (HA : dB + eB <= dz + ez).
  { destruct (Z_le_gt_dec (dB + eB) (dz + ez)) as [| Hgt]; [assumption | exfalso].
    assert (2 ^ (dz + ez + UNIT) <= 2 ^ (dB - 1 + eB + UNIT)) by (apply pow2_le; lia).
    lia. }
  set (e1 := fexp (dz + ez)) in *.
  assert (He1B : eB <= e1) by (rewrite <- HcB; apply fexp_mono; assumption).
  assert (HdBp : dB <= prec).
  { unfold fexp, SpecFloat.fexp in HcB. fold dB in HcB. lia. }
  destruct (Z_le_gt_dec e1 ez) as [Hex | Hrd].
  - rewrite (round_aux_Z_exact prec emax mz ez Hmz) by (fold fexp; fold dz; fold e1; lia).
    cbn [fst snd]. assumption.
  - destruct (round_aux_Z_round prec emax Hprec mz ez Hmz) as (Hmr & Hsmall & Hcarry);
      [fold fexp; fold dz; fold e1; lia |].
    fold fexp in Hmr, Hsmall, Hcarry. fold dz in Hmr, Hsmall, Hcarry.
    fold e1 in Hmr, Hsmall, Hcarry.
    set (n := e1 - ez) in *. set (mr := rne mz n) in *.
    assert (Hn : 0 < n) by (unfold n; lia).
    pose proof (pow2_pos n ltac:(lia)) as HPn.
    assert (HE1 : 2 ^ (e1 + UNIT) = 2 ^ n * U).
    { unfold U. rewrite <- Z.pow_add_r by lia. f_equal. unfold n. lia. }
    destruct (rne_bounds mz n ltac:(lia) Hn) as [[Hrl _] _]. fold mr in Hrl.
    assert (Hres : val (fst (round_aux_Z prec emax mz ez))
                     (snd (round_aux_Z prec emax mz ez)) = val mr e1).
    { destruct (Z_lt_ge_dec mr (2 ^ prec)) as [Hs | Hc].
      - destruct (Hsmall Hs) as [-> _]. reflexivity.
      - destruct (Hcarry ltac:(lia)) as [-> _]. cbn [fst snd].
        unfold val. replace mr with (2 ^ prec) by lia.
        replace (e1 + 1 + UNIT) with (1 + (e1 + UNIT)) by lia.
        rewrite (Z.pow_add_r 2 1 (e1 + UNIT)) by lia.
        replace prec with ((prec - 1) + 1) at 2 by lia.
        rewrite (Z.pow_add_r 2 (prec - 1) 1) by lia. lia. }
    rewrite Hres.
    pose proof (pow2_pos (e1 + UNIT) ltac:(lia)) as HU1.
    destruct (Z.eq_dec e1 eB) as [Heq | Hne].
    + assert (mB <= mz / 2 ^ n).
      { apply Z.div_le_lower_bound; [lia |].
        unfold val in Hle. fold U in Hle. rewrite <- Heq, HE1 in Hle. nia. }
      unfold val. rewrite <- Heq. nia.
    + assert (Hnorm : e1 = dz + ez - prec).
      { assert (He1 : e1 = Z.max (dz + ez - prec) emin) by reflexivity. lia. }
      assert (Hq : 2 ^ (prec - 1) <= mz / 2 ^ n).
      { apply Z.div_le_lower_bound; [lia |].
        rewrite <- Z.pow_add_r by lia.
        replace (n + (prec - 1)) with (dz - 1) by (unfold n; lia). lia. }
      assert (2 ^ (dB + eB + UNIT) <= 2 ^ (prec - 1 + (e1 + UNIT))) by (apply pow2_le; lia).
      rewrite (Z.pow_add_r 2 (prec - 1)) in H by lia.
      pose proof (pow2_pos (prec - 1) ltac:(lia)).
      unfold val at 2. nia.
Qed.

(** When bits are dropped the result is a number of the format. *)
Lemma round_aux_Z_canonical mz ez :
  0 < mz -> ez < fexp (Zdigits2 mz + ez) ->
  0 < fst (round_aux_Z prec emax mz ez) ->
  fexp (Zdigits2 (fst (round_aux_Z prec emax mz ez)) + snd (round_aux_Z prec emax mz ez))
    = snd (round_aux_Z prec emax mz ez).
Proof.
  intros Hmz Hlt.
  destruct (round_aux_Z_round prec emax Hprec mz ez Hmz Hlt) as (Hmr & Hsmall & Hcarry).
  destruct (Z_lt_ge_dec (rne mz (SpecFloat.fexp prec emax (Zdigits2 mz + ez) - ez)) (2 ^ prec))
    as [Hs | Hc].
  - destruct (Hsmall Hs) as [-> Hcan]. cbn [fst snd]. exact Hcan.
  - destruct (Hcarry ltac:(lia)) as [-> Hcan]. cbn [fst snd]. intros _.
    pose proof (pow2_pos (prec - 1) ltac:(lia)).
    rewrite (Zdigits2_unique (2 ^ (prec - 1)) prec); [exact Hcan | lia |].
    split; [lia |]. apply Z.pow_lt_mono_r; lia.
Qed.

(** Two numbers of the format with one value are one number. *)
Lemma canonical_unique m1 e1 m2 e2 :
  bounded prec emax m1 e1 = true -> bounded prec emax m2 e2 = true ->
  val (Zpos m1) e1 = val (Zpos m2) e2 -> m1 = m2 /\ e1 = e2.
Proof.
  intros H1 H2 Hv.
  destruct (Z.lt_trichotomy e1 e2) as [Hlt | [Heq | Hgt]].
  - pose proof (canonical_exp_lt prec emax Hprec Hemin m1 e1 m2 e2 H1 H2 Hlt). lia.
  - subst e2. split; [| reflexivity].
    destruct (bounded_canonical prec emax Hprec Hemin m1 e1 H1) as (_ & _ & Hu & _).
    unfold val in Hv. pose proof (pow2_pos (e1 + UNIT) ltac:(lia)).
    assert (Zpos m1 = Zpos m2) by nia. congruence.
  - pose proof (canonical_exp_lt prec emax Hprec Hemin m2 e2 m1 e1 H2 H1 ltac:(lia)). lia.
Qed.
End RoundingBelow.

Section FullScale.
Import IEEE FMrec Rounding.

Lemma SFmul_finite prec emax sx mx ex sy my ey :
  SFmul prec emax (S754_finite sx mx ex) (S754_finite sy my ey) =
  of_round prec emax (xorb sx sy) (round_aux_Z prec emax (Zpos (mx * my)) (ex + ey)).
Proof. unfold SFmul. apply binary_round_aux_Z. lia. Qed.

(** The product of a binary32 number of magnitude at least [mL * 2^eL]
    by the gain, as the quantizer sees it: infinite, or a binary32 number
    at or above the representable [mB * 2^eB] when [mL * 2^eL * 32767] is. *)
Lemma gain_product_lower s m e mL eL mB eB :
  bounded prec32 emax32 m e = true ->
  -149 < eL -> 8388608 <= mL -> val mL eL <= val (Zpos m) e ->
  0 < mB -> fexp prec32 emax32 (Zdigits2 mB + eB) = eB ->
  mB * 2 ^ (eB + 200) <= mL * 16776704 * 2 ^ (eL - 9 + 200) ->
  SFmul prec32 emax32 (S754_finite s m e) (S754_finite false 16776704 (-9)) =
    S754_infinity s \/
  exists m' e',
    SFmul prec32 emax32 (S754_finite s m e) (S754_finite false 16776704 (-9)) =
      S754_finite s m' e' /\
    bounded prec32 emax32 m' e' = true /\ val mB eB <= val (Zpos m') e'.
Proof.
  intros Hb HeL HmL Hle HmB HcB Hprod.
  destruct (bounded32_facts m e Hb) as (He & Hm & Hn).
  assert (HeBlo : -149 <= eB).
  { pose proof (fexp_ge prec32 emax32 (Zdigits2 mB + eB)) as H.
    rewrite HcB in H. exact H. }
  assert (Hnormal : -149 < e).
  { destruct (Z_lt_ge_dec (-149) e) as [| Hsub]; [assumption | exfalso].
    assert (e = -149) as -> by lia.
    pose proof (val_exp_ge mL eL (-148) 8388608 HmL ltac:(lia) ltac:(lia)
                  ltac:(unfold UNIT; lia)) as H1.
    unfold val, UNIT in *.
    change (-149 + 1200) with 1051 in *. change (-148 + 1200) with 1052 in *.
    assert (Z.pos m * 2 ^ 1051 < 16777216 * 2 ^ 1051) by nia.
    change (2 ^ 1052) with (2 * 2 ^ 1051) in H1. lia. }
  specialize (Hn Hnormal).
  rewrite SFmul_finite, xorb_false_r.
  set (P := Zpos (m * 16776704)).
  assert (HP : P = Zpos m * 16776704) by reflexivity.
  assert (HPd : 47 <= Zdigits2 P).
  { destruct (Z_le_gt_dec 47 (Zdigits2 P)) as [| Hlt]; [assumption | exfalso].
    destruct (Zdigits2_bounds P ltac:(lia)) as [_ Hu].
    assert (2 ^ Zdigits2 P <= 2 ^ 46) by (apply pow2_le; pose proof (Zdigits2_pos P ltac:(lia)); lia).
    change (2 ^ 46) with 70368744177664 in *. lia. }
  assert (Hrd : e + -9 < fexp prec32 emax32 (Zdigits2 P + (e + -9))).
  { unfold fexp, SpecFloat.fexp, prec32, emax32. lia. }
  assert (HvP : val mB eB <= val P (e + -9)).
  { unfold val, UNIT in *.
    replace (eB + 1200) with ((eB + 200) + 1000) by lia.
    replace (e + -9 + 1200) with ((e + 1200 - 9)) by lia.
    rewrite (Z.pow_add_r 2 (eB + 200) 1000) by lia.
    replace (eL + 1200) with (9 + (eL - 9 + 200) + 1000) in Hle by lia.
    rewrite (Z.pow_add_r 2 (9 + (eL - 9 + 200)) 1000) in Hle by lia.
    rewrite (Z.pow_add_r 2 9 (eL - 9 + 200)) in Hle by lia.
    replace (e + 1200) with (9 + (e + 1200 - 9)) in Hle by lia.
    rewrite (Z.pow_add_r 2 9 (e + 1200 - 9)) in Hle by lia.
    change (2 ^ 9) with 512 in Hle.
    pose proof (pow2_pos 1000 ltac:(lia)) as H1000.
    pose proof (pow2_pos (e + 1200 - 9) ltac:(lia)) as Hpe.
    pose proof (pow2_pos (eL - 9 + 200) ltac:(lia)) as HpL.
    set (T := 2 ^ 1000) in *. set (X := 2 ^ (e + 1200 - 9)) in *.
    set (L := 2 ^ (eL - 9 + 200)) in *. set (B := 2 ^ (eB + 200)) in *.
    rewrite HP.
    assert (mL * L * T <= Z.pos m * X) by nia.
    assert (mB * B * T <= mL * 16776704 * L * T) by nia.
    nia. }
  pose proof (round_aux_Z_lower prec32 emax32 prec32_pos emin32_in_units P (e + -9) mB eB
                ltac:(lia) ltac:(unfold UNIT; lia) HmB HcB HvP) as Hlow.
  pose proof (round_aux_Z_canonical prec32 emax32 prec32_pos P (e + -9) ltac:(lia) Hrd)
    as Hcan.
  destruct (round_aux_Z prec32 emax32 P (e + -9)) as [m' e'] eqn:ER. cbn [fst snd] in *.
  assert (Hpos : 0 < m').
  { pose proof (val_pos mB eB HmB ltac:(unfold UNIT; lia)).
    unfold val in *. destruct (Z_lt_ge_dec 0 m'); [assumption | exfalso].
    assert (He' : 0 <= 2 ^ (e' + UNIT)) by (apply Z.pow_nonneg; lia). nia. }
  unfold of_round. cbn [fst snd].
  destruct m' as [| p | p]; try lia.
  destruct (Z.leb_spec e' (emax32 - prec32)) as [Hfin | Hinf]; [right | left; reflexivity].
  exists p, e'. split; [reflexivity |]. split; [| assumption].
  apply canonical_bounded; [apply Hcan; lia | assumption].
Qed.

Lemma one32_eq lm : @f_lit (arith lm) 1 = S754_finite false 8388608 (-23).
Proof. vm_compute. reflexivity. Qed.

Lemma minus_full_eq lm :
  @f_lit (arith lm) (- (16385 # 16384)) = S754_finite true 8389120 (-23).
Proof. vm_compute. reflexivity. Qed.

Lemma G_bounded : bounded prec32 emax32 16776704 (-9) = true.
Proof. vm_compute. reflexivity. Qed.
Lemma N_bounded : bounded prec32 emax32 8388608 (-8) = true.
Proof. vm_compute. reflexivity. Qed.
Lemma one_bounded : bounded prec32 emax32 8388608 (-23) = true.
Proof. vm_compute. reflexivity. Qed.
Lemma full_bounded : bounded prec32 emax32 8389120 (-23) = true.
Proof. vm_compute. reflexivity. Qed.

(** X8. Full scale.  In IEEE arithmetic every binary32 sample at or
    above 1.0, [+inf] included, is quantized to 32767, and every sample at
    or below -16385/16384 = -1.000061, [-inf] included, to -32768: beyond
    full scale the quantizer saturates. *)
Theorem convert_sample_full_scale (lm : libm) (x : spec_float) :
  valid_binary prec32 emax32 x = true ->
  (SFleb (@f_lit (arith lm) 1) x = true ->
     @convert_sample (arith lm) x = Some 32767) /\
  (SFleb x (@f_lit (arith lm) (- (16385 # 16384))) = true ->
     @convert_sample (arith lm) x = Some (-32768)).
Proof.
  intros Hv. rewrite (one32_eq lm), (minus_full_eq lm). 
  rewrite convert_sample_clamp_cast.
  destruct x as [s | s | | s m e].
  - split; discriminate.
  - destruct s; split; try discriminate; intros _; reflexivity.
  - split; discriminate.
  - cbn [valid_binary] in Hv. split.
    + (* at or above 1.0 *)
      intros Hge. destruct s; [discriminate Hge |].
      unfold SFleb in Hge.
      rewrite (proj1 (SFcompare_canonical prec32 emax32 prec32_pos emin32_in_units
                        _ _ _ _ one_bounded Hv)) in Hge.
      assert (Hval : val 8388608 (-23) <= val (Zpos m) e).
      { destruct (Z.compare_spec (val 8388608 (-23)) (val (Zpos m) e));
          [lia | lia | discriminate Hge]. }
      destruct (gain_product_lower false m e 8388608 (-23) 16776704 (-9) Hv
                  ltac:(lia) ltac:(lia) Hval ltac:(lia) eq_refl
                  ltac:(vm_compute; discriminate))
        as [-> | (m' & e' & -> & Hb' & Hlow)]; [reflexivity |].
      unfold clamp_cast, SFltb.
      rewrite (proj1 (SFcompare_canonical prec32 emax32 prec32_pos emin32_in_units
                        _ _ _ _ G_bounded Hb')).
      destruct (Z.compare_spec (val 16776704 (-9)) (val (Zpos m') e')) as [Heq | Hlt | Hgt].
      * destruct (canonical_unique prec32 emax32 prec32_pos emin32_in_units
                    _ _ _ _ G_bounded Hb' Heq) as [<- <-]. reflexivity.
      * reflexivity.
      * lia.
    + (* at or below -1.000061 *)
      intros Hle. destruct s; [| discriminate Hle].
      unfold SFleb in Hle.
      rewrite (proj2 (SFcompare_canonical prec32 emax32 prec32_pos emin32_in_units
                        _ _ _ _ Hv full_bounded)) in Hle.
      assert (Hval : val 8389120 (-23) <= val (Zpos m) e).
      { destruct (Z.compare_spec (val 8389120 (-23)) (val (Zpos m) e));
          [lia | lia | discriminate Hle]. }
      destruct (gain_product_lower true m e 8389120 (-23) 8388608 (-8) Hv
                  ltac:(lia) ltac:(lia) Hval ltac:(lia) eq_refl
                  ltac:(vm_compute; discriminate))
        as [-> | (m' & e' & -> & Hb' & Hlow)]; [reflexivity |].
      unfold clamp_cast, SFltb.
      change (SFcompare (S754_finite false 16776704 (-9)) (S754_finite true m' e'))
        with (Some Gt).
      cbv iota.
      rewrite (proj2 (SFcompare_canonical prec32 emax32 prec32_pos emin32_in_units
                        _ _ _ _ Hb' N_bounded)).
      destruct (Z.compare_spec (val 8388608 (-8)) (val (Zpos m') e')) as [Heq | Hlt | Hgt].
      * destruct (canonical_unique prec32 emax32 prec32_pos emin32_in_units
                    _ _ _ _ N_bounded Hb' Heq) as [<- <-]. reflexivity.
      * reflexivity.
      * lia.
Qed.
End FullScale.

(** ** One turn of the capture loop, in IEEE arithmetic *)

Section Turn.
Import IEEE FMrec Rounding.

Lemma bounded_search (P : Z -> Prop) (q : Z) :
  (forall k, {P k} + {~ P k}) ->
  (exists k, 0 <= k < q /\ P k) \/ (forall k, 0 <= k < q -> ~ P k).
Proof.
  intros Hdec.
  assert (H : forall n : nat,
            (exists k, 0 <= k < Z.of_nat n /\ P k) \/
            (forall k, 0 <= k < Z.of_nat n -> ~ P k)).
  { induction n as [| n [IH | IH]].
    - right. intros k Hk. lia.
    - left. destruct IH as (k & Hk & HP). exists k. split; [lia | assumption].
    - destruct (Hdec (Z.of_nat n)) as [HP | HP].
      + left. exists (Z.of_nat n). split; [lia | assumption].
      + right. intros k Hk. destruct (Z.eq_dec k (Z.of_nat n)) as [-> | Hne];
          [assumption | apply IH; lia]. }
  destruct (Z_le_gt_dec q 0) as [Hq | Hq]; [right; intros; lia |].
  replace q with (Z.of_nat (Z.to_nat q)) by lia. apply H.
Qed.

Lemma is_nan_dec (o : option spec_float) : {o = Some S754_nan} + {o <> Some S754_nan}.
Proof.
  destruct o as [[| | |] |]; (left; reflexivity) || (right; discriminate).
Qed.

Lemma not_nan_sign x : x <> S754_nan -> exists s, sign_of x = Some s.
Proof. destruct x; try congruence; eauto. Qed.

(** X9. One turn of the capture loop on [2n] bytes, in IEEE arithmetic
    and with arrays as long as [main] declares them.  Demodulation and
    decimation run to completion; the turn as a whole is undefined exactly
    when one of the decimated samples [out[20k]], [k < n / 20], is NaN,
    whose cast to [int16_t] is undefined.  When it is defined, the turn
    hands [fwrite] exactly [n / 20] PCM samples, every one within
    [[-32768, 32767]], and leaves the two working arrays with their
    lengths, ready for the next turn. *)
Theorem process_buffer_block (lm : libm) (st : @state (arith lm))
    (buffer : list Z) (n : Z) :
  1 <= n -> Z.of_nat (length buffer) = 2 * n ->
  n <= Z.of_nat (length (freq_samples st)) ->
  n ÷ 20 <= Z.of_nat (length (freq_samples_decimated st)) ->
  exists out r dec,
    demodulate (freq_samples st) (last_sample st) buffer (2 * n) = Some (out, r) /\
    decimate (freq_samples_decimated st) out n = Some (dec, n ÷ 20) /\
    length out = length (freq_samples st) /\
    length dec = length (freq_samples_decimated st) /\
    (process_buffer st buffer (2 * n) = None <->
       exists k, 0 <= k < n ÷ 20 /\ load out (k * 20) = Some S754_nan) /\
    (forall st' pcm, process_buffer st buffer (2 * n) = Some (st', pcm) ->
       st' = {| freq_samples := out; freq_samples_decimated := dec;
                last_sample := r |} /\
       Z.of_nat (length pcm) = n ÷ 20 /\
       forall k z, load pcm k = Some z -> -32768 <= z <= 32767).
Proof.
  intros Hn Hbuf Hfs Hdec.
  destruct (demodulate_run (freq_samples st) (last_sample st) buffer n)
    as (Is & Qs & g & d & out & r & _ & _ & _ & _ & _ & _ & _ & Hdem); [lia.. |].
  destruct (demodulate_Some _ _ _ _ _ _ Hdem) as (_ & [Hlo _] & _).
  destruct (decimate_run (freq_samples_decimated st) out n)
    as (dec & Hdc & Hld & Hw & _); [lia | lia |].
  assert (Hq : 0 <= n ÷ 20) by (apply Z.quot_pos; lia).
  exists out, r, dec.
  split; [assumption |]. split; [assumption |]. split; [assumption |].
  split; [assumption |].
  assert (Hpb : process_buffer st buffer (2 * n) =
            pcm ← convert_samples (malloc 0 (n ÷ 20)) dec (n ÷ 20);
            Some ({| freq_samples := out; freq_samples_decimated := dec;
                     last_sample := r |}, pcm)).
  { unfold process_buffer. rewrite Hdem. simpl.
    replace (2 * n ÷ 2) with n by (rewrite Z.mul_comm, Z.quot_mul; lia).
    rewrite Hdc. reflexivity. }
  rewrite Hpb. clear Hpb.
  assert (Hml : Z.of_nat (length (malloc 0 (n ÷ 20))) = n ÷ 20)
    by (rewrite malloc_length; lia).
  split.
  - split.
    + intros Hnone.
      destruct (bounded_search (fun k => load out (k * 20) = Some S754_nan) (n ÷ 20))
        as [Hex | Hall]; [intros k; apply is_nan_dec | assumption | exfalso].
      destruct (convert_samples_run (malloc 0 (n ÷ 20)) dec (n ÷ 20)) as [pcm Hp];
        [lia | | rewrite Hp in Hnone; discriminate].
      intros k Hk. destruct (Hw k Hk) as (x & Ex & Ed).
      assert (Hx : x <> S754_nan) by (intros ->; exact (Hall k Hk Ex)).
      destruct (not_nan_sign x Hx) as [s Hs].
      destruct (convert_sample_signed lm x s Hs) as (z & Hz & _).
      exists x, z. split; assumption.
    + intros (k & Hk & Enan).
      destruct (convert_samples (malloc 0 (n ÷ 20)) dec (n ÷ 20)) as [pcm |] eqn:Hp;
        [exfalso | reflexivity].
      destruct (convert_samples_Some _ _ _ _ Hp) as (_ & Hc & _).
      destruct (Hc k Hk) as (x & z & Ex & Ez & _).
      destruct (Hw k Hk) as (x' & Ex' & Ed').
      assert (x = S754_nan) as -> by congruence.
      rewrite convert_sample_nan in Ez. discriminate.
  - intros st' pcm H.
    destruct (convert_samples (malloc 0 (n ÷ 20)) dec (n ÷ 20)) as [pcm' |] eqn:Hp;
      [| discriminate].
    simpl in H. injection H as <- <-.
    destruct (convert_samples_Some _ _ _ _ Hp) as (Hl & Hc & Hu & _).
    split; [reflexivity |]. split; [lia |].
    intros k z Hz. pose proof (load_Some_range _ _ _ Hz) as Hr.
    destruct (Hc k) as (x & z' & Ex & Ez & El); [lia |].
    assert (z' = z) as -> by congruence.
    assert (Hx : x <> S754_nan) by (intros ->; rewrite convert_sample_nan in Ez; discriminate).
    destruct (not_nan_sign x Hx) as [s Hs].
    destruct (convert_sample_signed lm x s Hs) as (z1 & Hz1 & Hr1).
    assert (z1 = z) as -> by congruence.
    exact (signed_range_int16 s z Hr1).
Qed.
End Turn.

(** ** The samples the discriminator sees *)

Section Samples.
Import IEEE FMrec Rounding.

Lemma same_float_eq a b : same_float a b = true -> a = b.
Proof.
  destruct a as [s | s | | s m e], b as [s' | s' | | s' m' e']; cbn;
    try discriminate; try reflexivity.
  - intros H. apply Bool.eqb_prop in H. congruence.
  - intros H. apply Bool.eqb_prop in H. congruence.
  - intros H. apply andb_prop in H. destruct H as [H He].
    apply andb_prop in H. destruct H as [Hs Hm].
    apply Bool.eqb_prop in Hs. apply Pos.eqb_eq in Hm. apply Z.eqb_eq in He.
    congruence.
Qed.

Lemma exact_bytes lm : forallb (exact_byte lm) (map Z.of_nat (seq 0 256)) = true.
Proof. vm_compute. reflexivity. Qed.

(** X10. In IEEE arithmetic [convert_value] is exact on every byte: the
    result is the binary32 number whose value is [value - 127.5], with no
    rounding.  So it is never zero ([atan2] is never asked for the phase
    of the origin), it is negative exactly for the bytes below 128, and
    the bytes [v] and [255 - v] give opposite numbers. *)
Theorem convert_value_exact (lm : libm) (v : Z) :
  0 <= v <= 255 ->
  (exists s m e, @convert_value (arith lm) v = S754_finite s m e /\
     s = (v <? 128) /\ bounded prec32 emax32 m e = true) /\
  (exists q, RefLibm.Q_of_float (@convert_value (arith lm) v) = Some q /\
     (q == inject_Z v - (1275 # 10))%Q) /\
  @convert_value (arith lm) (255 - v) = SFopp (@convert_value (arith lm) v).
Proof.
  intros Hv.
  assert (Hin : In v (map Z.of_nat (seq 0 256))).
  { apply in_map_iff. exists (Z.to_nat v). split; [lia |]. apply in_seq. lia. }
  pose proof (proj1 (forallb_forall _ _) (exact_bytes lm) v Hin) as Hc.
  unfold exact_byte in Hc.
  destruct (RefLibm.Q_of_float (@convert_value (arith lm) v)) as [q |] eqn:EQ;
    [| discriminate].
  apply andb_prop in Hc. destruct Hc as [Hc H3].
  apply andb_prop in Hc. destruct Hc as [H1 H2].
  split; [| split].
  - destruct (@convert_value (arith lm) v) as [| | | s m e]; try discriminate.
    exists s, m, e. split; [reflexivity |]. split; [| exact H2].
    apply Bool.eqb_prop. exact H3.
  - exists q. split; [reflexivity |]. apply Qeq_bool_iff. exact H1.
  - apply same_float_eq.
    assert (Hall : forallb (fun v => same_float (@convert_value (arith lm) (255 - v))
                                       (SFopp (@convert_value (arith lm) v)))
                     (map Z.of_nat (seq 0 256)) = true) by (vm_compute; reflexivity).
    exact (proj1 (forallb_forall _ _) Hall v Hin).
Qed.

(** X11. Two equal consecutive I/Q samples give the frequency sample
    [+0], whatever finite phase the C library returns for them: an
    unmodulated carrier at the tuned frequency demodulates to silence. *)
Theorem same_sample_gives_zero (lm : libm) (i q : spec_float) :
  atan2_result_ok (lm_atan2 lm (to64 q) (to64 i)) ->
  @get_instant_freq (arith lm) i q i q = S754_zero false.
Proof.
  intros Hok. rewrite get_instant_freq_unfold. cbv zeta.
  pose proof (to32_atan2_small _ Hok) as Hs.
  assert (Hd : SFsub prec32 emax32 (to32 (lm_atan2 lm (to64 q) (to64 i)))
                 (to32 (lm_atan2 lm (to64 q) (to64 i))) = S754_zero false).
  { destruct (to32 (lm_atan2 lm (to64 q) (to64 i))) as [s | s | | s m e];
      try contradiction.
    - destruct s; reflexivity.
    - rewrite SFsub_finite. rewrite Z.sub_diag. reflexivity. }
  rewrite Hd. reflexivity.
Qed.
End Samples.

(** ** The filters in binary32: magnitudes *)

Section Magnitudes.
Import IEEE FMrec Rounding.

Local Abbreviation small32 := (small prec32 emax32).

Lemma Zdigits2_ge m k : 0 <= k -> 2 ^ k <= m -> k + 1 <= Zdigits2 m.
Proof.
  intros Hk Hm. pose proof (pow2_pos k Hk).
  destruct (Zdigits2_bounds m ltac:(lia)) as [_ Hu].
  pose proof (Zdigits2_pos m ltac:(lia)).
  destruct (Z_le_gt_dec (k + 1) (Zdigits2 m)); [assumption | exfalso].
  assert (2 ^ Zdigits2 m <= 2 ^ k) by (apply pow2_le; lia). lia.
Qed.

(** What [binary_round_aux] returns below a representable bound. *)
Lemma round_aux_small s mz ez mB eB :
  0 < mz -> - UNIT <= ez ->
  ez <= fexp prec32 emax32 (Zdigits2 mz + ez) ->
  0 < mB -> fexp prec32 emax32 (Zdigits2 mB + eB) = eB -> eB <= 104 ->
  val mz ez <= val mB eB ->
  small32 (val mB eB) (of_round prec32 emax32 s (round_aux_Z prec32 emax32 mz ez)).
Proof.
  intros Hmz Hez Hal HmB HcB HeB Hle.
  destruct (round_aux_Z_bound prec32 emax32 prec32_pos emin32_in_units mz ez mB eB)
    as (H0 & Hcan & Hexp & Hv); try assumption.
  { assert (- UNIT <= eB).
    { pose proof (fexp_ge prec32 emax32 (Zdigits2 mB + eB)) as H. rewrite HcB in H.
      change (emin prec32 emax32) with (-149) in H. unfold UNIT. lia. }
    pose proof (pow2_pos (eB + UNIT) ltac:(lia)). unfold val in *. lia. }
  unfold of_round.
  destruct (round_aux_Z prec32 emax32 mz ez) as [m' e']. cbn [fst snd] in *.
  destruct m' as [| p | p]; [exact I | | lia].
  change (emax32 - prec32) with 104.
  destruct (Z.leb_spec e' 104); [| lia].
  split; [| assumption].
  apply canonical_bounded; [apply Hcan; lia | change (emax32 - prec32) with 104; lia].
Qed.

(** A product by a constant with a full mantissa. *)
Lemma SFmul_const_small sc mc ec x k :
  8388608 <= Zpos mc -> -1000 <= ec <= 0 -> -149 <= ec + k <= 104 ->
  fexp prec32 emax32 (Zdigits2 (Zpos mc) + (ec + k)) = ec + k ->
  small32 (pow2u k) x ->
  small32 (val (Zpos mc) (ec + k)) (SFmul prec32 emax32 (S754_finite sc mc ec) x).
Proof.
  intros Hmc Hec Hk Hcan Hx.
  destruct x as [sx | sx | | sx mx ex]; try contradiction; [exact I |].
  destruct Hx as [Hb Hv].
  destruct (bounded32_facts mx ex Hb) as (Hex & _ & _).
  rewrite SFmul_finite.
  apply round_aux_small; try assumption; try lia.
  - unfold UNIT. lia.
  - pose proof (Zdigits2_ge (Zpos (mc * mx)) 23 ltac:(lia)) as Hd.
    change (2 ^ 23) with 8388608 in Hd.
    specialize (Hd ltac:(rewrite Pos2Z.inj_mul; nia)).
    unfold fexp, SpecFloat.fexp, prec32. lia.
  - unfold val, pow2u, UNIT in *. rewrite Pos2Z.inj_mul.
    replace (ex + 1200) with (- ec + (ec + ex + 1200)) in Hv by lia.
    replace (k + 1200) with (- ec + (ec + k + 1200)) in Hv by lia.
    rewrite (Z.pow_add_r 2 (- ec) (ec + ex + 1200)) in Hv by lia.
    rewrite (Z.pow_add_r 2 (- ec) (ec + k + 1200)) in Hv by lia.
    pose proof (pow2_pos (- ec) ltac:(lia)) as Hp.
    pose proof (pow2_pos (ec + ex + 1200) ltac:(lia)) as Hp1.
    pose proof (pow2_pos (ec + k + 1200) ltac:(lia)) as Hp2.
    set (E := 2 ^ (- ec)) in *. set (X := 2 ^ (ec + ex + 1200)) in *.
    set (K := 2 ^ (ec + k + 1200)) in *.
    assert (Z.pos mx * X <= K) by nia. nia.
Qed.

(** A sum or a difference below a representable bound. *)
Lemma SFadd_sub_small x y bx by_ mB eB :
  small32 bx x -> small32 by_ y ->
  0 < mB -> fexp prec32 emax32 (Zdigits2 mB + eB) = eB -> eB <= 104 ->
  bx + by_ <= val mB eB -> 0 <= bx -> 0 <= by_ ->
  small32 (val mB eB) (SFadd prec32 emax32 x y) /\
  small32 (val mB eB) (SFsub prec32 emax32 x y).
Proof.
  intros Hx Hy HmB HcB HeB Hsum Hbx Hby.
  destruct x as [sx | sx | | sx mx ex], y as [sy | sy | | sy my ey];
    try contradiction; cbn [small] in Hx, Hy.
  - split; destruct sx, sy; exact I.
  - split; cbn; (split; [tauto | lia]).
  - split; cbn; (split; [tauto | lia]).
  - destruct Hx as [Hb1 Hv1], Hy as [Hb2 Hv2].
    destruct (bounded32_facts mx ex Hb1) as (He1 & _ & _).
    destruct (bounded32_facts my ey Hb2) as (He2 & _ & _).
    assert (0 <= val (Zpos mx) ex)
      by (unfold val; pose proof (pow2_pos (ex + UNIT) ltac:(unfold UNIT; lia)); nia).
    assert (0 <= val (Zpos my) ey)
      by (unfold val; pose proof (pow2_pos (ey + UNIT) ltac:(unfold UNIT; lia)); nia).
    assert (- UNIT <= eB).
    { pose proof (fexp_ge prec32 emax32 (Zdigits2 mB + eB)) as H1. rewrite HcB in H1.
      change (emin prec32 emax32) with (-149) in H1. unfold UNIT. lia. }
    pose proof (pow2_pos (eB + UNIT) ltac:(lia)) as HpB.
    destruct (aligned_sum_val sx mx ex sy my ey ltac:(unfold UNIT; lia)
                ltac:(unfold UNIT; lia)) as [Hsub Hadd].
    cbv zeta in Hsub, Hadd.
    split.
    + rewrite SFadd_finite.
      apply (binary_normalize_bound prec32 emax32 prec32_pos emin32_in_units);
        [unfold UNIT; lia | assumption | assumption | change (emax32 - prec32) with 104; lia |].
      rewrite val_abs, Hadd. unfold val in Hsum.
      destruct sx, sy; cbn [cond_Zopp]; lia.
    + rewrite SFsub_finite.
      apply (binary_normalize_bound prec32 emax32 prec32_pos emin32_in_units);
        [unfold UNIT; lia | assumption | assumption | change (emax32 - prec32) with 104; lia |].
      rewrite val_abs, Hsub. unfold val in Hsum.
      destruct sx, sy; cbn [cond_Zopp]; lia.
Qed.

Lemma pow2u_val k : -1000 <= k -> pow2u k = val 8388608 (k - 23).
Proof.
  intros Hk. unfold pow2u, val, UNIT.
  replace (k + 1200) with (23 + (k - 23 + 1200)) by lia.
  rewrite (Z.pow_add_r 2 23) by lia. reflexivity.
Qed.

Lemma pow2u_canonical k :
  -126 <= k <= 127 -> fexp prec32 emax32 (Zdigits2 8388608 + (k - 23)) = k - 23.
Proof. intros H. change (Zdigits2 8388608) with 24. unfold fexp, SpecFloat.fexp, prec32, emax32, emin. lia. Qed.

Lemma full_mantissa_canonical m e :
  8388608 <= Zpos m < 16777216 -> -149 <= e ->
  fexp prec32 emax32 (Zdigits2 (Zpos m) + e) = e.
Proof.
  intros Hm He.
  assert (Zdigits2 (Zpos m) = 24) as ->.
  { apply Zdigits2_unique; [lia |]. change (2 ^ (24 - 1)) with 8388608.
    change (2 ^ 24) with 16777216. lia. }
  unfold fexp, SpecFloat.fexp, prec32, emax32, emin. lia.
Qed.

Lemma pow2u_pos k : -1000 <= k -> 0 < pow2u k.
Proof. intros. unfold pow2u. apply pow2_pos. unfold UNIT. lia. Qed.

Lemma pow2u_succ k j : -1000 <= k -> 0 <= j -> pow2u (k + j) = 2 ^ j * pow2u k.
Proof.
  intros Hk Hj. unfold pow2u. replace (k + j + UNIT) with (j + (k + UNIT)) by lia.
  apply Z.pow_add_r; unfold UNIT; lia.
Qed.

(** One step of the de-emphasis filter, for the smoothing factor the
    program computes, [alpha = 11069107 * 2^-29] (0x3ca8e6b3). *)
Lemma ema_small lm x p k :
  @alpha (arith lm) = S754_finite false 11069107 (-29) ->
  -120 <= k <= 127 ->
  small32 (pow2u k) x -> small32 (pow2u k) p ->
  small32 (pow2u k)
    (@f_add (arith lm) (@f_mul (arith lm) (@alpha (arith lm)) x)
       (@f_mul (arith lm) (@f_sub (arith lm) (@f_lit (arith lm) 1) (@alpha (arith lm))) p)).
Proof.
  intros Ha Hk Hx Hp. rewrite Ha.
  assert (Hc : @f_sub (arith lm) (f_lit 1) (S754_finite false 11069107 (-29)) =
               S754_finite false 16431306 (-24)) by (vm_compute; reflexivity).
  rewrite Hc. cbn [f_add f_mul arith].
  pose proof (SFmul_const_small false 11069107 (-29) x k ltac:(lia) ltac:(lia) ltac:(lia)
                (full_mantissa_canonical 11069107 (-29 + k) ltac:(lia) ltac:(lia)) Hx) as H1.
  pose proof (SFmul_const_small false 16431306 (-24) p k ltac:(lia) ltac:(lia) ltac:(lia)
                (full_mantissa_canonical 16431306 (-24 + k) ltac:(lia) ltac:(lia)) Hp) as H2.
  rewrite pow2u_val by lia.
  apply (SFadd_sub_small _ _ _ _ 8388608 (k - 23) H1 H2);
    [lia | apply pow2u_canonical; lia | lia | | |].
  - unfold val, UNIT.
    replace (-29 + k + 1200) with (k + 1171) by lia.
    replace (-24 + k + 1200) with (5 + (k + 1171)) by lia.
    replace (k - 23 + 1200) with (6 + (k + 1171)) by lia.
    rewrite (Z.pow_add_r 2 5), (Z.pow_add_r 2 6) by lia.
    pose proof (pow2_pos (k + 1171) ltac:(lia)). change (2 ^ 5) with 32.
    change (2 ^ 6) with 64. nia.
  - unfold val. pose proof (pow2_pos (-29 + k + UNIT) ltac:(unfold UNIT; lia)). nia.
  - unfold val. pose proof (pow2_pos (-24 + k + UNIT) ltac:(unfold UNIT; lia)). nia.
Qed.

Lemma R_pole_eq lm : @R_pole (arith lm) = S754_finite false 16609444 (-24).
Proof. vm_compute. reflexivity. Qed.

(** One step of the DC block: inputs up to [2^k], previous output up to
    [2^(k+8)]. *)
Lemma dc_step_small lm xi xl yp k :
  -120 <= k <= 119 ->
  small32 (pow2u k) xi -> small32 (pow2u k) xl -> small32 (pow2u (k + 8)) yp ->
  small32 (pow2u (k + 8))
    (@f_add (arith lm) (@f_sub (arith lm) xi xl)
       (@f_mul (arith lm) (@R_pole (arith lm)) yp)).
Proof.
  intros Hk Hi Hl Hp. rewrite R_pole_eq. cbn [f_add f_sub f_mul arith].
  pose proof (pow2u_pos k ltac:(lia)) as Hpk.
  assert (H1 : small32 (val 8388608 (k + 1 - 23)) (SFsub prec32 emax32 xi xl)).
  { apply (SFadd_sub_small xi xl (pow2u k) (pow2u k) 8388608 (k + 1 - 23) Hi Hl);
      [lia | apply pow2u_canonical; lia | lia | | lia | lia].
    rewrite <- pow2u_val by lia. rewrite (pow2u_succ k 1) by lia. change (2 ^ 1) with 2. lia. }
  pose proof (SFmul_const_small false 16609444 (-24) yp (k + 8) ltac:(lia) ltac:(lia)
                ltac:(lia) (full_mantissa_canonical 16609444 (-24 + (k + 8)) ltac:(lia)
                              ltac:(lia)) Hp) as H2.
  rewrite (pow2u_val (k + 8)) by lia.
  apply (SFadd_sub_small _ _ _ _ 8388608 (k + 8 - 23) H1 H2);
    [lia | apply pow2u_canonical; lia | lia | | |].
  - unfold val, UNIT.
    replace (k + 1 - 23 + 1200) with (8 + (k + 1170)) by lia.
    replace (-24 + (k + 8) + 1200) with (14 + (k + 1170)) by lia.
    replace (k + 8 - 23 + 1200) with (15 + (k + 1170)) by lia.
    rewrite (Z.pow_add_r 2 8), (Z.pow_add_r 2 14), (Z.pow_add_r 2 15) by lia.
    pose proof (pow2_pos (k + 1170) ltac:(lia)).
    change (2 ^ 8) with 256. change (2 ^ 14) with 16384. change (2 ^ 15) with 32768. nia.
  - unfold val. pose proof (pow2_pos (k + 1 - 23 + UNIT) ltac:(unfold UNIT; lia)). nia.
  - unfold val. pose proof (pow2_pos (-24 + (k + 8) + UNIT) ltac:(unfold UNIT; lia)). nia.
Qed.

(** The de-emphasis filter on samples of magnitude at most [2^k]. *)
Lemma deemphasize_filter_small (lm : libm) (fs : list spec_float)
    (last : spec_float) (len k : Z) :
  @alpha (arith lm) = S754_finite false 11069107 (-29) ->
  -120 <= k <= 127 ->
  1 <= len <= Z.of_nat (length fs) ->
  small32 (pow2u k) last ->
  (forall i x, 0 <= i < len -> load fs i = Some x -> small32 (pow2u k) x) ->
  exists out, @deemphasize_filter (arith lm) fs last len = Some out /\
    forall i, 0 <= i < len -> exists y, load out i = Some y /\ small32 (pow2u k) y.
Proof.
  intros Ha Hk Hlen Hlast Hin.
  destruct (@deemphasize_filter_run (arith lm) fs last len Hlen)
    as (d & Hd & Hl & (x0 & E0 & H0) & Hw & Hu).
  exists d. split; [assumption |].
  assert (Hall : forall n : nat, Z.of_nat n < len ->
            exists y, load d (Z.of_nat n) = Some y /\ small32 (pow2u k) y).
  { induction n as [| n IH]; intros Hn.
    - eexists. split; [exact H0 |].
      apply ema_small; [assumption | assumption | | assumption].
      apply (Hin 0); [lia | assumption].
    - destruct (Hw (Z.of_nat (Datatypes.S n))) as (xi & yp & Exi & Eyp & E); [lia |].
      replace (Z.of_nat (Datatypes.S n) - 1) with (Z.of_nat n) in Eyp by lia.
      destruct IH as (y & Ey & Hy); [lia |].
      assert (yp = y) as -> by congruence.
      eexists. split; [exact E |].
      apply ema_small; [assumption | assumption | | assumption].
      apply (Hin (Z.of_nat (Datatypes.S n))); [lia | assumption]. }
  intros i Hi. replace i with (Z.of_nat (Z.to_nat i)) by lia. apply Hall. lia.
Qed.

(** The DC block on samples of magnitude at most [2^k]. *)
Lemma dc_block_filter_small (lm : libm) (buf : list spec_float) (len k : Z) :
  -120 <= k <= 119 ->
  1 <= len <= Z.of_nat (length buf) ->
  (forall i x, 0 <= i < len -> load buf i = Some x -> small32 (pow2u k) x) ->
  exists out, @dc_block_filter (arith lm) buf len = Some out /\
    (exists y, load out 0 = Some y /\ small32 (pow2u k) y) /\
    forall i, 0 <= i < len ->
      exists y, load out i = Some y /\ small32 (pow2u (k + 8)) y.
Proof.
  intros Hk Hlen Hin.
  destruct (@dc_block_filter_run (arith lm) buf len Hlen)
    as (out & Ho & Hl & H0 & Hw & Hu).
  exists out. split; [assumption |].
  destruct (load_in_range buf 0) as [x0 E0]; [lia |].
  pose proof (Hin 0 x0 ltac:(lia) E0) as Hx0.
  assert (Hmono : pow2u k <= pow2u (k + 8)).
  { rewrite (pow2u_succ k 8) by lia. pose proof (pow2u_pos k ltac:(lia)).
    change (2 ^ 8) with 256. lia. }
  split; [exists x0; split; [rewrite H0; exact E0 | assumption] |].
  assert (Hall : forall n : nat, Z.of_nat n < len ->
            exists y, load out (Z.of_nat n) = Some y /\ small32 (pow2u (k + 8)) y).
  { induction n as [| n IH]; intros Hn.
    - exists x0. split; [change (Z.of_nat 0) with 0; rewrite H0; exact E0 |].
      apply (small_weaken _ _ _ _ _ Hmono Hx0).
    - destruct (Hw (Z.of_nat (Datatypes.S n))) as (xi & xl & yp & Exi & Exl & Eyp & E);
        [lia |].
      replace (Z.of_nat (Datatypes.S n) - 1) with (Z.of_nat n) in Eyp, Exl by lia.
      destruct IH as (y & Ey & Hy); [lia |].
      assert (yp = y) as -> by congruence.
      eexists. split; [exact E |].
      apply dc_step_small; [assumption | | | assumption].
      + apply (Hin (Z.of_nat (Datatypes.S n))); [lia | assumption].
      + apply (Hin (Z.of_nat n)); [lia | assumption]. }
  intros i Hi. replace i with (Z.of_nat (Z.to_nat i)) by lia. apply Hall. lia.
Qed.
(** X12. The de-emphasis filter does not overshoot, roundings included:
    in binary32, with the smoothing factor the program computes
    ([alpha = 11069107 * 2^-29 = 0.0206], 0x3ca8e6b3), if the carry and
    the [len] input samples are finite numbers of magnitude at most [2^k],
    so is every one of the [len] outputs.  No output overflows and none is
    NaN. *)
Theorem deemphasize_filter_bounded (lm : libm) (fs : list spec_float)
    (last : spec_float) (len k : Z) :
  @alpha (arith lm) = S754_finite false 11069107 (-29) ->
  -120 <= k <= 127 ->
  1 <= len <= Z.of_nat (length fs) ->
  small32 (pow2u k) last ->
  (forall i x, 0 <= i < len -> load fs i = Some x -> small32 (pow2u k) x) ->
  exists out, @deemphasize_filter (arith lm) fs last len = Some out /\
    forall i, 0 <= i < len -> exists y, load out i = Some y /\ small32 (pow2u k) y.
Proof. exact (deemphasize_filter_small lm fs last len k). Qed.

(** X13. The DC block amplifies by less than 256, roundings included: in
    binary32, if the [len] input samples are finite numbers of magnitude at
    most [2^k], every output is a finite number of magnitude at most
    [2^(k+8)], and cell 0 is still at most [2^k].  No output overflows and
    none is NaN. *)
Theorem dc_block_filter_bounded (lm : libm) (buf : list spec_float) (len k : Z) :
  -120 <= k <= 119 ->
  1 <= len <= Z.of_nat (length buf) ->
  (forall i x, 0 <= i < len -> load buf i = Some x -> small32 (pow2u k) x) ->
  exists out, @dc_block_filter (arith lm) buf len = Some out /\
    (exists y, load out 0 = Some y /\ small32 (pow2u k) y) /\
    forall i, 0 <= i < len ->
      exists y, load out i = Some y /\ small32 (pow2u (k + 8)) y.
Proof. exact (dc_block_filter_small lm buf len k). Qed.

End Magnitudes.

(** ** A turn that cannot go wrong *)

Section SafeTurn.
Import IEEE FMrec Rounding.

Local Abbreviation small32 := (small prec32 emax32).

Lemma get_instant_freq_small lm i1 q1 i2 q2 :
  atan2_result_ok (lm_atan2 lm (to64 q1) (to64 i1)) ->
  atan2_result_ok (lm_atan2 lm (to64 q2) (to64 i2)) ->
  small32 (pow2u 2) (@get_instant_freq (arith lm) i1 q1 i2 q2).
Proof.
  intros H1 H2. rewrite get_instant_freq_unfold. cbv zeta.
  apply (small_weaken _ _ VPm); [vm_compute; discriminate |].
  apply unwrap_small, phase_difference_small; apply to32_atan2_small; assumption.
Qed.

Lemma small_not_nan b x : small32 b x -> x <> S754_nan.
Proof. intros H ->. exact H. Qed.

Lemma pow2u_le k k' : -1000 <= k <= k' -> pow2u k <= pow2u k'.
Proof. intros H. unfold pow2u. apply pow2_le. unfold UNIT. lia. Qed.

(** X14. A turn that cannot go wrong.  In IEEE arithmetic, with
    [alpha = 11069107 * 2^-29] and arrays as long as [main] declares them:
    if [atan2] keeps its contract on the I/Q pairs of the buffer, and the
    carry and the cell [n - 1] the discriminator leaves as it was are
    finite numbers of magnitude at most [2^k], [2 <= k <= 111], then the
    turn is defined: no access leaves an array, no sample is NaN, every
    cast to [int16_t] is defined.  The new carry and the [n] new cells of
    the frequency array are finite, of magnitude at most [2^(k+8)]. *)
Theorem process_buffer_defined (lm : libm) (st : @state (arith lm))
    (buffer : list Z) (n k : Z) :
  @alpha (arith lm) = S754_finite false 11069107 (-29) ->
  2 <= k <= 111 ->
  1 <= n -> Z.of_nat (length buffer) = 2 * n ->
  n <= Z.of_nat (length (freq_samples st)) ->
  n ÷ 20 <= Z.of_nat (length (freq_samples_decimated st)) ->
  (forall m bi bq, 0 <= m < n ->
     load buffer (2 * m) = Some bi -> load buffer (2 * m + 1) = Some bq ->
     atan2_result_ok
       (lm_atan2 lm (to64 (@convert_value (arith lm) bq))
          (to64 (@convert_value (arith lm) bi)))) ->
  small32 (pow2u k) (last_sample st) ->
  (forall x, load (freq_samples st) (n - 1) = Some x -> small32 (pow2u k) x) ->
  exists st' pcm,
    process_buffer st buffer (2 * n) = Some (st', pcm) /\
    Z.of_nat (length pcm) = n ÷ 20 /\
    small32 (pow2u (k + 8)) (last_sample st') /\
    forall i, 0 <= i < n ->
      exists y, load (freq_samples st') i = Some y /\ small32 (pow2u (k + 8)) y.
Proof.
  intros Ha Hk Hn Hbuf Hfs Hdec Hatan Hlast Hstale.
  destruct (demodulate_run (freq_samples st) (last_sample st) buffer n)
    as (Is & Qs & g & d & out & r & HlI & HlQ & Hsplit & Hg & Hd & Ho & Hr & Hdem);
    [lia.. |].
  destruct (get_freq_values_run (freq_samples st) Is Qs n)
    as (g' & Hg' & Hgl & Hgw & Hgu); [lia.. |].
  assert (g' = g) as -> by congruence.
  (* the discriminator's samples and the stale cell *)
  assert (Hgs : forall i x, 0 <= i < n -> load g i = Some x -> small32 (pow2u k) x).
  { intros i x Hi Ex. destruct (Z_lt_ge_dec i (n - 1)) as [Hlt | Hge].
    - destruct (Hgw i) as (i1 & q1 & i2 & q2 & E1 & E2 & E3 & E4 & E5); [lia |].
      destruct (Hsplit i) as (b1 & c1 & B1 & C1 & I1 & Q1); [lia |].
      destruct (Hsplit (i + 1)) as (b2 & c2 & B2 & C2 & I2 & Q2); [lia |].
      replace (2 * (i + 1)) with (2 * i + 2) in B2 by lia.
      replace (2 * i + 2 + 1) with (2 * (i + 1) + 1) in C2 by lia.
      assert (x = @get_instant_freq (arith lm) i1 q1 i2 q2) as -> by congruence.
      apply (small_weaken _ _ (pow2u 2)); [apply pow2u_le; lia |].
      assert (i1 = @convert_value (arith lm) b1) as -> by congruence.
      assert (q1 = @convert_value (arith lm) c1) as -> by congruence.
      assert (i2 = @convert_value (arith lm) b2) as -> by congruence.
      assert (q2 = @convert_value (arith lm) c2) as -> by congruence.
      apply get_instant_freq_small.
      + apply (Hatan i); [lia | assumption | assumption].
      + apply (Hatan (i + 1)); [lia | |].
        * replace (2 * (i + 1)) with (2 * i + 2) by lia. assumption.
        * assumption.
    - assert (i = n - 1) as -> by lia.
      apply Hstale. rewrite <- Hgu by lia. assumption. }
  assert (Hglen : n <= Z.of_nat (length g)) by (rewrite Hgl; lia).
  assert (Hng : 1 <= n <= Z.of_nat (@length spec_float g))
    by (split; [exact Hn | exact Hglen]).
  destruct (deemphasize_filter_small lm g (last_sample st) n k Ha ltac:(lia) Hng
              Hlast Hgs) as (d' & Hd' & Hds).
  assert (d' = d) as -> by congruence.
  destruct (deemphasize_filter_Some _ _ _ _ Hd) as ([Hdl _] & _ & _).
  assert (Hdsx : forall i x, 0 <= i < n -> load d i = Some x -> small32 (pow2u k) x).
  { intros i x Hi Ex. destruct (Hds i Hi) as (y & Ey & Hy).
    assert (x = y) as -> by congruence. assumption. }
  assert (Hnd : 1 <= n <= Z.of_nat (@length spec_float d)).
  { split; [exact Hn |]. exact (eq_ind_r (fun l => n <= Z.of_nat l) Hglen Hdl). }
  destruct (dc_block_filter_small lm d n k ltac:(lia) Hnd Hdsx)
    as (o' & Ho' & _ & Hos).
  assert (o' = out) as -> by congruence.
  destruct (dc_block_filter_Some _ _ _ Ho) as ([Hol _] & _ & _ & _).
  destruct (decimate_run (freq_samples_decimated st) out n)
    as (dec & Hdc & Hld & Hw & _); [lia | lia |].
  assert (Hq : 0 <= n ÷ 20) by (apply Z.quot_pos; lia).
  assert (Hqn : 20 * (n ÷ 20) <= n) by (apply Z.mul_quot_le; lia).
  destruct (convert_samples_run (malloc 0 (n ÷ 20)) dec (n ÷ 20)) as [pcm Hp].
  { rewrite malloc_length. lia. }
  { intros j Hj. destruct (Hw j Hj) as (x & Ex & Ed).
    destruct (Hos (j * 20)) as (y & Ey & Hy); [lia |].
    assert (x = y) as -> by congruence.
    destruct (not_nan_sign y (small_not_nan _ _ Hy)) as [s Hs].
    destruct (convert_sample_signed lm y s Hs) as (z & Hz & _).
    exists y, z. split; assumption. }
  exists {| freq_samples := out; freq_samples_decimated := dec; last_sample := r |}, pcm.
  split; [| split; [| split]].
  - unfold process_buffer. rewrite Hdem. simpl.
    replace (2 * n ÷ 2) with n by (rewrite Z.mul_comm, Z.quot_mul; lia).
    rewrite Hdc. simpl. rewrite Hp. reflexivity.
  - destruct (convert_samples_Some _ _ _ _ Hp) as (Hl & _).
    rewrite Hl, malloc_length. lia.
  - cbn [last_sample]. destruct (Hos (n - 1)) as (y & Ey & Hy); [lia |].
    assert (r = y) as -> by congruence. assumption.
  - cbn [freq_samples]. intros i Hi. apply Hos. assumption.
Qed.
End SafeTurn.

(** ** The driver *)

Section DriverFacts.
Context {A : CArith} {C : CConv A}.
Import FMrec Driver.

Lemma emit_eq (e : event) (r : run) evs o :
  emit e r = (evs, o) -> exists evs', evs = e :: evs' /\ r = (evs', o).
Proof. destruct r as [evs' o']. unfold emit. cbn. intros [= <- <-]. eauto. Qed.

Lemma to_long_range z : LONG_MIN <= to_long z <= LONG_MAX.
Proof.
  unfold to_long, LONG_MIN, LONG_MAX.
  pose proof (Z.mod_pos_bound (z + 2 ^ 63) (2 ^ 64) ltac:(lia)). lia.
Qed.

Lemma to_long_id z : LONG_MIN <= z <= LONG_MAX -> to_long z = z.
Proof.
  unfold to_long, LONG_MIN, LONG_MAX. intros H.
  rewrite Z.mod_small by lia. lia.
Qed.

Lemma to_long_add a b : to_long (to_long a + b) = to_long (a + b).
Proof.
  unfold to_long.
  replace ((a + 2 ^ 63) mod 2 ^ 64 - 2 ^ 63 + b + 2 ^ 63)
    with ((a + 2 ^ 63) mod 2 ^ 64 + b) by lia.
  rewrite Zplus_mod_idemp_l. f_equal. f_equal. lia.
Qed.

Lemma u32_to_long z : u32 (to_long z) = u32 z.
Proof.
  unfold u32, to_long.
  pose proof (Z.div_mod (z + 2 ^ 63) (2 ^ 64) ltac:(lia)) as H.
  replace ((z + 2 ^ 63) mod 2 ^ 64 - 2 ^ 63)
    with (z + (- ((z + 2 ^ 63) / 2 ^ 64) * 2 ^ 32) * 2 ^ 32).
  - apply Z_mod_plus_full.
  - change (2 ^ 64) with (2 ^ 32 * 2 ^ 32) in *. lia.
Qed.

Lemma u32_add_to_long c z : u32 (c + to_long z) = u32 (c + z).
Proof.
  unfold u32. rewrite <- Zplus_mod_idemp_r. fold (u32 (to_long z)).
  rewrite u32_to_long. unfold u32. rewrite Zplus_mod_idemp_r. reflexivity.
Qed.

Lemma decimate_count (dec fs d : list float) (len c : Z) :
  decimate dec fs len = Some (d, c) -> c = len ÷ DECIMATION_FACTOR.
Proof.
  unfold decimate.
  destruct (for_loop _ _ _ _ _) as [[j d'] |]; [| discriminate].
  simpl. intros [= _ <-]. reflexivity.
Qed.

Lemma samples_written_app (a b : list event) :
  samples_written (a ++ b) = samples_written a ++ samples_written b.
Proof. unfold samples_written. rewrite omap_app, concat_app. reflexivity. Qed.

Lemma headers_written_app (a b : list event) :
  headers_written (a ++ b) = headers_written a ++ headers_written b.
Proof. unfold headers_written. apply omap_app. Qed.

Lemma reads_made_app (a b : list event) :
  reads_made (a ++ b) = reads_made a ++ reads_made b.
Proof. unfold reads_made. apply omap_app. Qed.

(** The message of a failed read. *)
Local Abbreviation read_error :=
  (fprintf_stderr ("An error occurred while reading IQ samples." +:+ newline)).

(** One turn of the loop: how it can end, or go on. *)
Lemma capture_turn size total rd rds (l : locals) rest evs o :
  capture size total (rd :: rds) l rest = (evs, o) ->
  bytes_count l < total ->
  (evs = [rtlsdr_read_sync size; read_error] /\ o = Exited 1 /\ result rd < 0) \/
  (evs = [rtlsdr_read_sync size] /\ o = Undefined) \/
  (exists pcm, evs = [rtlsdr_read_sync size; fwrite_samples pcm] /\ o = Undefined) \/
  (exists pcm l' evs',
     evs = rtlsdr_read_sync size :: fwrite_samples pcm :: evs' /\
     0 <= result rd /\
     capture size total rds l' rest = (evs', o) /\
     (0 <= size -> Z.of_nat (length pcm) = size ÷ 2 ÷ 20) /\
     total_audio_bytes l' = to_long (total_audio_bytes l + (size ÷ 2 ÷ 20) * 2) /\
     bytes_count l' = bytes_count l + n_read rd).
Proof.
  intros H Hlt. cbn [capture] in H. rewrite decide_True in H by assumption.
  apply emit_eq in H. destruct H as (evs1 & -> & H). cbv zeta in H.
  destruct (decide (result rd < 0)) as [Herr | Hok].
  { apply emit_eq in H. destruct H as (evs2 & -> & [= <- <-]).
    left. split; [reflexivity |]. split; [reflexivity | assumption]. }
  destruct (demodulate _ _ _ _) as [[fs ls] |];
    [| injection H as <- <-; right; left; split; reflexivity].
  destruct (decimate _ _ _) as [[dec stw] |] eqn:Edec;
    [| injection H as <- <-; right; left; split; reflexivity].
  apply decimate_count in Edec. change DECIMATION_FACTOR with 20 in Edec. subst stw.
  destruct (convert_samples _ _ _) as [pcm |] eqn:Epcm;
    [| injection H as <- <-; right; left; split; reflexivity].
  apply emit_eq in H. destruct H as (evs2 & -> & H).
  unfold int_of in H.
  destruct (decide (INT_MIN <= bytes_count l + n_read rd <= INT_MAX)) as [Hr | Hr];
    [| injection H as <- <-; right; right; left; eexists; split; reflexivity].
  right; right; right. eexists pcm, _, evs2.
  split; [reflexivity |]. split; [lia |]. split; [exact H |].
  cbn [total_audio_bytes bytes_count].
  split; [| split; reflexivity].
  intros Hsize. destruct (convert_samples_Some _ _ _ _ Epcm) as (Hl & _).
  rewrite Hl, malloc_length.
  assert (0 <= size ÷ 2 ÷ 20) by (apply Z.quot_pos; [apply Z.quot_pos |]; lia). lia.
Qed.

Lemma capture_done size total rds (l : locals) rest :
  ~ bytes_count l < total -> capture size total rds l rest = rest l.
Proof.
  intros H. destruct rds; cbn [capture]; rewrite decide_False by assumption; reflexivity.
Qed.

Lemma capture_blocked size total (l : locals) rest :
  bytes_count l < total -> capture size total [] l rest = ([], Blocked).
Proof. intros H. cbn [capture]. rewrite decide_True by assumption. reflexivity. Qed.

(** A loop that is left normally: what it wrote and counted. *)
Lemma capture_Returned size total rds : forall (l : locals) rest evs st,
  0 <= size -> LONG_MIN <= total_audio_bytes l <= LONG_MAX ->
  capture size total rds l rest = (evs, Returned st) ->
  exists evs1 evs2 l',
    evs = evs1 ++ evs2 /\ rest l' = (evs2, Returned st) /\
    headers_written evs1 = [] /\
    total_audio_bytes l' =
      to_long (total_audio_bytes l + 2 * Z.of_nat (length (samples_written evs1))).
Proof.
  induction rds as [| rd rds IH]; intros l rest evs st Hsize Hlong H.
  - destruct (decide (bytes_count l < total)) as [Hlt | Hge].
    + rewrite capture_blocked in H by assumption. discriminate.
    + rewrite capture_done in H by assumption.
      exists [], evs, l. split; [reflexivity |]. split; [assumption |].
      split; [reflexivity |]. cbn. rewrite Z.add_0_r. symmetry. apply to_long_id. assumption.
  - destruct (decide (bytes_count l < total)) as [Hlt | Hge].
    + destruct (capture_turn _ _ _ _ _ _ _ _ H Hlt)
        as [(_ & Ho & _) | [(_ & Ho) | [(pcm & _ & Ho) |
            (pcm & l' & evs' & -> & _ & Hrec & Hlen & Htot & _)]]];
        try discriminate.
      destruct (IH l' rest evs' st Hsize) as (evs1 & evs2 & l2 & -> & Hrest & Hh & Ht);
        [rewrite Htot; apply to_long_range | assumption |].
      exists (rtlsdr_read_sync size :: fwrite_samples pcm :: evs1), evs2, l2.
      split; [reflexivity |]. split; [assumption |]. split; [exact Hh |].
      rewrite Ht, Htot, to_long_add. f_equal.
      change (samples_written (rtlsdr_read_sync size :: fwrite_samples pcm :: evs1))
        with (pcm ++ samples_written evs1).
      rewrite length_app, Nat2Z.inj_add, (Hlen Hsize). lia.
    + rewrite capture_done in H by assumption.
      exists [], evs, l. split; [reflexivity |]. split; [assumption |].
      split; [reflexivity |]. cbn. rewrite Z.add_0_r. symmetry. apply to_long_id. assumption.
Qed.

(** A loop that ends on [exit]: a read failed. *)
Lemma capture_Exited size total rds : forall (l : locals) rest evs st,
  (forall l' st', (rest l').2 <> Exited st') ->
  capture size total rds l rest = (evs, Exited st) ->
  st = 1 /\ headers_written evs = [] /\ (fclose ∉ evs) /\
  exists pre, evs = pre ++ [rtlsdr_read_sync size; read_error].
Proof.
  induction rds as [| rd rds IH]; intros l rest evs st Hrest H.
  - destruct (decide (bytes_count l < total)) as [Hlt | Hge].
    + rewrite capture_blocked in H by assumption. discriminate.
    + rewrite capture_done in H by assumption.
      exfalso. apply (Hrest l st). rewrite H. reflexivity.
  - destruct (decide (bytes_count l < total)) as [Hlt | Hge].
    + destruct (capture_turn _ _ _ _ _ _ _ _ H Hlt)
        as [(-> & Ho & _) | [(_ & Ho) | [(pcm & _ & Ho) |
            (pcm & l' & evs' & -> & _ & Hrec & _)]]];
        try discriminate.
      * injection Ho as ->. split; [reflexivity |]. split; [reflexivity |].
        split; [| exists []; reflexivity].
        intros Hin. repeat (apply elem_of_cons in Hin; destruct Hin as [Hin | Hin];
                            [discriminate |]). inversion Hin.
      * destruct (IH l' rest evs' st Hrest Hrec) as (-> & Hh & Hc & pre & ->).
        split; [reflexivity |]. split; [exact Hh |]. split.
        -- intros Hin. repeat (apply elem_of_cons in Hin; destruct Hin as [Hin | Hin];
                               [discriminate |]). contradiction.
        -- exists (rtlsdr_read_sync size :: fwrite_samples pcm :: pre). reflexivity.
    + rewrite capture_done in H by assumption.
      exfalso. apply (Hrest l st). rewrite H. reflexivity.
Qed.

(** The number of turns when every read fills the buffer. *)
Lemma capture_full_turns size total rds : forall (l : locals) evs,
  0 < size -> (forall rd, rd ∈ rds -> n_read rd = size) ->
  capture size total rds l (fun _ => ([], Returned 0)) = (evs, Returned 0) ->
  let turns := Z.max 0 ((total - bytes_count l + size - 1) / size) in
  reads_made evs = replicate (Z.to_nat turns) size /\
  Z.of_nat (length (samples_written evs)) = turns * (size ÷ 2 ÷ 20).
Proof.
  induction rds as [| rd rds IH]; intros l evs Hsize Hfull H turns.
  - destruct (decide (bytes_count l < total)) as [Hlt | Hge].
    + rewrite capture_blocked in H by assumption. discriminate.
    + rewrite capture_done in H by assumption. injection H as <-.
      assert (turns = 0) as ->; [| split; reflexivity].
      unfold turns. apply Z.max_l. apply Z.lt_succ_r.
      apply Z.div_lt_upper_bound; lia.
  - destruct (decide (bytes_count l < total)) as [Hlt | Hge].
    + destruct (capture_turn _ _ _ _ _ _ _ _ H Hlt)
        as [(_ & Ho & _) | [(_ & Ho) | [(pcm & _ & Ho) |
            (pcm & l' & evs' & -> & _ & Hrec & Hlen & _ & Hbc)]]];
        try discriminate.
      rewrite (Hfull rd ltac:(left)) in Hbc.
      destruct (IH l' evs' Hsize) as [Hr Hs];
        [intros r Hr; apply Hfull; right; assumption | assumption |].
      assert (Hturns : turns = 1 + Z.max 0 ((total - bytes_count l' + size - 1) / size)).
      { unfold turns. rewrite Hbc.
        replace (total - bytes_count l + size - 1)
          with ((total - bytes_count l - 1) + 1 * size) by lia.
        rewrite Z.div_add by lia.
        replace (total - (bytes_count l + size) + size - 1)
          with (total - bytes_count l - 1) by lia.
        assert (0 <= (total - bytes_count l - 1) / size) by (apply Z.div_pos; lia).
        lia. }
      set (t' := Z.max 0 ((total - bytes_count l' + size - 1) / size)) in *.
      rewrite Hturns.
      replace (Z.to_nat (1 + t')) with (Datatypes.S (Z.to_nat t')) by lia.
      split.
      * change (reads_made (rtlsdr_read_sync size :: fwrite_samples pcm :: evs'))
          with (size :: reads_made evs').
        rewrite Hr. reflexivity.
      * change (samples_written (rtlsdr_read_sync size :: fwrite_samples pcm :: evs'))
          with (pcm ++ samples_written evs').
        rewrite length_app, Nat2Z.inj_add, Hs, (Hlen ltac:(lia)). lia.
    + rewrite capture_done in H by assumption. injection H as <-.
      assert (turns = 0) as ->; [| split; reflexivity].
      unfold turns. apply Z.max_l. apply Z.lt_succ_r.
      apply Z.div_lt_upper_bound; lia.
Qed.
End DriverFacts.

Section MainClaims.
Context {A : CArith} {C : CConv A}.
Import FMrec Driver.

Local Abbreviation read_error :=
  (fprintf_stderr ("An error occurred while reading IQ samples." +:+ newline)).
Local Abbreviation usage :=
  (fprintf_stderr ("Missing center frequency argument or audio duration" +:+ newline)).
Local Abbreviation open_warning :=
  (fprintf_stderr ("Failed to open SDR sdrice." +:+ newline)).

(** [SAMPLE_RATE * audio_duration * 2] in [int]. *)
Lemma total_bytes_int (d : Z) :
  (int_of (SAMPLE_RATE * d) ≫= fun t => int_of (t * 2)) =
  if decide (-1118 <= d <= 1118) then Some (1920000 * d) else None.
Proof.
  unfold int_of, INT_MIN, INT_MAX, SAMPLE_RATE.
  destruct (decide (-1118 <= d <= 1118)) as [Hd | Hd].
  - rewrite decide_True by lia. simpl. rewrite decide_True by lia. f_equal. lia.
  - destruct (decide (_ <= 960000 * d <= _)); [| reflexivity].
    simpl. rewrite decide_False by lia. reflexivity.
Qed.

(** What follows the loop. *)
Local Abbreviation finish := (fun l : locals =>
  emit (fseek_set 0)
    match long_of (36 + total_audio_bytes l) with
    | None => ([], Undefined)
    | Some chunk =>
        emit (fwrite_header (set_sizes placeholder_header chunk (total_audio_bytes l)))
          (emit fclose (emit rtlsdr_close ([], Returned 0)))
    end).

(** The calls before the header is written. *)
Local Abbreviation setup w freq :=
  (rtlsdr_open SDR_INDEX ::
   (if decide (rtlsdr_open_result w < 0) then [open_warning] else []) ++
   [rtlsdr_set_center_freq freq; rtlsdr_set_sample_rate SAMPLE_RATE;
    rtlsdr_set_tuner_gain_mode 0; rtlsdr_reset_buffer; fopen "audio.wav" "wb"]).

(** [main] with both arguments given, up to the loop. *)
Lemma main_sized_phases size (w : world) argc argv arg1 arg2 :
  argc > 1 -> load argv 1 = Some arg1 -> load argv 2 = Some arg2 ->
  match u32_of_d (d_mul (d_of_f (f_of_d (atof w arg1))) (d_lit 1000000)) with
  | None => main_sized size w argc argv =
      (rtlsdr_open SDR_INDEX ::
       (if decide (rtlsdr_open_result w < 0) then [open_warning] else []), Undefined)
  | Some freq =>
      if fopen_succeeds w then
        if decide (-1118 <= atoi w arg2 <= 1118) then
          exists l0,
            bytes_count l0 = 0 /\ total_audio_bytes l0 = 0 /\
            main_sized size w argc argv =
              ((setup w freq ++ [fwrite_header placeholder_header]) ++
               (capture size (1920000 * atoi w arg2) (reads w) l0 finish).1,
               (capture size (1920000 * atoi w arg2) (reads w) l0 finish).2)
        else
          main_sized size w argc argv =
            (setup w freq ++ [fwrite_header placeholder_header], Undefined)
      else main_sized size w argc argv = (setup w freq, Undefined)
  end.
Proof.
  intros Hargc E1 E2. unfold main_sized.
  rewrite decide_True by assumption. rewrite E1, E2. cbv zeta.
  rewrite total_bytes_int.
  destruct (u32_of_d _) as [freq |].
  - destruct (fopen_succeeds w).
    + destruct (decide (-1118 <= atoi w arg2 <= 1118)).
      * eexists. split; [| split]; [| | destruct (decide (rtlsdr_open_result w < 0));
          unfold emit; cbn [fst snd app]; reflexivity]; reflexivity.
      * destruct (decide (rtlsdr_open_result w < 0)); reflexivity.
    + destruct (decide (rtlsdr_open_result w < 0)); reflexivity.
  - destruct (decide (rtlsdr_open_result w < 0)); reflexivity.
Qed.

Lemma finish_outcome (l : locals) st' : (finish l).2 <> Exited st'.
Proof.
  cbn. destruct (long_of (36 + total_audio_bytes l)); cbn; discriminate.
Qed.

Lemma finish_Returned (l : locals) evs st :
  finish l = (evs, Returned st) ->
  st = 0 /\
  evs = [fseek_set 0;
         fwrite_header (set_sizes placeholder_header (36 + total_audio_bytes l)
                          (total_audio_bytes l));
         fclose; rtlsdr_close].
Proof.
  cbn. unfold long_of. destruct (decide _); cbn; [| discriminate].
  intros [= <- <-]. split; reflexivity.
Qed.

Lemma setup_writes w freq :
  headers_written (setup w freq) = [] /\ samples_written (setup w freq) = [] /\
  reads_made (setup w freq) = [].
Proof. destruct (decide (rtlsdr_open_result w < 0)); repeat split; reflexivity. Qed.

(** X15. The argument count.  With no argument [main] prints its usage
    line and calls [exit(1)] before any other call.  With exactly one it
    passes [argv[2]], the null pointer that ends the argument vector, to
    [atoi]: the run is undefined, although the usage line promises a check
    for the missing duration. *)
Theorem main_argument_count (size : Z) (w : world) (argc : Z) (argv : list string) :
  Z.of_nat (length argv) = argc ->
  (argc <= 1 -> main_sized size w argc argv = ([usage], Exited 1)) /\
  (argc = 2 -> main_sized size w argc argv = ([], Undefined)).
Proof.
  intros Hlen. split; intros Hargc; unfold main_sized.
  - rewrite decide_False by lia. reflexivity.
  - rewrite decide_True by lia.
    destruct (load argv 1); [| reflexivity].
    assert (E2 : load argv 2 = None).
    { destruct (load argv 2) eqn:E; [| reflexivity].
      apply load_Some_range in E. lia. }
    rewrite E2. reflexivity.
Qed.

(** X16. The duration.  [total_bytes = SAMPLE_RATE * audio_duration * 2]
    is computed in [int]: it is [1920000 * audio_duration] for
    [-1118 <= audio_duration <= 1118] and overflows otherwise.  So a run
    asked for more than 1118 seconds (18 min 38 s) is undefined; it makes
    no read and writes no sample. *)
Theorem main_duration_overflow (size : Z) (w : world) (argc : Z)
    (argv : list string) (arg2 : string) :
  argc > 1 -> load argv 2 = Some arg2 ->
  let audio_duration := atoi w arg2 in
  (int_of (SAMPLE_RATE * audio_duration) ≫= fun t => int_of (t * 2)) =
    (if decide (-1118 <= audio_duration <= 1118)
     then Some (1920000 * audio_duration) else None) /\
  (audio_duration < -1118 \/ 1118 < audio_duration ->
   (main_sized size w argc argv).2 = Undefined /\
   reads_made (main_sized size w argc argv).1 = [] /\
   samples_written (main_sized size w argc argv).1 = []).
Proof.
  intros Hargc E2 d. split; [apply total_bytes_int |]. intros Hd.
  destruct (load argv 1) as [arg1 |] eqn:E1.
  - pose proof (main_sized_phases size w argc argv arg1 arg2 Hargc E1 E2) as H.
    destruct (u32_of_d _) as [freq |].
    + destruct (fopen_succeeds w).
      * rewrite decide_False in H by (unfold d in Hd; lia). rewrite H. cbn [fst snd].
        split; [reflexivity |].
        rewrite reads_made_app, samples_written_app.
        destruct (setup_writes w freq) as (_ & -> & ->). split; reflexivity.
      * rewrite H. cbn [fst snd]. split; [reflexivity |].
        destruct (setup_writes w freq) as (_ & -> & ->). split; reflexivity.
    + rewrite H. cbn [fst snd].
      destruct (decide (rtlsdr_open_result w < 0)); repeat split; reflexivity.
  - unfold main_sized. rewrite decide_True by assumption. rewrite E1.
    repeat split; reflexivity.
Qed.

(** X17. Nothing to record.  With a duration of 0 seconds, or a negative
    one down to -1118, the loop is not entered: no read is made, no sample
    is written, and [audio.wav] ends up as the bare header with
    [chunkSize = 36] and [dataSize = 0]; [main] returns 0. *)
Theorem main_nonpositive_duration (size : Z) (w : world) (argc : Z)
    (argv : list string) (arg1 arg2 : string) (freq : Z) :
  argc > 1 -> load argv 1 = Some arg1 -> load argv 2 = Some arg2 ->
  u32_of_d (d_mul (d_of_f (f_of_d (atof w arg1))) (d_lit 1000000)) = Some freq ->
  fopen_succeeds w = true ->
  -1118 <= atoi w arg2 <= 0 ->
  main_sized size w argc argv =
    (setup w freq ++
     [fwrite_header placeholder_header; fseek_set 0;
      fwrite_header (set_sizes placeholder_header 36 0); fclose; rtlsdr_close],
     Returned 0) /\
  chunkSize (set_sizes placeholder_header 36 0) = 36 /\
  dataSize (set_sizes placeholder_header 36 0) = 0.
Proof.
  intros Hargc E1 E2 Ef Ho Hd.
  pose proof (main_sized_phases size w argc argv arg1 arg2 Hargc E1 E2) as H.
  rewrite Ef, Ho in H. rewrite decide_True in H by lia.
  destruct H as (l0 & Hb & Ht & ->).
  rewrite capture_done by lia. cbn [fst snd]. rewrite Ht.
  split; [| split; reflexivity].
  rewrite <- app_assoc. reflexivity.
Qed.

(** X18. The sizes in the header.  Whenever [main] returns, it returns 0
    and has written the header twice, first with both sizes 0 and last,
    over it, with [dataSize] twice the number of PCM samples written and
    [chunkSize] 36 more, both modulo [2^32]; the other fields are the
    same in both: PCM, one channel, 48000 Hz, 16 bits, 96000 bytes per
    second, 2 bytes per frame. *)
Theorem main_header_sizes (size : Z) (w : world) (argc : Z) (argv : list string)
    (events : list event) (status : Z) :
  0 <= size ->
  main_sized size w argc argv = (events, Returned status) ->
  let n := Z.of_nat (length (samples_written events)) in
  status = 0 /\
  headers_written events =
    [placeholder_header; set_sizes placeholder_header (36 + 2 * n) (2 * n)] /\
  chunkSize (set_sizes placeholder_header (36 + 2 * n) (2 * n)) = (36 + 2 * n) mod 2 ^ 32 /\
  dataSize (set_sizes placeholder_header (36 + 2 * n) (2 * n)) = (2 * n) mod 2 ^ 32 /\
  (audioFormat placeholder_header, numChannels placeholder_header,
   sampleRate placeholder_header, bitsPerSample placeholder_header,
   byteRate placeholder_header, blockAlign placeholder_header) =
    (1, 1, 48000, 16, 96000, 2).
Proof.
  intros Hsize H n.
  destruct (decide (argc > 1)) as [Hargc | Hargc];
    [| unfold main_sized in H; rewrite decide_False in H by assumption; discriminate].
  destruct (load argv 1) as [arg1 |] eqn:E1;
    [| unfold main_sized in H; rewrite decide_True, E1 in H by assumption; discriminate].
  destruct (load argv 2) as [arg2 |] eqn:E2;
    [| unfold main_sized in H; rewrite decide_True, E1, E2 in H by assumption;
       discriminate].
  pose proof (main_sized_phases size w argc argv arg1 arg2 Hargc E1 E2) as Hp.
  destruct (u32_of_d _) as [freq |]; [| rewrite Hp in H; discriminate].
  destruct (fopen_succeeds w); [| rewrite Hp in H; discriminate].
  destruct (decide (-1118 <= atoi w arg2 <= 1118)); [| rewrite Hp in H; discriminate].
  destruct Hp as (l0 & Hb & Ht & Hm). rewrite Hm in H. clear Hm.
  destruct (capture size (1920000 * atoi w arg2) (reads w) l0 finish) as [evs o] eqn:Ec.
  assert (Hev : events = (setup w freq ++ [fwrite_header placeholder_header]) ++ evs)
    by (apply (f_equal fst) in H; symmetry; exact H).
  assert (Ho : o = Returned status) by (apply (f_equal snd) in H; exact H).
  clear H. subst events o.
  destruct (capture_Returned _ _ _ _ _ _ _ Hsize ltac:(rewrite Ht; unfold LONG_MIN, LONG_MAX; lia) Ec)
    as (evs1 & evs2 & l' & -> & Hrest & Hh & Htot).
  apply finish_Returned in Hrest. destruct Hrest as [-> ->].
  assert (Hn : n = Z.of_nat (length (samples_written evs1))).
  { unfold n. rewrite !samples_written_app.
    destruct (setup_writes w freq) as (_ & -> & _).
    cbn [app]. rewrite length_app. cbn. rewrite app_nil_r. reflexivity. }
  split; [reflexivity |]. split; [| split; [| split]]; try reflexivity.
  rewrite !headers_written_app, Hh.
  destruct (setup_writes w freq) as (-> & _ & _). cbn [app].
  change (headers_written [fwrite_header placeholder_header]) with [placeholder_header].
  cbn [app headers_written omap]. 
  unfold headers_written. cbn [omap list_omap]. f_equal. f_equal.
  rewrite Htot, Ht, Z.add_0_l, <- Hn.
  unfold set_sizes. f_equal.
  - apply u32_add_to_long.
  - apply u32_to_long.
Qed.

(** X19. A failed read.  Whenever [main] ends on [exit] after it was
    given its arguments, the status is 1, the last two calls are the
    failed [rtlsdr_read_sync] and the error message, and the header has
    been written once only: [audio.wav] keeps the placeholder sizes
    [chunkSize = dataSize = 0] in front of whatever samples were written
    before, and is never closed. *)
Theorem main_read_failure (size : Z) (w : world) (argc : Z) (argv : list string)
    (events : list event) (status : Z) :
  argc > 1 ->
  main_sized size w argc argv = (events, Exited status) ->
  status = 1 /\
  (exists before, events = before ++ [rtlsdr_read_sync size; read_error]) /\
  headers_written events = [placeholder_header] /\
  (fclose ∉ events).
Proof.
  intros Hargc H.
  destruct (load argv 1) as [arg1 |] eqn:E1;
    [| unfold main_sized in H; rewrite decide_True, E1 in H by assumption; discriminate].
  destruct (load argv 2) as [arg2 |] eqn:E2;
    [| unfold main_sized in H; rewrite decide_True, E1, E2 in H by assumption;
       discriminate].
  pose proof (main_sized_phases size w argc argv arg1 arg2 Hargc E1 E2) as Hp.
  destruct (u32_of_d _) as [freq |]; [| rewrite Hp in H; discriminate].
  destruct (fopen_succeeds w); [| rewrite Hp in H; discriminate].
  destruct (decide (-1118 <= atoi w arg2 <= 1118)); [| rewrite Hp in H; discriminate].
  destruct Hp as (l0 & Hb & Ht & Hm). rewrite Hm in H. clear Hm.
  destruct (capture size (1920000 * atoi w arg2) (reads w) l0 finish) as [evs o] eqn:Ec.
  assert (Hev : events = (setup w freq ++ [fwrite_header placeholder_header]) ++ evs)
    by (apply (f_equal fst) in H; symmetry; exact H).
  assert (Ho : o = Exited status) by (apply (f_equal snd) in H; exact H).
  clear H. subst events o.
  destruct (capture_Exited _ _ _ _ _ _ _ finish_outcome Ec) as (-> & Hh & Hc & pre & ->).
  split; [reflexivity |]. split; [| split].
  - eexists. rewrite app_assoc. reflexivity.
  - rewrite headers_written_app, Hh, headers_written_app.
    destruct (setup_writes w freq) as (-> & _ & _). reflexivity.
  - intros Hin. rewrite !elem_of_app in Hin.
    destruct Hin as [[Hin | Hin] | Hin].
    + destruct (decide (rtlsdr_open_result w < 0));
        repeat (apply elem_of_cons in Hin; destruct Hin as [Hin | Hin];
                [discriminate |]); inversion Hin.
    + apply list_elem_of_singleton in Hin. discriminate.
    + apply Hc. rewrite elem_of_app. assumption.
Qed.

(** X20. A failed [rtlsdr_open] is reported and nothing more: the run is,
    call for call, the one of a successful open with the warning line
    added.  [main] goes on to configure, read from and close a device it
    does not have. *)
Theorem main_ignores_open_failure (size : Z) (w w' : world) (argc : Z)
    (argv : list string) :
  rtlsdr_open_result w < 0 -> 0 <= rtlsdr_open_result w' ->
  atof w = atof w' -> atoi w = atoi w' -> fopen_succeeds w = fopen_succeeds w' ->
  reads w = reads w' -> buffer_before w = buffer_before w' ->
  freq_samples_before w = freq_samples_before w' ->
  freq_samples_decimated_before w = freq_samples_decimated_before w' ->
  argc > 1 -> 2 < Z.of_nat (length argv) ->
  exists events outcome,
    main_sized size w' argc argv = (rtlsdr_open SDR_INDEX :: events, outcome) /\
    main_sized size w argc argv =
      (rtlsdr_open SDR_INDEX :: open_warning :: events, outcome).
Proof.
  intros Hw Hw' Ef Ei Eo Er Eb Es Ed Hargc Hlen.
  destruct (load_in_range argv 1) as [arg1 E1]; [lia |].
  destruct (load_in_range argv 2) as [arg2 E2]; [lia |].
  unfold main_sized. destruct (decide (argc > 1)); [| contradiction].
  rewrite E1, E2. cbv zeta.
  destruct (decide (rtlsdr_open_result w < 0)); [| contradiction].
  destruct (decide (rtlsdr_open_result w' < 0)); [lia |].
  rewrite Ef, Ei, Eo, Er, Eb, Es, Ed.
  match goal with
  | |- context [emit (rtlsdr_open SDR_INDEX) ?r] => destruct r as [evs o]
  end.
  exists evs, o. split; reflexivity.
Qed.

(** X21. The result of [fopen] is not tested.  If [audio.wav] cannot be
    created, [main] hands the null stream to [fwrite]: the run is
    undefined from the first write on, and nothing is read from the
    radio. *)
Theorem main_fopen_unchecked (size : Z) (w : world) (argc : Z)
    (argv : list string) :
  argc > 1 -> 2 < Z.of_nat (length argv) -> fopen_succeeds w = false ->
  (main_sized size w argc argv).2 = Undefined /\
  headers_written (main_sized size w argc argv).1 = [] /\
  reads_made (main_sized size w argc argv).1 = [].
Proof.
  intros Hargc Hlen Ho.
  destruct (load_in_range argv 1) as [arg1 E1]; [lia |].
  destruct (load_in_range argv 2) as [arg2 E2]; [lia |].
  pose proof (main_sized_phases size w argc argv arg1 arg2 Hargc E1 E2) as H.
  rewrite Ho in H.
  destruct (u32_of_d _) as [freq |]; rewrite H; cbn [fst snd].
  - destruct (setup_writes w freq) as (-> & _ & ->). repeat split; reflexivity.
  - destruct (decide (rtlsdr_open_result w < 0)); repeat split; reflexivity.
Qed.

(** X22. Full reads.  When every read reports a full buffer, a loop
    that is left normally has made [ceil ((total_bytes - bytes_count) /
    size)] turns, 0 if [bytes_count] had reached [total_bytes], and has
    written [size / 2 / 20] PCM samples at each: for [main], whose
    [total_bytes] is [1920000 * audio_duration] and [size] 262144, that is
    [6553 * ceil (1920000 * audio_duration / 262144)] samples for
    [audio_duration] seconds, not [48000 * audio_duration]. *)
Theorem capture_full_reads (size total_bytes : Z) (rds : list sdr_read)
    (l : locals) (events : list event) :
  0 < size -> (forall rd, rd ∈ rds -> n_read rd = size) ->
  capture size total_bytes rds l (fun _ => ([], Returned 0)) = (events, Returned 0) ->
  let turns := Z.max 0 ((total_bytes - bytes_count l + size - 1) / size) in
  reads_made events = replicate (Z.to_nat turns) size /\
  Z.of_nat (length (samples_written events)) = turns * (size ÷ 2 ÷ 20) /\
  BUFFER_SIZE ÷ 2 ÷ 20 = 6553.
Proof.
  intros Hsize Hfull H turns.
  destruct (capture_full_turns size total_bytes rds l events Hsize Hfull H) as [Hr Hs].
  split; [exact Hr |]. split; [exact Hs | reflexivity].
Qed.
End MainClaims.

(** ** The DC block in exact arithmetic *)

Section ExactDC.
Import FMrec.
Local Open Scope R_scope.

(** X23. In exact arithmetic, a constant input [c] is not removed at
    once by the DC block: cell 0 keeps [c] and cell [i] of the output is
    [c * 0.99^i].  As the filter starts afresh at every call, every buffer
    begins with the full level of its first sample and decays from
    there. *)
Theorem dc_block_constant_exact (c : R) (k : nat) (len : Z) :
  (1 <= len <= Z.of_nat k)%Z ->
  exists out, @dc_block_filter Exact.arith (replicate k c) len = Some out /\
    forall i : nat, (Z.of_nat i < len)%Z ->
      load out (Z.of_nat i) = Some (c * (99 / 100) ^ i).
Proof.
  intros Hlen.
  destruct (@dc_block_filter_run Exact.arith (replicate k c) len)
    as (out & Ho & Hl & H0 & Hw & Hu); [rewrite length_replicate; lia |].
  exists out. split; [assumption |].
  induction i as [| i IH]; intros Hi.
  - change (Z.of_nat 0) with 0%Z. rewrite H0, load_replicate by lia.
    f_equal. simpl. ring.
  - destruct (Hw (Z.of_nat (Datatypes.S i))) as (xi & xl & yp & Exi & Exl & Eyp & E);
      [lia |].
    replace (Z.of_nat (Datatypes.S i) - 1)%Z with (Z.of_nat i) in Exl, Eyp by lia.
    rewrite load_replicate in Exi, Exl by lia.
    rewrite IH in Eyp by lia.
    injection Exi as <-. injection Exl as <-. injection Eyp as <-.
    rewrite E. f_equal. simpl. unfold Q2R. simpl. field.
Qed.
End ExactDC.

(** ** The further statements at concrete inputs *)

Section MoreWitnesses.
Import IEEE FMrec Driver Rounding Inputs Worlds.

Ltac evaluate := vm_compute; repeat split; first [reflexivity | discriminate].

Lemma demodulate_frame_witness :
  let r := @demodulate machine [zero32; zero32; fifteen] one32 two_pairs 4 in
  r = Some (default ([], zero32) r) /\
  load (default ([], zero32) r).1 2 = Some fifteen.
Proof.
  intros r. assert (H : r = Some (default ([], zero32) r)) by (vm_compute; reflexivity).
  split; [exact H |].
  destruct (default ([], zero32) r) as [out c].
  destruct (@demodulate_frame machine _ _ _ _ _ _ H) as (_ & Hu & _).
  exact (Hu 2 ltac:(vm_compute; discriminate)).
Defined.

Lemma demodulate_ignores_old_samples_witness :
  (length [zero32; one32; fifteen] = length [fifteen; one32; fifteen] /\
   forall i, 4 ÷ 2 - 1 <= i ->
     load [zero32; one32; fifteen] i = load [fifteen; one32; fifteen] i) /\
  @demodulate machine [zero32; one32; fifteen] one32 two_pairs 4 =
  @demodulate machine [fifteen; one32; fifteen] one32 two_pairs 4.
Proof.
  assert (H : forall i, 4 ÷ 2 - 1 <= i ->
            load [zero32; one32; fifteen] i = load [fifteen; one32; fifteen] i).
  { intros i Hi. change (4 ÷ 2 - 1) with 1 in Hi. unfold load.
    rewrite !decide_True by lia.
    destruct (Z.to_nat i) as [| n] eqn:E; [lia | reflexivity]. }
  split; [split; [reflexivity | exact H] |].
  apply (@demodulate_ignores_old_samples machine); [reflexivity | exact H].
Defined.

Lemma stages_on_short_input_witness :
  0 <= 1 /\
  @deemphasize_filter machine [fifteen] one32 0 =
    Some [f_add (f_mul alpha fifteen) (f_mul (f_sub (f_lit 1) alpha) one32)] /\
  @dc_block_filter machine [] 0 = None.
Proof.
  split; [lia |]. split.
  - exact (proj2 (proj2 (@stages_on_short_input machine [fifteen] [] [] one32 0
                           ltac:(lia)))).
  - exact (proj1 (proj2 (@stages_on_short_input machine [] [] [] one32 0 ltac:(lia)))).
Defined.

Lemma convert_sample_keeps_sign_witness :
  @convert_sample machine (f_lit (- (1 # 2))) = Some (-16383) /\
  SFltb (@f_lit machine (- (1 # 2))) (S754_zero false) = true /\
  -32768 <= -16383 <= 0.
Proof.
  assert (H : @convert_sample machine (f_lit (- (1 # 2))) = Some (-16383))
    by (vm_compute; reflexivity).
  split; [exact H |]. split; [reflexivity |].
  exact (proj1 (convert_sample_keeps_sign RefLibm.ref _ _ H) eq_refl).
Defined.

Lemma convert_sample_full_scale_witness :
  valid_binary prec32 emax32 (@f_lit machine 3) = true /\
  SFleb (@f_lit machine 1) (@f_lit machine 3) = true /\
  @convert_sample machine (f_lit 3) = Some 32767.
Proof.
  split; [reflexivity |]. split; [reflexivity |].
  exact (proj1 (convert_sample_full_scale RefLibm.ref (@f_lit machine 3) eq_refl) eq_refl).
Defined.

Lemma process_buffer_block_witness :
  (1 <= 21 /\ Z.of_nat (length buffer42) = 2 * 21 /\
   21 <= Z.of_nat (length (freq_samples (fresh_state 21 1))) /\
   21 ÷ 20 <= Z.of_nat (length (freq_samples_decimated (fresh_state 21 1)))) /\
  forall st' pcm,
    @process_buffer machine (fresh_state 21 1) buffer42 (2 * 21) = Some (st', pcm) ->
    Z.of_nat (length pcm) = 21 ÷ 20.
Proof.
  split; [evaluate |].
  destruct (process_buffer_block RefLibm.ref (fresh_state 21 1) buffer42 21)
    as (out & r & dec & _ & _ & _ & _ & _ & H); [evaluate.. |].
  intros st' pcm Hp. exact (proj1 (proj2 (H st' pcm Hp))).
Defined.

Lemma convert_value_exact_witness :
  0 <= 128 <= 255 /\
  @convert_value machine (255 - 128) = SFopp (@convert_value machine 128).
Proof.
  split; [lia |].
  exact (proj2 (proj2 (convert_value_exact RefLibm.ref 128 ltac:(lia)))).
Defined.

Lemma same_sample_gives_zero_witness :
  let i := @convert_value machine 128 in
  atan2_result_ok (RefLibm.ref_atan2 (to64 i) (to64 i)) /\
  @get_instant_freq machine i i i i = S754_zero false.
Proof.
  intros i.
  assert (H : atan2_result_ok (RefLibm.ref_atan2 (to64 i) (to64 i)))
    by (split; vm_compute; reflexivity).
  split; [exact H |]. exact (same_sample_gives_zero RefLibm.ref i i H).
Defined.

Lemma small_fifteen : small prec32 emax32 (pow2u 4) fifteen.
Proof. split; [reflexivity | vm_compute; discriminate]. Qed.

Lemma small_one : small prec32 emax32 (pow2u 4) one32.
Proof. split; [reflexivity | vm_compute; discriminate]. Qed.

Lemma alpha_machine : @alpha machine = S754_finite false 11069107 (-29).
Proof. vm_compute. reflexivity. Qed.

Lemma deemphasize_filter_bounded_witness :
  (@alpha machine = S754_finite false 11069107 (-29) /\ -120 <= 4 <= 127 /\
   1 <= 3 <= Z.of_nat (length (replicate 3 fifteen)) /\
   small prec32 emax32 (pow2u 4) one32) /\
  exists out, @deemphasize_filter machine (replicate 3 fifteen) one32 3 = Some out /\
    exists y, load out 2 = Some y /\ small prec32 emax32 (pow2u 4) y.
Proof.
  split; [split; [exact alpha_machine | split; [lia | split; [evaluate | exact small_one]]] |].
  destruct (deemphasize_filter_bounded RefLibm.ref (replicate 3 fifteen) one32 3 4)
    as (out & Ho & Hs);
    [exact alpha_machine | lia | evaluate | exact small_one | | ].
  - intros i x Hi Hx. rewrite load_replicate in Hx by lia.
    injection Hx as <-. exact small_fifteen.
  - exists out. split; [exact Ho |]. apply Hs. lia.
Defined.

Lemma dc_block_filter_bounded_witness :
  (-120 <= 4 <= 119 /\ 1 <= 3 <= Z.of_nat (length (replicate 3 fifteen))) /\
  exists out, @dc_block_filter machine (replicate 3 fifteen) 3 = Some out /\
    exists y, load out 2 = Some y /\ small prec32 emax32 (pow2u (4 + 8)) y.
Proof.
  split; [split; [lia | evaluate] |].
  destruct (dc_block_filter_bounded RefLibm.ref (replicate 3 fifteen) 3 4)
    as (out & Ho & _ & Hs); [lia | evaluate | | ].
  - intros i x Hi Hx. rewrite load_replicate in Hx by lia.
    injection Hx as <-. exact small_fifteen.
  - exists out. split; [exact Ho |]. apply Hs. lia.
Defined.

Lemma atan2_two_pairs m bi bq :
  0 <= m < 2 ->
  load two_pairs (2 * m) = Some bi -> load two_pairs (2 * m + 1) = Some bq ->
  atan2_result_ok
    (RefLibm.ref_atan2 (to64 (@convert_value machine bq)) (to64 (@convert_value machine bi))).
Proof.
  intros Hm Hi Hq.
  assert (Hc : m = 0 \/ m = 1) by lia.
  destruct Hc as [-> | ->]; injection Hi as <-; injection Hq as <-;
    split; vm_compute; reflexivity.
Qed.

Lemma process_buffer_defined_witness :
  (@alpha machine = S754_finite false 11069107 (-29) /\ 2 <= 4 <= 111 /\
   Z.of_nat (length two_pairs) = 2 * 2 /\
   small prec32 emax32 (pow2u 4) (last_sample (fresh_state 2 0))) /\
  exists st' pcm,
    @process_buffer machine (fresh_state 2 0) two_pairs (2 * 2) = Some (st', pcm) /\
    small prec32 emax32 (pow2u (4 + 8)) (last_sample st').
Proof.
  split; [split; [exact alpha_machine | split; [lia | split; [reflexivity | exact I]]] |].
  destruct (process_buffer_defined RefLibm.ref (fresh_state 2 0) two_pairs 2 4)
    as (st' & pcm & Hp & _ & Hl & _);
    [exact alpha_machine | lia | lia | reflexivity | evaluate | evaluate
    | exact atan2_two_pairs | exact I | | ].
  - intros x Hx. injection Hx as <-. exact I.
  - exists st', pcm. split; [exact Hp | exact Hl].
Defined.

Lemma main_argument_count_witness :
  Z.of_nat (length ["fmrec"; "100.5"]) = 2 /\
  @main_sized machine machine_conv 40 (world_of 1 [] true 0) 2 ["fmrec"; "100.5"] =
    ([], Undefined).
Proof.
  split; [reflexivity |].
  exact (proj2 (@main_argument_count machine machine_conv 40 (world_of 1 [] true 0) 2
                  ["fmrec"; "100.5"] eq_refl) eq_refl).
Defined.

Lemma main_duration_overflow_witness :
  (3 > 1 /\ load ["fmrec"; "100.5"; "1119"] 2 = Some "1119" /\
   1118 < atoi (world_of 1119 [] true 0) "1119") /\
  (@main_sized machine machine_conv 40 (world_of 1119 [] true 0) 3
     ["fmrec"; "100.5"; "1119"]).2 = Undefined.
Proof.
  split; [split; [lia | split; [reflexivity | reflexivity]] |].
  exact (proj1 (proj2 (@main_duration_overflow machine machine_conv 40
                         (world_of 1119 [] true 0) 3 ["fmrec"; "100.5"; "1119"] "1119"
                         ltac:(lia) eq_refl) (or_intror eq_refl))).
Defined.

Lemma main_nonpositive_duration_witness :
  (3 > 1 /\ fopen_succeeds (world_of 0 [] true 0) = true /\
   -1118 <= atoi (world_of 0 [] true 0) "0" <= 0) /\
  (@main_sized machine machine_conv 40 (world_of 0 [] true 0) 3
     ["fmrec"; "100.5"; "0"]).2 = Returned 0.
Proof.
  split; [split; [lia | split; [reflexivity | split; discriminate]] |].
  rewrite (proj1 (@main_nonpositive_duration machine machine_conv 40
                    (world_of 0 [] true 0) 3 ["fmrec"; "100.5"; "0"] "100.5" "0"
                    100500000 ltac:(lia) eq_refl eq_refl ltac:(vm_compute; reflexivity)
                    eq_refl ltac:(split; discriminate))).
  reflexivity.
Defined.

Lemma main_header_sizes_witness :
  let r := @main_sized machine machine_conv 40 (world_of 1 [read40 1920000] true 0) 3
             ["fmrec"; "100.5"; "1"] in
  (0 <= 40 /\ r = (r.1, Returned 0)) /\
  samples_written r.1 = [-317] /\
  headers_written r.1 = [placeholder_header; set_sizes placeholder_header 38 2].
Proof.
  intros r.
  assert (H : r = (r.1, Returned 0)) by (vm_compute; reflexivity).
  assert (Hs : samples_written r.1 = [-317]) by (vm_compute; reflexivity).
  split; [split; [lia | exact H] |]. split; [exact Hs |].
  destruct (@main_header_sizes machine machine_conv 40 _ 3 _ r.1 0 ltac:(lia) H)
    as (_ & Hh & _).
  rewrite Hs in Hh. exact Hh.
Defined.

Lemma main_read_failure_witness :
  let r := @main_sized machine machine_conv 40 (world_of 1 [failed_read] true 0) 3
             ["fmrec"; "100.5"; "1"] in
  (3 > 1 /\ r = (r.1, Exited 1)) /\
  headers_written r.1 = [placeholder_header].
Proof.
  intros r.
  assert (H : r = (r.1, Exited 1)) by (vm_compute; reflexivity).
  split; [split; [lia | exact H] |].
  exact (proj1 (proj2 (proj2 (@main_read_failure machine machine_conv 40 _ 3 _ r.1 1
                                ltac:(lia) H)))).
Defined.

Lemma main_ignores_open_failure_witness :
  (rtlsdr_open_result (world_of 0 [] true (-1)) < 0 /\
   0 <= rtlsdr_open_result (world_of 0 [] true 0) /\
   3 > 1 /\ 2 < Z.of_nat (length ["fmrec"; "100.5"; "0"])) /\
  exists events outcome,
    @main_sized machine machine_conv 40 (world_of 0 [] true 0) 3 ["fmrec"; "100.5"; "0"] =
      (rtlsdr_open SDR_INDEX :: events, outcome) /\
    @main_sized machine machine_conv 40 (world_of 0 [] true (-1)) 3 ["fmrec"; "100.5"; "0"] =
      (rtlsdr_open SDR_INDEX ::
       fprintf_stderr ("Failed to open SDR sdrice." +:+ newline) :: events, outcome).
Proof.
  split; [repeat split; vm_compute; reflexivity || discriminate |].
  apply (@main_ignores_open_failure machine machine_conv 40
           (world_of 0 [] true (-1)) (world_of 0 [] true 0));
    try reflexivity; vm_compute; reflexivity || discriminate.
Defined.

Lemma main_fopen_unchecked_witness :
  (3 > 1 /\ 2 < Z.of_nat (length ["fmrec"; "100.5"; "1"]) /\
   fopen_succeeds (world_of 1 [] false 0) = false) /\
  (@main_sized machine machine_conv 40 (world_of 1 [] false 0) 3
     ["fmrec"; "100.5"; "1"]).2 = Undefined.
Proof.
  split; [split; [lia | split; [vm_compute; reflexivity | reflexivity]] |].
  exact (proj1 (@main_fopen_unchecked machine machine_conv 40 (world_of 1 [] false 0) 3
                  ["fmrec"; "100.5"; "1"] ltac:(lia) ltac:(vm_compute; reflexivity)
                  eq_refl)).
Defined.

Lemma capture_full_reads_witness :
  let r := @capture machine 40 80 [read40 40; read40 40] (locals_of 40)
             (fun _ => ([], Returned 0)) in
  (0 < 40 /\ (forall rd, rd ∈ [read40 40; read40 40] -> n_read rd = 40) /\
   r = (r.1, Returned 0)) /\
  reads_made r.1 = [40; 40] /\ Z.of_nat (length (samples_written r.1)) = 2.
Proof.
  intros r.
  assert (H : r = (r.1, Returned 0)) by (vm_compute; reflexivity).
  assert (Hf : forall rd, rd ∈ [read40 40; read40 40] -> n_read rd = 40).
  { intros rd Hin. apply elem_of_cons in Hin. destruct Hin as [-> | Hin]; [reflexivity |].
    apply list_elem_of_singleton in Hin. subst rd. reflexivity. }
  split; [split; [lia | split; [exact Hf | exact H]] |].
  destruct (@capture_full_reads machine 40 80 _ (locals_of 40) r.1 ltac:(lia) Hf H)
    as (Hr & Hs & _).
  split; [exact Hr | exact Hs].
Defined.

Lemma dc_block_constant_exact_witness :
  (1 <= 3 <= Z.of_nat 3) /\
  exists out, @dc_block_filter Exact.arith (replicate 3 15%R) 3 = Some out /\
    load out 2 = Some (15 * (99 / 100) ^ 2)%R.
Proof.
  split; [lia |].
  destruct (dc_block_constant_exact 15%R 3 3 ltac:(lia)) as (out & Ho & H).
  exists out. split; [exact Ho |]. exact (H 2%nat ltac:(lia)).
Defined.
End MoreWitnesses.
